(** * A shallow embedding of the ABI generation and changelog scripts

    The development follows the TypeScript sources of [packages/js/scripts]:
    - [lib/naming.ts]     word segmentation and case conversion,
    - [lib/discovery.ts]  exclusion patterns and directory normalisation,
    - [lib/modules.ts]    module generation, deduplication and collisions,
    - [lib/utils.ts]      the key-sorting serialiser,
    - [lib/changelog.ts]  signatures, manifests, diffs, the changelog and base
      versions,
    - [lib/git.ts]        repository URLs and tokens,
    - [lib/config.ts]     the validation of the configuration.

    JavaScript strings are modelled as [string], one [ascii] per code unit.
    Functions of the host (the collator behind [localeCompare], [JSON.parse],
    [gte] of the package [semver], [path.posix.join], [path.basename]) are
    not part of the repository: each is the field of a class ([Collator],
    [AbiParser], [Semver], [PathLib], [PathBase]), and what a proof needs
    from it is stated as a law of the class. The modules [Reference] and
    [Samples] give one instance of each, for running the definitions on
    concrete inputs. [formatAbiItem] of the package [abitype] is modelled in
    [Changelog.Abitype] and run on the cases that the tests of the
    repository record for it. *)

From Stdlib Require Import ZArith Ascii String List Bool Lia DecimalString.
From Stdlib Require Import Sorting.Sorted Sorting.Permutation.
From stdpp Require Import base gmap strings list fin_maps.

Set Warnings "-register-all".

Local Open Scope string_scope.
Local Open Scope Z_scope.

(* ===================================================================== *)
(** * Part I: definitions                                                 *)
(* ===================================================================== *)

(** ** Primitives of the host language *)

Module Js.

(** Character classes of the regular expressions in the sources. *)
Definition code (c : ascii) : N := N_of_ascii c.

Definition isUpper (c : ascii) : bool := ((65 <=? code c) && (code c <=? 90))%N.
Definition isLower (c : ascii) : bool := ((97 <=? code c) && (code c <=? 122))%N.
Definition isDigit (c : ascii) : bool := ((48 <=? code c) && (code c <=? 57))%N.
Definition isAlnum (c : ascii) : bool := isLower c || isUpper c || isDigit c.

(** Line terminators: the characters that [.] does not match in a regular
    expression without the [s] flag (of the four of ECMAScript, the two
    that a single 8-bit code unit can hold). *)
Definition isLineTerminator (c : ascii) : bool :=
  ((code c =? 10) || (code c =? 13))%N.

Definition lowerChar (c : ascii) : ascii :=
  if isUpper c then ascii_of_N (code c + 32) else c.
Definition upperChar (c : ascii) : ascii :=
  if isLower c then ascii_of_N (code c - 32) else c.

(** [String.prototype.toLowerCase], on the letters of ASCII. *)
Fixpoint toLowerCase (s : string) : string :=
  match s with
  | EmptyString => EmptyString
  | String c s' => String (lowerChar c) (toLowerCase s')
  end.

(** [Array.prototype.join]. *)
Fixpoint join (sep : string) (l : list string) : string :=
  match l with
  | [] => ""
  | [x] => x
  | x :: l' => x ++ sep ++ join sep l'
  end.

(** [xs.filter(Boolean)] on an array of strings: the empty string is the
    only falsy one. *)
Definition truthy (s : string) : bool :=
  match s with EmptyString => false | _ => true end.

(** [String.prototype.startsWith]. *)
Fixpoint startsWith (s p : string) : bool :=
  match p, s with
  | EmptyString, _ => true
  | String a p', String b s' => Ascii.eqb a b && startsWith s' p'
  | String _ _, EmptyString => false
  end.

(** [String.prototype.includes]. *)
Fixpoint includes (s p : string) : bool :=
  startsWith s p ||
  match s with
  | EmptyString => false
  | String _ s' => includes s' p
  end.

(** [String.prototype.indexOf]: the first index at which [p] occurs, or
    [-1]. *)
Fixpoint indexOf (s p : string) : Z :=
  if startsWith s p then 0
  else match s with
       | EmptyString => -1
       | String _ s' =>
           let i := indexOf s' p in
           if i <? 0 then -1 else 1 + i
       end.

(** [String.prototype.lastIndexOf]: the last index at which [p] occurs, or
    [-1]. *)
Fixpoint lastIndexOf (s p : string) : Z :=
  match s with
  | EmptyString => if startsWith s p then 0 else -1
  | String _ s' =>
      let i := lastIndexOf s' p in
      if 0 <=? i then 1 + i
      else if startsWith s p then 0 else -1
  end.

Fixpoint drop (n : nat) (s : string) : string :=
  match n, s with
  | O, _ => s
  | S n', String _ s' => drop n' s'
  | S _, EmptyString => EmptyString
  end.

Fixpoint take (n : nat) (s : string) : string :=
  match n, s with
  | O, _ => EmptyString
  | S n', String c s' => String c (take n' s')
  | S _, EmptyString => EmptyString
  end.

(** [String.prototype.slice(from, to)]: negative positions count from the
    end, both are clamped to the string, an empty range gives [""]. *)
Definition clampIndex (len i : Z) : Z :=
  if i <? 0 then Z.max 0 (len + i) else Z.min i len.

Definition slice (s : string) (from to : Z) : string :=
  let len := Z.of_nat (String.length s) in
  let a := clampIndex len from in
  let b := clampIndex len to in
  take (Z.to_nat (b - a)) (drop (Z.to_nat a) s).

(** [s.slice(from)]. *)
Definition sliceFrom (s : string) (from : Z) : string :=
  slice s from (Z.of_nat (String.length s)).

(** The order of [Array.prototype.sort] without a comparator: strings by
    their code units. *)
Definition codeUnitLe (a b : string) : bool := String.leb a b.

(** [Array.prototype.sort] is stable, and for a consistent comparator
    every stable sort returns the same array; it is modelled by the stable
    insertion sort. [le a b] says that [a] may stay in front of [b]. *)
Section Sort.
Context {A : Type} (le : A -> A -> bool).

Fixpoint insertSorted (x : A) (l : list A) : list A :=
  match l with
  | [] => [x]
  | y :: l' => if le x y then x :: y :: l' else y :: insertSorted x l'
  end.

Fixpoint sortBy (l : list A) : list A :=
  match l with
  | [] => []
  | x :: l' => insertSorted x (sortBy l')
  end.

Definition total : Prop := forall a b, le a b = false -> le b a = true.
End Sort.

(** [xs.sort()] on an array of strings. *)
Definition sort (l : list string) : list string := sortBy codeUnitLe l.

(** [xs.sort((a, b) => cmp(a, b))]: [a] stays in front of [b] unless the
    comparator is positive. *)
Definition sortWith {A : Type} (cmp : A -> A -> Z) (l : list A) : list A :=
  sortBy (fun a b => cmp a b <=? 0) l.

(** [new Set(xs)] followed by a spread: the first occurrence of every
    element, in order. *)
Fixpoint uniq (l : list string) : list string :=
  match l with
  | [] => []
  | x :: l' => x :: List.filter (fun y => negb (String.eqb x y)) (uniq l')
  end.

(** [set.has(x)]. *)
Definition has (l : list string) (x : string) : bool :=
  existsb (String.eqb x) l.

End Js.

(** A JSON value as [JSON.parse] returns it and [JSON.stringify] prints it;
    the members of an object are listed in the order in which the object
    enumerates them. Numbers are the integers that a number of the host
    holds exactly and that [JSON.stringify] prints digit by digit: those of
    a magnitude up to [2^53]. *)
Inductive json : Type :=
| JNull
| JBool (b : bool)
| JNum (n : Z)
| JStr (s : string)
| JArr (items : list json)
| JObj (members : list (string * json)).

(** ** [lib/naming.ts] *)

Module Naming.

(** [.replace(/([A-Z])([A-Z][a-z])/g, "$1 $2")]: the matches are taken
    from left to right and do not overlap, the search resumes behind the
    three characters of a match. *)
Fixpoint replaceAcronymBoundary (s : string) : string :=
  match s with
  | String a (String b (String c rest) as t) =>
      if Js.isUpper a && Js.isUpper b && Js.isLower c
      then String a (String " " (String b (String c (replaceAcronymBoundary rest))))
      else String a (replaceAcronymBoundary t)
  | String a t => String a (replaceAcronymBoundary t)
  | EmptyString => EmptyString
  end.

(** [.replace(/([a-z0-9])([A-Z])/g, "$1 $2")]: the search resumes behind
    the two characters of a match. *)
Fixpoint replaceCamelBoundary (s : string) : string :=
  match s with
  | String a (String b rest as t) =>
      if (Js.isLower a || Js.isDigit a) && Js.isUpper b
      then String a (String " " (String b (replaceCamelBoundary rest)))
      else String a (replaceCamelBoundary t)
  | String a t => String a (replaceCamelBoundary t)
  | EmptyString => EmptyString
  end.

(** [.split(/[^a-zA-Z0-9]+/)]: [cur] is the piece being read, [inSep]
    says that the previous character belonged to a separator. A separator
    at either end leaves an empty piece there. *)
Fixpoint splitNonAlnum (s : string) (cur : string) (inSep : bool) : list string :=
  match s with
  | EmptyString => [cur]
  | String c s' =>
      if Js.isAlnum c then splitNonAlnum s' (cur ++ String c "") false
      else if inSep then splitNonAlnum s' cur true
      else cur :: splitNonAlnum s' "" true
  end.

Definition splitWords (input : string) : list string :=
  List.map Js.toLowerCase
    (List.filter Js.truthy
       (splitNonAlnum (replaceCamelBoundary (replaceAcronymBoundary input)) "" false)).

(** [p[0].toUpperCase() + p.slice(1)]. The parts of [splitWords] are never
    empty ([splitWords_parts_nonempty]), so [p[0]] is always defined where
    the sources evaluate this expression. *)
Definition capitalize (p : string) : string :=
  match p with
  | EmptyString => EmptyString
  | String c p' => String (Js.upperChar c) p'
  end.

Definition toCamelCase (input : string) : string :=
  match splitWords input with
  | [] => "abi"
  | p0 :: rest => Js.join "" (p0 :: List.map capitalize rest)
  end.

Definition toPascalCase (input : string) : string :=
  match splitWords input with
  | [] => "Contract"
  | parts => Js.join "" (List.map capitalize parts)
  end.

Definition toKebabCase (input : string) : string :=
  Js.join "-" (splitWords input).

(** *** The segmentation as the specification words it *)

(** (a) a boundary between an uppercase letter and a following
    uppercase-then-lowercase pair, at every such place. *)
Definition beforeCapitalizedWord (t : string) : bool :=
  match t with
  | String b (String c _) => Js.isUpper b && Js.isLower c
  | _ => false
  end.

Fixpoint markAcronymEnds (s : string) : string :=
  match s with
  | EmptyString => EmptyString
  | String a t =>
      if Js.isUpper a && beforeCapitalizedWord t
      then String a (String " " (markAcronymEnds t))
      else String a (markAcronymEnds t)
  end.

(** (b) a boundary between a lowercase-or-digit character and a following
    uppercase letter, at every such place. *)
Definition beforeUpper (t : string) : bool :=
  match t with
  | String b _ => Js.isUpper b
  | _ => false
  end.

Fixpoint markCamelHumps (s : string) : string :=
  match s with
  | EmptyString => EmptyString
  | String a t =>
      if (Js.isLower a || Js.isDigit a) && beforeUpper t
      then String a (String " " (markCamelHumps t))
      else String a (markCamelHumps t)
  end.

(** (c) the pieces between the runs of non-alphanumeric characters, with
    the empty pieces at the ends. *)
Fixpoint alnumPieces (s : string) : list string :=
  match s with
  | EmptyString => [""]
  | String c s' =>
      if Js.isAlnum c then
        match alnumPieces s' with
        | p :: ps => String c p :: ps
        | [] => [String c ""]
        end
      else
        match s' with
        | String d _ => if Js.isAlnum d then "" :: alnumPieces s' else alnumPieces s'
        | EmptyString => "" :: alnumPieces s'
        end
  end.

(** (d) lowercase every piece, then (e) drop the empty ones. *)
Definition splitWords_spec (identifier : string) : list string :=
  List.filter Js.truthy
    (List.map Js.toLowerCase
       (alnumPieces (markCamelHumps (markAcronymEnds identifier)))).

End Naming.

(** ** Results of functions that may throw *)

(** [Ok a] is a normal return, [Throw message] an [Error] with that
    message. *)
Inductive result (A : Type) : Type :=
| Ok (a : A)
| Throw (message : string).
Arguments Ok {A} a.
Arguments Throw {A} message.

(** ** [lib/discovery.ts] *)

Module Discovery.

(** *** [matchesAny] *)

(** [s.replace(/c/g, f(c))] for replacements that look at one character
    at a time. *)
Fixpoint replaceChars (f : ascii -> string) (s : string) : string :=
  match s with
  | EmptyString => EmptyString
  | String c s' => f c ++ replaceChars f s'
  end.

(** The character class [[.+^${}()|[\]\\]]. *)
Definition isEscaped (c : ascii) : bool :=
  existsb (Ascii.eqb c)
    ["."; "+"; "^"; "$"; "{"; "}"; "("; ")"; "|"; "["; "]"; "\"]%char.

(** [.replace(/[.+^${}()|[\]\\]/g, "\\$&")] *)
Definition escapeSpecials : string -> string :=
  replaceChars (fun c => if isEscaped c then String "\" (String c "") else String c "").

(** [.replace(/\*/g, ".*")] *)
Definition replaceStars : string -> string :=
  replaceChars (fun c => if Ascii.eqb c "*" then ".*" else String c "").

(** [.replace(/\?/g, ".")] *)
Definition replaceQuestionMarks : string -> string :=
  replaceChars (fun c => if Ascii.eqb c "?" then "." else String c "").

(** The source handed to [new RegExp]. *)
Definition body (pattern : string) : string :=
  replaceQuestionMarks (replaceStars (escapeSpecials pattern)).

Definition regexSource (pattern : string) : string :=
  "^" ++ body pattern ++ "$".

(** The regular expressions that [regexSource] can produce: between the
    anchors a sequence of literal characters (plain, or a syntax character
    behind a backslash), [.] and [.*]. *)
Inductive atom : Type :=
| Lit (c : ascii)
| AnyChar
| AnyStar.

(** The characters with a meaning of their own in a pattern of the
    engine. *)
Definition isSyntaxChar (c : ascii) : bool :=
  isEscaped c || Ascii.eqb c "*" || Ascii.eqb c "?".

(** The body up to the closing anchor. [None] stands for every source
    outside this fragment, among them the sources that [new RegExp]
    rejects with a [SyntaxError]. *)
Fixpoint parseBody (s : string) : option (list atom) :=
  match s with
  | EmptyString => None
  | String c rest =>
      if Ascii.eqb c "$" then
        match rest with EmptyString => Some [] | _ => None end
      else if Ascii.eqb c "\" then
        match rest with
        | String d rest' =>
            if isSyntaxChar d then option_map (cons (Lit d)) (parseBody rest') else None
        | EmptyString => None
        end
      else if Ascii.eqb c "." then
        match rest with
        | String d rest' =>
            if Ascii.eqb d "*" then option_map (cons AnyStar) (parseBody rest')
            else option_map (cons AnyChar) (parseBody rest)
        | EmptyString => None
        end
      else if isSyntaxChar c then None
      else option_map (cons (Lit c)) (parseBody rest)
  end.

(** [new RegExp(source)] *)
Definition RegExp_new (source : string) : option (list atom) :=
  match source with
  | String c body => if Ascii.eqb c "^" then parseBody body else None
  | EmptyString => None
  end.

(** [regex.test(target)] for an anchored expression without flags: the
    whole target has to match, and [.] matches every character but a line
    terminator. *)
Fixpoint test (regex : list atom) (target : string) : bool :=
  match regex with
  | [] => match target with EmptyString => true | _ => false end
  | Lit c :: regex' =>
      match target with
      | String d target' => Ascii.eqb c d && test regex' target'
      | EmptyString => false
      end
  | AnyChar :: regex' =>
      match target with
      | String d target' => negb (Js.isLineTerminator d) && test regex' target'
      | EmptyString => false
      end
  | AnyStar :: regex' =>
      (fix star (t : string) : bool :=
         test regex' t ||
         match t with
         | String d t' => negb (Js.isLineTerminator d) && star t'
         | EmptyString => false
         end) target
  end.

(** [pattern.includes("/") ? (relPath ?? filename) : filename] *)
Definition targetOf (filename : string) (relPath : option string)
           (pattern : string) : string :=
  if Js.includes pattern "/"
  then match relPath with Some p => p | None => filename end
  else filename.

(** [new RegExp] throws a [SyntaxError] for a source it cannot compile. *)
Fixpoint matchesAny (filename : string) (patterns : list string)
         (relPath : option string) : result bool :=
  match patterns with
  | [] => Ok false
  | pattern :: patterns' =>
      match RegExp_new (regexSource pattern) with
      | None => Throw "SyntaxError: Invalid regular expression"
      | Some regex =>
          let target := targetOf filename relPath pattern in
          if test regex target then Ok true
          else matchesAny filename patterns' relPath
      end
  end.

(** The matching of a pattern as the documentation words it: [*] is any
    characters, [?] a single character, every other character itself. *)
Fixpoint globMatch (pattern target : string) : bool :=
  match pattern with
  | EmptyString => match target with EmptyString => true | _ => false end
  | String p pattern' =>
      if Ascii.eqb p "*" then
        (fix star (t : string) : bool :=
           globMatch pattern' t ||
           match t with
           | String _ t' => star t'
           | EmptyString => false
           end) target
      else
        match target with
        | String d target' =>
            (Ascii.eqb p "?" || Ascii.eqb p d) && globMatch pattern' target'
        | EmptyString => false
        end
  end.

(** What one character of a pattern becomes in the source, and the atom
    it stands for. *)
Definition tokenOf (c : ascii) : string :=
  if isEscaped c then String "\" (String c "")
  else if Ascii.eqb c "*" then ".*"
  else if Ascii.eqb c "?" then "."
  else String c "".

Definition atomOf (c : ascii) : atom :=
  if Ascii.eqb c "*" then AnyStar
  else if Ascii.eqb c "?" then AnyChar
  else Lit c.

Fixpoint atomsOf (pattern : string) : list atom :=
  match pattern with
  | EmptyString => []
  | String c pattern' => atomOf c :: atomsOf pattern'
  end.

(** A source that does not begin with a quantifier. *)
Definition notStar (s : string) : Prop :=
  match s with
  | String d _ => Ascii.eqb d "*" = false
  | EmptyString => False
  end.

Definition newline : ascii := "010"%char.

Fixpoint noLineTerminator (s : string) : bool :=
  match s with
  | EmptyString => true
  | String c s' => negb (Js.isLineTerminator c) && noLineTerminator s'
  end.

(** *** [normalizeDirs] *)

(** A value of type [string | string[] | undefined]. *)
Inductive dirs : Type :=
| Undefined
| Scalar (dir : string)
| Array (dirs : list string).

(** [Array.isArray(d) ? d : [d ?? fallback]] *)
Definition toArray (fallback : string) (d : dirs) : list string :=
  match d with
  | Array l => l
  | Scalar s => [s]
  | Undefined => [fallback]
  end.

(** A length in a template literal. *)
Definition showNat (n : nat) : string :=
  NilEmpty.string_of_uint (Nat.to_uint n).

(** [srcDirs.map(() => outDirs[0])] reads [outDirs[0]] only where
    [outDirs] has one element. *)
Definition normalizeDirs (srcDir outDir : dirs)
  : result (list string * list string) :=
  let srcDirs := toArray "src" srcDir in
  let outDirs := toArray "out" outDir in
  if Nat.eqb (List.length srcDirs) 0 then
    Throw "srcDir must not be an empty array"
  else if Nat.ltb 1 (List.length outDirs)
          && negb (Nat.eqb (List.length outDirs) (List.length srcDirs)) then
    Throw ("When both srcDir and outDir are arrays they must have the same length (srcDir: "
           ++ showNat (List.length srcDirs) ++ ", outDir: "
           ++ showNat (List.length outDirs) ++ ")")
  else
    let expandedOutDirs :=
      match outDirs with
      | [out] => List.map (fun _ => out) srcDirs
      | _ => outDirs
      end in
    Ok (srcDirs, expandedOutDirs).

End Discovery.

(** ** Functions of the host environment *)

(** [a.localeCompare(b)]: negative, zero or positive. The collation order
    belongs to the host and its locale. *)
Class Collator := { localeCompare : string -> string -> Z }.

(** What the sorts of the sources need from the collator: comparing the
    other way round flips the sign. *)
Class CollatorLaws `{Collator} := {
  localeCompare_antisym :
    forall a b, Z.sgn (localeCompare b a) = - Z.sgn (localeCompare a b)
}.

(** [path.posix.join(a, b)] *)
Class PathLib := { path_posix_join : string -> string -> string }.

(** ** JSON *)

Module Json.

Definition dquote : ascii := "034"%char.
Definition backslash : ascii := "092"%char.
Definition nl : string := String Discovery.newline EmptyString.

Definition hexDigit (n : N) : ascii :=
  if (n <? 10)%N then ascii_of_N (48 + n) else ascii_of_N (87 + n).

(** [QuoteJSONString]: the quote, the backslash and the control characters
    are escaped. *)
Definition quoteChar (c : ascii) : string :=
  let n := Js.code c in
  if Ascii.eqb c dquote then String backslash (String dquote EmptyString)
  else if Ascii.eqb c backslash then String backslash (String backslash EmptyString)
  else if (n =? 8)%N then String backslash "b"
  else if (n =? 12)%N then String backslash "f"
  else if (n =? 10)%N then String backslash "n"
  else if (n =? 13)%N then String backslash "r"
  else if (n =? 9)%N then String backslash "t"
  else if (n <? 32)%N then
    String backslash ("u00" ++ String (hexDigit (n / 16)) (String (hexDigit (n mod 16)) EmptyString))
  else String c EmptyString.

Definition quote (s : string) : string :=
  String dquote (Discovery.replaceChars quoteChar s) ++ String dquote EmptyString.

(** [String(n)] for an integer that a number holds exactly and prints in
    full. *)
Definition showZ (n : Z) : string :=
  match n with
  | Z0 => "0"
  | Zpos p => NilEmpty.string_of_uint (Pos.to_uint p)
  | Zneg p => "-" ++ NilEmpty.string_of_uint (Pos.to_uint p)
  end.

(** [JSON.stringify(value, null, 2)] below the indentation [indent]: an
    empty array or object stays on one line, every other one puts each
    member on a line of its own, two spaces further in. *)
Fixpoint stringifyAt (indent : string) (v : json) : string :=
  let inner := indent ++ "  " in
  match v with
  | JNull => "null"
  | JBool true => "true"
  | JBool false => "false"
  | JNum n => showZ n
  | JStr s => quote s
  | JArr [] => "[]"
  | JArr items =>
      "[" ++ nl ++ inner
      ++ Js.join ("," ++ nl ++ inner) (List.map (stringifyAt inner) items)
      ++ nl ++ indent ++ "]"
  | JObj [] => "{}"
  | JObj members =>
      "{" ++ nl ++ inner
      ++ Js.join ("," ++ nl ++ inner)
           (List.map (fun kv => quote (fst kv) ++ ": " ++ stringifyAt inner (snd kv))
                     members)
      ++ nl ++ indent ++ "}"
  end.

Definition stringify2 (v : json) : string := stringifyAt "" v.

(** [JSON.stringify(value)], without indentation. *)
Fixpoint stringify (v : json) : string :=
  match v with
  | JNull => "null"
  | JBool true => "true"
  | JBool false => "false"
  | JNum n => showZ n
  | JStr s => quote s
  | JArr items => "[" ++ Js.join "," (List.map stringify items) ++ "]"
  | JObj members =>
      "{" ++ Js.join ","
               (List.map (fun kv => quote (fst kv) ++ ":" ++ stringify (snd kv)) members)
      ++ "}"
  end.

(** Two values that differ in the order of the members of their objects
    only. *)
Inductive sameUpToKeyOrder : json -> json -> Prop :=
| same_null : sameUpToKeyOrder JNull JNull
| same_bool b : sameUpToKeyOrder (JBool b) (JBool b)
| same_num n : sameUpToKeyOrder (JNum n) (JNum n)
| same_str s : sameUpToKeyOrder (JStr s) (JStr s)
| same_arr xs ys :
    Forall2 sameUpToKeyOrder xs ys ->
    sameUpToKeyOrder (JArr xs) (JArr ys)
| same_obj ms ms' ns :
    Permutation ms ms' ->
    Forall2 (fun m n => fst m = fst n /\ sameUpToKeyOrder (snd m) (snd n)) ms' ns ->
    sameUpToKeyOrder (JObj ms) (JObj ns).

End Json.

(** ** [lib/utils.ts] *)

Module Utils.

(** [stableStringify]: the members of every object sorted by key. *)
Fixpoint stableStringify `{Collator} (value : json) : string :=
  match value with
  | JArr items =>
      "[" ++ Js.join "," (List.map stableStringify items) ++ "]"
  | JObj members =>
      let entries :=
        Js.sortWith (fun a b => localeCompare (fst a) (fst b))
          (List.map (fun kv => (fst kv, stableStringify (snd kv))) members) in
      "{" ++ Js.join "," (List.map (fun kv => Json.quote (fst kv) ++ ":" ++ snd kv) entries)
      ++ "}"
  | _ => Json.stringify value
  end.

End Utils.

(** ** [lib/types.ts] *)

Module Artifact.
Record DiscoveredArtifact : Type := {
  sourceId : string;
  filePath : string;
  contractName : string;
  relDir : string;
  abi : list json
}.
End Artifact.

Record GeneratedModule : Type := {
  sourceId : string;
  contractName : string;
  exportName : string;
  moduleRelPath : string;
  moduleContent : string;
  dedupeKey : string
}.

(** ** [lib/modules.ts] *)

Module Modules.

Definition artifactToModule `{PathLib}
  (artifact : Artifact.DiscoveredArtifact) (mainSource : option string)
  : GeneratedModule :=
  let exportName := Naming.toCamelCase (Artifact.contractName artifact) ++ "Abi" in
  let fileName := Naming.toCamelCase (Artifact.contractName artifact) ++ ".ts" in
  let innerPath :=
    if String.eqb (Artifact.relDir artifact) "."
    then fileName
    else path_posix_join (Artifact.relDir artifact) fileName in
  let isMain :=
    match mainSource with
    | Some main => String.eqb (Artifact.sourceId artifact) main
    | None => false
    end in
  let moduleRelPath :=
    if isMain then innerPath
    else path_posix_join (Artifact.sourceId artifact) innerPath in
  let abiContent := Json.stringify2 (JArr (Artifact.abi artifact)) in
  {| sourceId := Artifact.sourceId artifact;
     contractName := Artifact.contractName artifact;
     exportName := exportName;
     moduleRelPath := moduleRelPath;
     dedupeKey := Artifact.sourceId artifact ++ ":" ++ Artifact.contractName artifact;
     moduleContent :=
       "export const " ++ exportName ++ " = " ++ abiContent ++ " as const;"
       ++ Json.nl ++ Json.nl ++ "export default " ++ exportName ++ ";" ++ Json.nl |}.

(** [byKey.get(key)] on a [Map] kept as the list of its entries in
    insertion order. *)
Fixpoint Map_get {V : Type} (entries : list (string * V)) (key : string) : option V :=
  match entries with
  | [] => None
  | (k, v) :: entries' => if String.eqb k key then Some v else Map_get entries' key
  end.

Definition duplicateWarning (module : GeneratedModule) : string :=
  "Duplicate ABI ignored for " ++ dedupeKey module.

Definition collisionMessage (module : GeneratedModule) : string :=
  "ABI collision for " ++ dedupeKey module
  ++ ": same source and contractName produced different ABI content".

(** The loop over the modules, with the map and the warnings it has built
    so far. A key is set once, when it is first seen. *)
Fixpoint dedupeLoop (modules : list GeneratedModule)
         (byKey : list (string * GeneratedModule)) (warnings : list string)
  : result (list (string * GeneratedModule) * list string) :=
  match modules with
  | [] => Ok (byKey, warnings)
  | module :: modules' =>
      match Map_get byKey (dedupeKey module) with
      | None => dedupeLoop modules' (byKey ++ [(dedupeKey module, module)]) warnings
      | Some existing =>
          if String.eqb (moduleContent existing) (moduleContent module)
          then dedupeLoop modules' byKey (warnings ++ [duplicateWarning module])
          else Throw (collisionMessage module)
      end
  end.

(** [x || y] on two numbers: [y] when [x] is zero. *)
Definition orElse (x y : Z) : Z := if x =? 0 then y else x.

Definition compareModules `{Collator} (a b : GeneratedModule) : Z :=
  orElse (localeCompare (sourceId a) (sourceId b))
    (orElse (localeCompare (contractName a) (contractName b))
       (localeCompare (moduleRelPath a) (moduleRelPath b))).

Record Deduped : Type := { modules : list GeneratedModule; warnings : list string }.

Definition dedupeAndValidateModules `{Collator} (mods : list GeneratedModule)
  : result Deduped :=
  match dedupeLoop mods [] [] with
  | Throw message => Throw message
  | Ok (byKey, warnings) =>
      Ok {| modules := Js.sortWith compareModules (List.map snd byKey);
            warnings := warnings |}
  end.

(** *** The vocabulary of the specification *)

Definition sameKey (a b : GeneratedModule) : bool :=
  String.eqb (dedupeKey a) (dedupeKey b).

(** The elements of a list that satisfy a condition on what comes before
    them, in order. *)
Fixpoint filterWithPrefix {A : Type} (P : list A -> A -> bool)
         (before l : list A) : list A :=
  match l with
  | [] => []
  | x :: l' =>
      (if P before x then [x] else []) ++ filterWithPrefix P (before ++ [x]) l'
  end.

(** The first module seen with each key, and the later ones. *)
Definition firstSeen (mods : list GeneratedModule) : list GeneratedModule :=
  filterWithPrefix (fun before m => negb (existsb (sameKey m) before)) [] mods.

Definition laterDuplicates (mods : list GeneratedModule) : list GeneratedModule :=
  filterWithPrefix (fun before m => existsb (sameKey m) before) [] mods.

(** The module kept for the key of [m] among the modules [before] it. *)
Definition keptFor (before : list GeneratedModule) (m : GeneratedModule)
  : option GeneratedModule :=
  List.find (sameKey m) before.

(** No module differs in content from the one kept for its key. *)
Definition collisionFree (mods : list GeneratedModule) : Prop :=
  forall before m after kept,
    mods = (before ++ m :: after)%list ->
    keptFor before m = Some kept ->
    moduleContent kept = moduleContent m.

(** The decidable form of [collisionFree], after the modules [before]. *)
Fixpoint collisionFreeAfter (before mods : list GeneratedModule) : bool :=
  match mods with
  | [] => true
  | m :: mods' =>
      match keptFor before m with
      | Some kept => String.eqb (moduleContent kept) (moduleContent m)
      | None => true
      end
      && collisionFreeAfter (before ++ [m]) mods'
  end.

(** The entries of the map once the modules [mods] have been kept. *)
Definition entriesOf (mods : list GeneratedModule) : list (string * GeneratedModule) :=
  List.map (fun m => (dedupeKey m, m)) mods.

(** The order of the result: source id, then contract name, then path. *)
Definition moduleLe `{Collator} (a b : GeneratedModule) : Prop :=
  localeCompare (sourceId a) (sourceId b) < 0
  \/ (localeCompare (sourceId a) (sourceId b) = 0
      /\ (localeCompare (contractName a) (contractName b) < 0
          \/ (localeCompare (contractName a) (contractName b) = 0
              /\ localeCompare (moduleRelPath a) (moduleRelPath b) <= 0))).

End Modules.

(** ** [lib/changelog.ts] *)

Module Changelog.

(** *** Interface items *)

(** A parameter of an interface item. The artifacts give every parameter a
    [name] and an [internalType] as well; the type of the sources declares
    [type], [indexed] and [components], the fields that are read. *)
Inductive AbiParam : Type :=
  mkParam (name : option string) (internalType : option string) (type : string)
          (indexed : option bool) (components : option (list AbiParam)).

Module Param.
Definition name (p : AbiParam) : option string :=
  match p with mkParam name _ _ _ _ => name end.
Definition internalType (p : AbiParam) : option string :=
  match p with mkParam _ internalType _ _ _ => internalType end.
Definition type (p : AbiParam) : string :=
  match p with mkParam _ _ type _ _ => type end.
Definition indexed (p : AbiParam) : option bool :=
  match p with mkParam _ _ _ indexed _ => indexed end.
Definition components (p : AbiParam) : option (list AbiParam) :=
  match p with mkParam _ _ _ _ components => components end.
End Param.

Record AbiItem : Type := {
  type : string;
  name : option string;
  inputs : option (list AbiParam);
  outputs : option (list AbiParam);
  stateMutability : option string
}.

(** [x ?? []] *)
Definition orEmpty {A : Type} (x : option (list A)) : list A :=
  match x with Some l => l | None => [] end.

(** Induction on a parameter, with the hypothesis for its components. *)
Section AbiParamInduction.
Variable P : AbiParam -> Prop.
Hypothesis step :
  forall name internalType type indexed components,
    Forall P (orEmpty components) ->
    P (mkParam name internalType type indexed components).

Fixpoint AbiParam_nested_ind (p : AbiParam) : P p :=
  match p with
  | mkParam name internalType type indexed components =>
      step name internalType type indexed components
        (match components as cs return Forall P (orEmpty cs) with
         | Some l =>
             (fix all (l : list AbiParam) : Forall P l :=
                match l with
                | [] => List.Forall_nil P
                | x :: l' => List.Forall_cons P x l' (AbiParam_nested_ind x) (all l')
                end) l
         | None => List.Forall_nil P
         end)
  end.
End AbiParamInduction.

(** [`${x}`] for an optional string. *)
Definition show (x : option string) : string :=
  match x with Some s => s | None => "undefined" end.

(** The cases of the test suite. *)
Definition typed (type : string) : AbiParam := mkParam None None type None None.
Definition typedIndexed (type : string) (indexed : bool) : AbiParam :=
  mkParam None None type (Some indexed) None.
Definition tuple (type : string) (components : list AbiParam) : AbiParam :=
  mkParam None None type None (Some components).
Definition named (name type : string) : AbiParam :=
  mkParam (Some name) None type None None.
Definition namedIndexed (name type : string) (indexed : bool) : AbiParam :=
  mkParam (Some name) None type (Some indexed) None.
Definition namedTuple (name type : string) (components : list AbiParam) : AbiParam :=
  mkParam (Some name) None type None (Some components).

(** *** Signature formatting *)

Fixpoint formatParamType (param : AbiParam) (includeIndexed : bool) : string :=
  match param with
  | mkParam _ _ type indexed components =>
      let result :=
        if String.eqb type "tuple" || Js.startsWith type "tuple[" then
          let suffix := Js.sliceFrom type 5 in
          let inner :=
            match components with
            | Some cs => Js.join "," (List.map (fun c => formatParamType c false) cs)
            | None => Js.join "," []
            end in
          "(" ++ inner ++ ")" ++ suffix
        else type in
      if includeIndexed && match indexed with Some true => true | _ => false end
      then result ++ " indexed"
      else result
  end.

Definition formatParams (includeIndexed : bool) (params : list AbiParam) : string :=
  Js.join "," (List.map (fun p => formatParamType p includeIndexed) params).

(** [mut ? ` ${mut}` : ""] *)
Definition mutabilitySuffix (mut : string) : string :=
  if Js.truthy mut then " " ++ mut else "".

Definition formatAbiItemSignature (item : AbiItem) : option string :=
  let inputs := orEmpty (inputs item) in
  if String.eqb (type item) "function" then
    let params := formatParams false inputs in
    let outputs := formatParams false (orEmpty (outputs item)) in
    let mut := match stateMutability item with Some m => m | None => "" end in
    let ret := if (0 <? String.length outputs)%nat then " returns (" ++ outputs ++ ")" else "" in
    Some ("function " ++ show (name item) ++ "(" ++ params ++ ")"
          ++ mutabilitySuffix mut ++ ret)
  else if String.eqb (type item) "event" then
    Some ("event " ++ show (name item) ++ "(" ++ formatParams true inputs ++ ")")
  else if String.eqb (type item) "error" then
    Some ("error " ++ show (name item) ++ "(" ++ formatParams false inputs ++ ")")
  else if String.eqb (type item) "constructor" then
    let mut := match stateMutability item with Some m => m | None => "" end in
    Some ("constructor(" ++ formatParams false inputs ++ ")" ++ mutabilitySuffix mut)
  else if String.eqb (type item) "fallback" then Some "fallback()"
  else if String.eqb (type item) "receive" then Some "receive()"
  else None.

(** *** Parameter names *)

Fixpoint eraseName (p : AbiParam) : AbiParam :=
  match p with
  | mkParam _ internalType type indexed components =>
      mkParam None internalType type indexed
        (match components with
         | Some cs => Some (List.map eraseName cs)
         | None => None
         end)
  end.

Definition eraseParamNames (item : AbiItem) : AbiItem :=
  {| type := type item;
     name := name item;
     inputs := option_map (List.map eraseName) (inputs item);
     outputs := option_map (List.map eraseName) (outputs item);
     stateMutability := stateMutability item |}.

(** Two interfaces that differ in the names of parameters only. *)
Definition sameUpToParamNames (abi1 abi2 : list AbiItem) : Prop :=
  List.map eraseParamNames abi1 = List.map eraseParamNames abi2.

(** *** Manifest building *)

(** [JSON.parse(text) as AbiItem[]]: [None] when [JSON.parse] throws. The
    cast is unchecked; the model covers the texts whose value has the
    declared type. *)
Class AbiParser := { JSON_parse : string -> option (list AbiItem) }.

Definition parseAbiFromModuleContent `{AbiParser} (content : string)
  : option (list AbiItem) :=
  let start := Js.indexOf content "[" in
  let end_ := Js.lastIndexOf content "] as const;" in
  if (start =? -1) || (end_ =? -1) then None
  else JSON_parse (Js.slice content start (end_ + 1)).

(** [s.replace(/\.ts$/, "")] *)
Definition stripTs (s : string) : string :=
  let n := String.length s in
  if (3 <=? n)%nat && String.eqb (Js.drop (n - 3) s) ".ts"
  then Js.take (n - 3) s
  else s.

(** The manifest: a [Record<string, string[]>], used as a map. The order of
    the keys of the object that [buildManifest] returns, which
    [JSON.stringify] reads, is that of [Ordered.manifestEntries]. *)
Abbreviation AbiManifest := (gmap string (list string)).

(** [Object.fromEntries]: a later entry replaces an earlier one with the
    same key. *)
Definition Object_fromEntries (entries : list (string * list string)) : AbiManifest :=
  fold_left (fun manifest entry => <[fst entry := snd entry]> manifest) entries ∅.

(** The value of a key after [Object.fromEntries]: that of the last entry
    with this key. *)
Definition lastOf (key : string) (entries : list (string * list string))
  : option (list string) :=
  fold_left (fun found entry => if String.eqb (fst entry) key then Some (snd entry) else found)
            entries None.

(** [Object.keys] in [diffManifests]. The order of the keys does not reach
    its result: it sorts every list of keys it returns. *)
Definition Object_keys (manifest : AbiManifest) : list string :=
  (map_to_list manifest).*1.

(** [abi.map(formatAbiItemSignature).filter((s) => s !== null).sort()] *)
Definition filterNotNull (sigs : list (option string)) : list string :=
  List.flat_map (fun s => match s with Some x => [x] | None => [] end) sigs.

Definition signaturesOf (abi : list AbiItem) : list string :=
  Js.sort (filterNotNull (List.map formatAbiItemSignature abi)).

Definition keyOf (module : GeneratedModule) : string :=
  stripTs (moduleRelPath module).

Section BuildManifest.
Context `{Collator} `{AbiParser}.

(** The loop of [buildManifest] over a formatter of whole interfaces. *)
Fixpoint entriesWith (signatures : list AbiItem -> list string)
         (modules : list GeneratedModule) : list (string * list string) :=
  match modules with
  | [] => []
  | module :: modules' =>
      let key := keyOf module in
      match parseAbiFromModuleContent (moduleContent module) with
      | None => entriesWith signatures modules'
      | Some abi => (key, signatures abi) :: entriesWith signatures modules'
      end
  end.

Definition compareEntries (a b : string * list string) : Z :=
  localeCompare (fst a) (fst b).

Definition buildManifestWith (signatures : list AbiItem -> list string)
           (modules : list GeneratedModule) : AbiManifest :=
  Object_fromEntries (Js.sortWith compareEntries (entriesWith signatures modules)).

(** [buildManifest] of the revision that formats the signatures itself. *)
Definition buildManifest (modules : list GeneratedModule) : AbiManifest :=
  buildManifestWith signaturesOf modules.

(** [buildManifest] of the revision that leaves the formatting to
    [formatAbiItem] of the package [abitype]:
    [abi.map((item) => formatAbiItem(item)).sort()]. *)
Definition buildManifestAbitype (formatAbiItem : AbiItem -> string)
           (modules : list GeneratedModule) : AbiManifest :=
  buildManifestWith (fun abi => Js.sort (List.map formatAbiItem abi)) modules.

End BuildManifest.

(** *** [formatAbiItem] of the package [abitype] *)

(** The package is not part of the repository. The definitions follow its
    human-readable formatting of an item, and [ChangelogFacts] runs them on
    every case that the tests of the repository record as what the package
    returns. The package reads the length of the [inputs] of a function, an
    event, an error and a constructor, which the items of an artifact have;
    an item without them is formatted here as one with none. *)
Module Abitype.

(** What the pattern of the package for the type of a tuple accepts behind
    [tuple]: any number of groups of digits in square brackets. *)
Fixpoint arraySuffix (inside : bool) (s : string) : bool :=
  match s with
  | EmptyString => negb inside
  | String c rest =>
      if inside
      then if Ascii.eqb c "]" then arraySuffix false rest
           else Js.isDigit c && arraySuffix true rest
      else Ascii.eqb c "[" && arraySuffix true rest
  end.

Definition isTuple (type : string) : bool :=
  Js.startsWith type "tuple" && arraySuffix false (Js.sliceFrom type 5).

(** [formatAbiParameter]: the type, with the components of a tuple in
    parentheses, then [indexed], then the name where there is one. *)
Fixpoint formatAbiParameter (param : AbiParam) : string :=
  match param with
  | mkParam name _ type indexed components =>
      let type :=
        match components with
        | Some cs =>
            if isTuple type
            then "(" ++ Js.join ", " (List.map formatAbiParameter cs) ++ ")"
                 ++ Js.sliceFrom type 5
            else type
        | None => type
        end in
      let type :=
        match indexed with
        | Some true => type ++ " indexed"
        | _ => type
        end in
      match name with
      | Some name => if Js.truthy name then type ++ " " ++ name else type
      | None => type
      end
  end.

Definition formatAbiParameters (params : list AbiParam) : string :=
  Js.join ", " (List.map formatAbiParameter params).

(** [stateMutability === "payable" ? " payable" : ""] *)
Definition payableSuffix (item : AbiItem) : string :=
  match stateMutability item with
  | Some mut => if String.eqb mut "payable" then " payable" else ""
  | None => ""
  end.

Definition formatAbiItem (item : AbiItem) : string :=
  let inputs := formatAbiParameters (orEmpty (inputs item)) in
  if String.eqb (type item) "function" then
    "function " ++ show (name item) ++ "(" ++ inputs ++ ")"
    ++ match stateMutability item with
       | Some mut =>
           if Js.truthy mut && negb (String.eqb mut "nonpayable") then " " ++ mut else ""
       | None => ""
       end
    ++ match outputs item with
       | Some (output :: outputs) =>
           " returns (" ++ formatAbiParameters (output :: outputs) ++ ")"
       | _ => ""
       end
  else if String.eqb (type item) "event" then
    "event " ++ show (name item) ++ "(" ++ inputs ++ ")"
  else if String.eqb (type item) "error" then
    "error " ++ show (name item) ++ "(" ++ inputs ++ ")"
  else if String.eqb (type item) "constructor" then
    "constructor(" ++ inputs ++ ")" ++ payableSuffix item
  else if String.eqb (type item) "fallback" then
    "fallback() external" ++ payableSuffix item
  else "receive() external payable".

(** The parameter without its name. *)
Definition unnamed (param : AbiParam) : AbiParam :=
  match param with
  | mkParam _ internalType type indexed components =>
      mkParam None internalType type indexed components
  end.

End Abitype.

(** The signatures a module contributes, when its content can be read. *)
Definition signaturesOfModule `{AbiParser} (module : GeneratedModule)
  : option (list string) :=
  option_map signaturesOf (parseAbiFromModuleContent (moduleContent module)).

(** Two modules with the same path whose interfaces differ in the names of
    parameters only. *)
Definition renamedParams `{AbiParser} (m1 m2 : GeneratedModule) : Prop :=
  moduleRelPath m1 = moduleRelPath m2
  /\ match parseAbiFromModuleContent (moduleContent m1),
           parseAbiFromModuleContent (moduleContent m2) with
     | Some abi1, Some abi2 =>
         List.map eraseParamNames abi1 = List.map eraseParamNames abi2
     | None, None => True
     | _, _ => False
     end.

(** *** Diffing *)

Module Items.
Record t : Type := { added : list string; removed : list string }.
End Items.

Record ManifestDiff : Type := {
  added : list string;
  removed : list string;
  changed : gmap string Items.t
}.

(** [manifest[key]], read where the key is present. *)
Definition get (manifest : AbiManifest) (key : string) : list string :=
  match manifest !! key with Some sigs => sigs | None => [] end.

(** [[...xs].filter((x) => !ys.has(x)).sort()] *)
Definition difference (xs ys : list string) : list string :=
  Js.sort (List.filter (fun x => negb (Js.has ys x)) xs).

(** One round of the loop over the keys of the current manifest. *)
Definition diffKey (previous current : AbiManifest) (prevKeys : list string)
           (changed : gmap string Items.t) (key : string) : gmap string Items.t :=
  if negb (Js.has prevKeys key) then changed
  else
    let prevSigs := Js.uniq (get previous key) in
    let currSigs := Js.uniq (get current key) in
    let itemsAdded := difference currSigs prevSigs in
    let itemsRemoved := difference prevSigs currSigs in
    if (0 <? List.length itemsAdded)%nat || (0 <? List.length itemsRemoved)%nat
    then <[key := {| Items.added := itemsAdded; Items.removed := itemsRemoved |}]> changed
    else changed.

(** What the loop records for one key. *)
Definition entryFor (previous current : AbiManifest) (key : string) : option Items.t :=
  match previous !! key with
  | None => None
  | Some _ =>
      let prevSigs := Js.uniq (get previous key) in
      let currSigs := Js.uniq (get current key) in
      if (0 <? List.length (difference currSigs prevSigs))%nat
         || (0 <? List.length (difference prevSigs currSigs))%nat
      then Some {| Items.added := difference currSigs prevSigs;
                   Items.removed := difference prevSigs currSigs |}
      else None
  end.

(** [l] is the sorted list of the elements of [xs] that are not in [ys]. *)
Definition sortedDifference (l xs ys : list string) : Prop :=
  Sorted (fun a b => Js.codeUnitLe a b = true) l
  /\ List.NoDup l
  /\ forall s, In s l <-> In s xs /\ ~ In s ys.

Definition diffManifests (previous current : AbiManifest) : ManifestDiff :=
  let prevKeys := Object_keys previous in
  let currKeys := Object_keys current in
  {| added := difference currKeys prevKeys;
     removed := difference prevKeys currKeys;
     changed := fold_left (diffKey previous current prevKeys) currKeys ∅ |}.

Definition isEmptyDiff (diff : ManifestDiff) : bool :=
  Nat.eqb (List.length (added diff)) 0
  && Nat.eqb (List.length (removed diff)) 0
  && Nat.eqb (size (changed diff)) 0.

(** *** Base version resolution *)

(** [gte(a, b)] of the package [semver]: [None] when it throws, as it does
    for a string that is not a version. *)
Class Semver := { semverGte : string -> string -> option bool }.

Definition isVersion `{Semver} (v : string) : Prop := is_Some (semverGte v v).

(** Precedence is defined and total on versions, and the empty string is
    not a version. *)
Class SemverLaws `{Semver} := {
  semverGte_defined :
    forall a b, isVersion a -> isVersion b -> is_Some (semverGte a b);
  semverGte_total :
    forall a b, semverGte a b = Some false -> semverGte b a = Some true;
  semverGte_empty : semverGte "" "" = None
}.

(** The line written by [console.log]. *)
Inductive logLine : Type :=
| UsingLatest (latestVersion tag tagVersion : string).

Record Resolved : Type := {
  logged : list logLine;
  returned : result (option string)
}.

(** [a ?? b ?? null] *)
Definition nullish (a b : option string) : option string :=
  match a with Some _ => a | None => b end.

(** The lookups are promises; they are modelled as resolved, as those of
    [fetchVersionFromNpm] always are. *)
Definition resolveBaseVersion `{Semver} (packageName tag : string)
           (versionLookup : string -> string -> option string) : Resolved :=
  if String.eqb tag "latest" then
    {| logged := []; returned := Ok (versionLookup packageName "latest") |}
  else
    let tagVersion := versionLookup packageName tag in
    let latestVersion := versionLookup packageName "latest" in
    let fallback := {| logged := []; returned := Ok (nullish tagVersion latestVersion) |} in
    match tagVersion, latestVersion with
    | Some t, Some l =>
        if Js.truthy t && Js.truthy l then
          match semverGte l t with
          | None => {| logged := []; returned := Throw "TypeError: Invalid Version" |}
          | Some newer =>
              let winner := if newer then l else t in
              {| logged := if String.eqb winner t then [] else [UsingLatest l tag t];
                 returned := Ok (Some winner) |}
          end
        else fallback
    | _, _ => fallback
    end.

End Changelog.

(** ** Reference instances of the host functions *)

(** The witnesses and counterexamples below run the definitions on concrete
    inputs; they use these instances. The theorems hold for every host. *)

Module Reference.

(** The collation that orders strings by their code units. *)
Definition codeUnitCompare (a b : string) : Z :=
  match String.compare a b with
  | Lt => -1
  | Eq => 0
  | Gt => 1
  end.

#[export] Instance codeUnitCollator : Collator := {| localeCompare := codeUnitCompare |}.

(** [path.posix.join] after the implementation of Node: the non-empty
    arguments joined by [/], then normalised. *)
Fixpoint splitSlash (s cur : string) : list string :=
  match s with
  | EmptyString => [cur]
  | String c s' =>
      if Ascii.eqb c "/" then cur :: splitSlash s' EmptyString
      else splitSlash s' (cur ++ String c EmptyString)
  end.

Definition pushSegment (allowAboveRoot : bool) (res : list string) (seg : string)
  : list string :=
  if String.eqb seg "" || String.eqb seg "." then res
  else if String.eqb seg ".." then
    match List.rev res with
    | last :: before =>
        if String.eqb last ".."
        then (if allowAboveRoot then res ++ [".."] else res)
        else List.rev before
    | [] => if allowAboveRoot then [".."] else []
    end
  else res ++ [seg].

Definition endsWithSlash (s : string) : bool :=
  match List.rev (list_ascii_of_string s) with
  | c :: _ => Ascii.eqb c "/"
  | [] => false
  end.

Definition normalize (path : string) : string :=
  match path with
  | EmptyString => "."
  | String c _ =>
      let isAbsolute := Ascii.eqb c "/" in
      let trailingSeparator := endsWithSlash path in
      let segments :=
        fold_left (pushSegment (negb isAbsolute)) (splitSlash path EmptyString) [] in
      let inner := Js.join "/" segments in
      match inner with
      | EmptyString =>
          if isAbsolute then "/" else if trailingSeparator then "./" else "."
      | _ =>
          (if isAbsolute then "/" else "") ++ inner
          ++ (if trailingSeparator then "/" else "")
      end
  end.

Definition join2 (a b : string) : string :=
  match List.filter Js.truthy [a; b] with
  | [] => "."
  | parts => normalize (Js.join "/" parts)
  end.

#[export] Instance nodePath : PathLib := {| path_posix_join := join2 |}.

(** The artifacts of the test suite of [lib/modules.ts]. *)
Definition artifact (sourceId contractName relDir : string) (abi : list json)
  : Artifact.DiscoveredArtifact :=
  {| Artifact.sourceId := sourceId;
     Artifact.filePath := "/repo/out/Token.sol/Token.json";
     Artifact.contractName := contractName;
     Artifact.relDir := relDir;
     Artifact.abi := abi |}.

Definition nameAbi : list json :=
  [JObj [("type", JStr "function"); ("name", JStr "name"); ("inputs", JArr []);
         ("outputs", JArr []); ("stateMutability", JStr "view")]].

Definition symbolAbi : list json :=
  [JObj [("type", JStr "function"); ("name", JStr "symbol"); ("inputs", JArr []);
         ("outputs", JArr []); ("stateMutability", JStr "view")]].

(** *** A reader of JSON texts *)

(** The texts of the interface artifacts: objects, arrays, strings, integers
    and the three literals. A text outside this fragment, or whose value is
    not a list of interface items, is not read. *)

Definition isWs (c : ascii) : bool :=
  let n := Js.code c in ((n =? 32) || (n =? 9) || (n =? 10) || (n =? 13))%N.

Fixpoint skipWs (s : string) : string :=
  match s with
  | String c s' => if isWs c then skipWs s' else s
  | EmptyString => EmptyString
  end.

Definition hexValue (c : ascii) : option N :=
  let n := Js.code c in
  if Js.isDigit c then Some (n - 48)%N
  else if ((97 <=? n) && (n <=? 102))%N then Some (n - 87)%N
  else if ((65 <=? n) && (n <=? 70))%N then Some (n - 55)%N
  else None.

Definition unescape (c : ascii) : option ascii :=
  if Ascii.eqb c Json.dquote then Some Json.dquote
  else if Ascii.eqb c Json.backslash then Some Json.backslash
  else if Ascii.eqb c "/" then Some "/"%char
  else if Ascii.eqb c "b" then Some (ascii_of_N 8)
  else if Ascii.eqb c "f" then Some (ascii_of_N 12)
  else if Ascii.eqb c "n" then Some (ascii_of_N 10)
  else if Ascii.eqb c "r" then Some (ascii_of_N 13)
  else if Ascii.eqb c "t" then Some (ascii_of_N 9)
  else None.

(** The characters of a string up to its closing quote, and the rest. *)
Fixpoint readString (s : string) : option (string * string) :=
  match s with
  | EmptyString => None
  | String c s' =>
      if Ascii.eqb c Json.dquote then Some (EmptyString, s')
      else if Ascii.eqb c Json.backslash then
        match s' with
        | String "u" (String h1 (String h2 (String h3 (String h4 s'')))) =>
            match hexValue h1, hexValue h2, hexValue h3, hexValue h4, readString s'' with
            | Some 0%N, Some 0%N, Some a, Some b, Some (str, rest) =>
                Some (String (ascii_of_N (16 * a + b)) str, rest)
            | _, _, _, _, _ => None
            end
        | String e s'' =>
            match unescape e, readString s'' with
            | Some c', Some (str, rest) => Some (String c' str, rest)
            | _, _ => None
            end
        | EmptyString => None
        end
      else if (Js.code c <? 32)%N then None
      else
        match readString s' with
        | Some (str, rest) => Some (String c str, rest)
        | None => None
        end
  end.

Fixpoint readDigits (s : string) (acc : N) : N * string :=
  match s with
  | String c s' =>
      if Js.isDigit c then readDigits s' (10 * acc + (Js.code c - 48))%N
      else (acc, s)
  | EmptyString => (acc, s)
  end.

(** A natural number without a leading zero, neither fraction nor
    exponent. *)
Definition readNat (s : string) : option (N * string) :=
  match s with
  | String c s' =>
      if Js.isDigit c then
        let '(n, rest) :=
          if Ascii.eqb c "0" then (0%N, s') else readDigits s 0%N in
        match rest with
        | String d _ =>
            if Js.isDigit d || Ascii.eqb d "." || Ascii.eqb d "e" || Ascii.eqb d "E"
            then None else Some (n, rest)
        | EmptyString => Some (n, rest)
        end
      else None
  | EmptyString => None
  end.

Definition readLiteral (word : string) (v : json) (s : string) : option (json * string) :=
  if Js.startsWith s word then Some (v, Js.drop (String.length word) s) else None.

(** A later member replaces the value of an earlier one with the same key,
    in its place. *)
Fixpoint setMember (k : string) (v : json) (members : list (string * json))
  : list (string * json) :=
  match members with
  | [] => [(k, v)]
  | (k', v') :: members' =>
      if String.eqb k k' then (k, v) :: members'
      else (k', v') :: setMember k v members'
  end.

Definition objectOf (members : list (string * json)) : json :=
  JObj (fold_left (fun ms kv => setMember (fst kv) (snd kv) ms) members []).

Fixpoint readValue (fuel : nat) (s : string) : option (json * string) :=
  match fuel with
  | O => None
  | S fuel' =>
      match skipWs s with
      | EmptyString => None
      | String c rest as s0 =>
          if Ascii.eqb c "[" then
            match skipWs rest with
            | String "]" rest' => Some (JArr [], rest')
            | _ =>
                match readElements fuel' rest with
                | Some (items, rest') => Some (JArr items, rest')
                | None => None
                end
            end
          else if Ascii.eqb c "{" then
            match skipWs rest with
            | String "}" rest' => Some (JObj [], rest')
            | _ =>
                match readMembers fuel' rest with
                | Some (members, rest') => Some (objectOf members, rest')
                | None => None
                end
            end
          else if Ascii.eqb c Json.dquote then
            match readString rest with
            | Some (str, rest') => Some (JStr str, rest')
            | None => None
            end
          else if Ascii.eqb c "-" then
            match readNat rest with
            | Some (n, rest') => Some (JNum (- Z.of_N n), rest')
            | None => None
            end
          else if Js.isDigit c then
            match readNat s0 with
            | Some (n, rest') => Some (JNum (Z.of_N n), rest')
            | None => None
            end
          else if Ascii.eqb c "t" then readLiteral "true" (JBool true) s0
          else if Ascii.eqb c "f" then readLiteral "false" (JBool false) s0
          else if Ascii.eqb c "n" then readLiteral "null" JNull s0
          else None
      end
  end
with readElements (fuel : nat) (s : string) : option (list json * string) :=
  match fuel with
  | O => None
  | S fuel' =>
      match readValue fuel' s with
      | Some (v, rest) =>
          match skipWs rest with
          | String c rest' =>
              if Ascii.eqb c "," then
                match readElements fuel' rest' with
                | Some (vs, rest'') => Some (v :: vs, rest'')
                | None => None
                end
              else if Ascii.eqb c "]" then Some ([v], rest')
              else None
          | EmptyString => None
          end
      | None => None
      end
  end
with readMembers (fuel : nat) (s : string) : option (list (string * json) * string) :=
  match fuel with
  | O => None
  | S fuel' =>
      match skipWs s with
      | String q rest =>
          if Ascii.eqb q Json.dquote then
            match readString rest with
            | Some (k, rest1) =>
                match skipWs rest1 with
                | String ":" rest2 =>
                    match readValue fuel' rest2 with
                    | Some (v, rest3) =>
                        match skipWs rest3 with
                        | String c rest4 =>
                            if Ascii.eqb c "," then
                              match readMembers fuel' rest4 with
                              | Some (ms, rest5) => Some ((k, v) :: ms, rest5)
                              | None => None
                              end
                            else if Ascii.eqb c "}" then Some ([(k, v)], rest4)
                            else None
                        | EmptyString => None
                        end
                    | None => None
                    end
                | _ => None
                end
            | None => None
            end
          else None
      | EmptyString => None
      end
  end.

Definition readJson (text : string) : option json :=
  match readValue (2 * String.length text + 2) text with
  | Some (v, rest) =>
      match skipWs rest with
      | EmptyString => Some v
      | _ => None
      end
  | None => None
  end.

(** The value as a list of interface items. *)
Definition member (members : list (string * json)) (k : string) : option json :=
  Modules.Map_get members k.

Definition optString (j : option json) : option (option string) :=
  match j with
  | None => Some None
  | Some (JStr s) => Some (Some s)
  | Some _ => None
  end.

Definition optBool (j : option json) : option (option bool) :=
  match j with
  | None => Some None
  | Some (JBool b) => Some (Some b)
  | Some _ => None
  end.

Fixpoint allSome {A : Type} (l : list (option A)) : option (list A) :=
  match l with
  | [] => Some []
  | Some x :: l' => option_map (cons x) (allSome l')
  | None :: _ => None
  end.

Fixpoint asParam (fuel : nat) (j : json) : option Changelog.AbiParam :=
  match fuel, j with
  | S fuel', JObj members =>
      match optString (member members "name"),
            optString (member members "internalType"),
            member members "type",
            optBool (member members "indexed") with
      | Some name, Some internalType, Some (JStr type), Some indexed =>
          match member members "components" with
          | None => Some (Changelog.mkParam name internalType type indexed None)
          | Some (JArr cs) =>
              option_map
                (fun cs' => Changelog.mkParam name internalType type indexed (Some cs'))
                (allSome (List.map (asParam fuel') cs))
          | Some _ => None
          end
      | _, _, _, _ => None
      end
  | _, _ => None
  end.

Fixpoint depth (j : json) : nat :=
  match j with
  | JArr items => S (fold_right (fun x n => Nat.max (depth x) n) O items)
  | JObj members => S (fold_right (fun kv n => Nat.max (depth (snd kv)) n) O members)
  | _ => 1%nat
  end.

Definition asParams (j : option json) : option (option (list Changelog.AbiParam)) :=
  match j with
  | None => Some None
  | Some (JArr ps) =>
      option_map Some (allSome (List.map (fun p => asParam (depth p) p) ps))
  | Some _ => None
  end.

Definition asItem (j : json) : option Changelog.AbiItem :=
  match j with
  | JObj members =>
      match member members "type", optString (member members "name"),
            asParams (member members "inputs"), asParams (member members "outputs"),
            optString (member members "stateMutability") with
      | Some (JStr type), Some name, Some inputs, Some outputs, Some stateMutability =>
          Some {| Changelog.type := type;
                  Changelog.name := name;
                  Changelog.inputs := inputs;
                  Changelog.outputs := outputs;
                  Changelog.stateMutability := stateMutability |}
      | _, _, _, _, _ => None
      end
  | _ => None
  end.

Definition readAbi (text : string) : option (list Changelog.AbiItem) :=
  match readJson text with
  | Some (JArr items) => allSome (List.map asItem items)
  | _ => None
  end.

#[export] Instance abiReader : Changelog.AbiParser := {| Changelog.JSON_parse := readAbi |}.

(** *** Precedence of semantic versions *)

Inductive identifier : Type :=
| Numeric (n : N)
| Alphanumeric (s : string).

Record version : Type := {
  major : N;
  minor : N;
  patch : N;
  prerelease : list identifier
}.

Fixpoint splitAt (sep : ascii) (s cur : string) : list string :=
  match s with
  | EmptyString => [cur]
  | String c s' =>
      if Ascii.eqb c sep then cur :: splitAt sep s' EmptyString
      else splitAt sep s' (cur ++ String c EmptyString)
  end.

Fixpoint allChars (p : ascii -> bool) (s : string) : bool :=
  match s with
  | EmptyString => true
  | String c s' => p c && allChars p s'
  end.

(** A number without a leading zero. *)
Definition asNumber (s : string) : option N :=
  match s with
  | EmptyString => None
  | String c s' =>
      if allChars Js.isDigit s
         && (negb (Ascii.eqb c "0") || String.eqb s' EmptyString)
      then Some (fst (readDigits s 0%N))
      else None
  end.

Definition asIdentifier (s : string) : option identifier :=
  match s with
  | EmptyString => None
  | _ =>
      if allChars Js.isDigit s then option_map Numeric (asNumber s)
      else if allChars (fun c => Js.isAlnum c || Ascii.eqb c "-") s
           then Some (Alphanumeric s)
           else None
  end.

(** [MAJOR.MINOR.PATCH], then [-] and the identifiers of a pre-release,
    then [+] and build metadata, which takes no part in the precedence. *)
Definition parseVersion (s : string) : option version :=
  match splitAt "+" s EmptyString with
  | [] => None
  | core :: _ =>
      let i := Js.indexOf core "-" in
      let main := if i <? 0 then core else Js.slice core 0 i in
      let pre :=
        if i <? 0 then Some []
        else allSome (List.map asIdentifier
                        (splitAt "." (Js.sliceFrom core (i + 1)) EmptyString)) in
      match List.map asNumber (splitAt "." main EmptyString), pre with
      | [Some major; Some minor; Some patch], Some prerelease =>
          Some {| major := major; minor := minor; patch := patch;
                  prerelease := prerelease |}
      | _, _ => None
      end
  end.

Definition compareIdentifier (a b : identifier) : comparison :=
  match a, b with
  | Numeric x, Numeric y => N.compare x y
  | Numeric _, Alphanumeric _ => Lt
  | Alphanumeric _, Numeric _ => Gt
  | Alphanumeric s, Alphanumeric t => String.compare s t
  end.

Fixpoint compareIdentifiers (a b : list identifier) : comparison :=
  match a, b with
  | [], [] => Eq
  | [], _ :: _ => Lt
  | _ :: _, [] => Gt
  | x :: a', y :: b' =>
      match compareIdentifier x y with
      | Eq => compareIdentifiers a' b'
      | c => c
      end
  end.

(** A version without a pre-release comes after its pre-releases. *)
Definition comparePrerelease (a b : list identifier) : comparison :=
  match a, b with
  | [], [] => Eq
  | [], _ :: _ => Gt
  | _ :: _, [] => Lt
  | _, _ => compareIdentifiers a b
  end.

Definition thenCompare (c d : comparison) : comparison :=
  match c with Eq => d | _ => c end.

Definition compareVersion (a b : version) : comparison :=
  thenCompare (N.compare (major a) (major b))
    (thenCompare (N.compare (minor a) (minor b))
       (thenCompare (N.compare (patch a) (patch b))
          (comparePrerelease (prerelease a) (prerelease b)))).

Definition gte (a b : string) : option bool :=
  match parseVersion a, parseVersion b with
  | Some va, Some vb =>
      Some (match compareVersion va vb with Lt => false | _ => true end)
  | _, _ => None
  end.

#[export] Instance semver : Changelog.Semver := {| Changelog.semverGte := gte |}.

(** *** Inputs of the examples *)

Definition withContent (module : GeneratedModule) (content : string) : GeneratedModule :=
  {| sourceId := sourceId module;
     contractName := contractName module;
     exportName := exportName module;
     moduleRelPath := moduleRelPath module;
     moduleContent := content;
     dedupeKey := dedupeKey module |}.

Definition param (name type : string) : json :=
  JObj [("name", JStr name); ("type", JStr type)].

Definition balanceOfAbi (parameter : string) : list json :=
  [JObj [("type", JStr "function"); ("name", JStr "balanceOf");
         ("inputs", JArr [param parameter "address"]);
         ("outputs", JArr [param "" "uint256"]);
         ("stateMutability", JStr "view")]].

(** The item of [balanceOfAbi] as [JSON.parse] returns it. *)
Definition balanceOfItem (parameter : string) : Changelog.AbiItem :=
  {| Changelog.type := "function";
     Changelog.name := Some "balanceOf";
     Changelog.inputs := Some [Changelog.named parameter "address"];
     Changelog.outputs := Some [Changelog.named "" "uint256"];
     Changelog.stateMutability := Some "view" |}.

Definition receiveAbi : list json := [JObj [("type", JStr "receive")]].

(** One item with its two keys in either order. *)
Definition payableReceive : list json :=
  [JObj [("type", JStr "receive"); ("stateMutability", JStr "payable")]].

Definition payableReceiveSwapped : list json :=
  [JObj [("stateMutability", JStr "payable"); ("type", JStr "receive")]].

(** [makeModule] of the tests of [lib/changelog.ts]; the contract name is
    the last segment of the path without its [.ts]. *)
Definition makeModule (relPath contractName : string) (abi : list json) : GeneratedModule :=
  {| sourceId := "test";
     contractName := contractName;
     exportName := "testAbi";
     moduleRelPath := relPath;
     moduleContent :=
       "export const testAbi = " ++ Json.stringify2 (JArr abi) ++ " as const;" ++ Json.nl;
     dedupeKey := "test:" ++ relPath |}.

Definition token (abi : list json) : GeneratedModule :=
  Modules.artifactToModule (artifact "contracts" "Token" "." abi) (Some "contracts").

(** The manifests of a scenario of the specification. *)
Definition previousX : gmap string (list string) :=
  {[ "x" := ["function f() view"; "function g() view"] ]}.

Definition currentX : gmap string (list string) :=
  {[ "x" := ["function f() view"; "function h() nonpayable"] ]}.

(** A registry with a stale [beta] tag. *)
Definition staleBeta (packageName tag : string) : option string :=
  if String.eqb tag "beta" then Some "0.1.0-beta.2"
  else if String.eqb tag "latest" then Some "0.1.0"
  else None.

End Reference.


(** ** Collations on the keys of a run *)

(** The collation orders the strings of a list: among them it is
    transitive, and it gives [0] to no two different ones. The collation of
    the host ignores some characters, so that it orders some lists and not
    others. *)
Definition ordersKeys `{Collator} (keys : list string) : Prop :=
  (forall a b c, In a keys -> In b keys -> In c keys ->
                 localeCompare a b <= 0 -> localeCompare b c <= 0 ->
                 localeCompare a c <= 0)
  /\ (forall a b, In a keys -> In b keys -> localeCompare a b = 0 -> a = b).

(** ** Vocabulary for strings *)

Module Text.

(** [s] matches [/^[p]*$/]: all its characters are in the class [p]. *)
Fixpoint every (p : ascii -> bool) (s : string) : bool :=
  match s with
  | EmptyString => true
  | String c s' => p c && every p s'
  end.

(** The characters of [s] that are in the class [p], in order. *)
Fixpoint keep (p : ascii -> bool) (s : string) : string :=
  match s with
  | EmptyString => EmptyString
  | String c s' => if p c then String c (keep p s') else keep p s'
  end.

(** Every character but [c]. *)
Definition isNot (c d : ascii) : bool := negb (Ascii.eqb c d).

Definition isLowerOrDigit (c : ascii) : bool := Js.isLower c || Js.isDigit c.
Definition noUpper (c : ascii) : bool := negb (Js.isUpper c).
Definition isKebabChar (c : ascii) : bool := isLowerOrDigit c || Ascii.eqb c "-".

(** [WhiteSpace] and [LineTerminator] of ECMAScript, as far as a code unit
    of eight bits holds them: tab, line feed, vertical tab, form feed,
    carriage return, space and the no-break space. *)
Definition isWhiteSpace (c : ascii) : bool :=
  existsb (N.eqb (Js.code c)) [9; 10; 11; 12; 13; 32; 160]%N.

(** [String.prototype.trimStart], [trimEnd] and [trim]. *)
Fixpoint trimStart (s : string) : string :=
  match s with
  | EmptyString => EmptyString
  | String c s' => if isWhiteSpace c then trimStart s' else s
  end.

Fixpoint trimEnd (s : string) : string :=
  match s with
  | EmptyString => EmptyString
  | String c s' =>
      match trimEnd s' with
      | EmptyString => if isWhiteSpace c then EmptyString else String c EmptyString
      | t => String c t
      end
  end.

Definition trim (s : string) : string := trimEnd (trimStart s).

End Text.

(** ** [lib/discovery.ts]: patterns without wildcards, [extractArtifact] *)

(** [path.basename(p, ext)] *)
Class PathBase := { path_basename : string -> string -> string }.

Module Extract.

(** A pattern character that stands for itself. *)
Definition notWildcard (c : ascii) : bool :=
  negb (Ascii.eqb c "*" || Ascii.eqb c "?").

(** [ArtifactLike]: both fields are optional and of type [unknown]. *)
Record ArtifactLike : Type := {
  abi : option json;
  contractName : option json
}.

Definition extractArtifact `{PathBase} (artifactPath sourceId relDir : string)
           (artifact : ArtifactLike) : option Artifact.DiscoveredArtifact :=
  match abi artifact with
  | Some (JArr items) =>
      if Nat.eqb (List.length items) 0 then None
      else
        let fallbackName := path_basename artifactPath ".json" in
        let rawName :=
          match contractName artifact with
          | Some (JStr name) => name
          | _ => fallbackName
          end in
        let contractName := Text.trim rawName in
        if negb (Js.truthy contractName) then None
        else Some {| Artifact.sourceId := sourceId;
                     Artifact.filePath := artifactPath;
                     Artifact.contractName := contractName;
                     Artifact.relDir := relDir;
                     Artifact.abi := items |}
  | _ => None
  end.

End Extract.

(** ** [lib/modules.ts]: the invariant of the map of [dedupeAndValidateModules] *)

Module Dedupe.

(** Every entry of the map sits under the key of its module, and no key
    occurs twice. *)
Definition keyed (byKey : list (string * GeneratedModule)) : Prop :=
  List.NoDup (List.map fst byKey)
  /\ Forall (fun kv => fst kv = dedupeKey (snd kv)) byKey.

End Dedupe.

(** ** [lib/changelog.ts]: a diff read the other way round *)

Module Diff.

(** The signatures that one direction adds are those that the other
    removes. *)
Definition swapItems (d : Changelog.Items.t) : Changelog.Items.t :=
  {| Changelog.Items.added := Changelog.Items.removed d;
     Changelog.Items.removed := Changelog.Items.added d |}.

End Diff.

(** ** [lib/changelog.ts]: the manifest with its keys in order *)

(** [Changelog.buildManifest] gives the manifest as a map. What
    [Object.keys] and [JSON.stringify] read of the object that
    [Object.fromEntries] returns is the list of its entries in the order of
    its own keys. *)
Module Ordered.
Import Changelog.

Fixpoint digitsValue (value : N) (s : string) : option N :=
  match s with
  | EmptyString => Some value
  | String c rest =>
      if Js.isDigit c then digitsValue (10 * value + (Js.code c - 48))%N rest else None
  end.

(** An array index: the decimal form, without a leading zero, of an
    integer below [2^32 - 1]. *)
Definition arrayIndex (key : string) : option N :=
  match key with
  | EmptyString => None
  | String c rest =>
      if Ascii.eqb c "0" && negb (String.eqb rest "") then None
      else match digitsValue 0 key with
           | Some n => if (n <? 4294967295)%N then Some n else None
           | None => None
           end
  end.

(** The own keys of an object whose keys were created in the order
    [created]: the array indices in ascending order, then the other keys in
    the order of their creation. *)
Definition ownKeys (created : list string) : list string :=
  List.map snd
    (Js.sortBy (fun a b => (fst a <=? fst b)%N)
       (List.flat_map
          (fun key => match arrayIndex key with Some n => [(n, key)] | None => [] end)
          created))
  ++ List.filter (fun key => match arrayIndex key with Some _ => false | None => true end)
       created.

(** [Object.entries(Object.fromEntries(entries))]: a key is created by its
    first entry and holds the value of its last one. *)
Definition Object_entries (entries : list (string * list string))
  : list (string * list string) :=
  List.map (fun key => (key, match lastOf key entries with Some sigs => sigs | None => [] end))
           (ownKeys (Js.uniq (List.map fst entries))).

Section BuildManifest.
Context `{Collator} `{AbiParser}.

Definition manifestEntriesWith (signatures : list AbiItem -> list string)
           (modules : list GeneratedModule) : list (string * list string) :=
  Object_entries (Js.sortWith compareEntries (entriesWith signatures modules)).

(** The entries of [buildManifest(modules)], for either revision. *)
Definition manifestEntries (modules : list GeneratedModule) : list (string * list string) :=
  manifestEntriesWith signaturesOf modules.

Definition manifestEntriesAbitype (formatAbiItem : AbiItem -> string)
           (modules : list GeneratedModule) : list (string * list string) :=
  manifestEntriesWith (fun abi => Js.sort (List.map formatAbiItem abi)) modules.

End BuildManifest.

(** The manifest as [JSON.stringify] reads it. *)
Definition toJson (entries : list (string * list string)) : json :=
  JObj (List.map (fun entry => (fst entry, JArr (List.map JStr (snd entry)))) entries).

End Ordered.

(** ** [lib/utils.ts]: the order behind [stableStringify] *)

Module Stable.

(** The size of a value. *)
Fixpoint jsize (v : json) : nat :=
  match v with
  | JArr items => S (list_sum (List.map jsize items))
  | JObj members => S (list_sum (List.map (fun kv => jsize (snd kv)) members))
  | _ => 1
  end.

(** No string occurs twice. *)
Fixpoint distinct (l : list string) : bool :=
  match l with
  | [] => true
  | x :: l' => negb (Js.has l' x) && distinct l'
  end.

(** The values that [JSON.parse] returns: no object has a key twice. *)
Fixpoint uniqueKeys (v : json) : bool :=
  match v with
  | JArr items => forallb uniqueKeys items
  | JObj members =>
      distinct (List.map fst members)
      && forallb (fun kv => uniqueKeys (snd kv)) members
  | _ => true
  end.

(** The collation orders the keys of every object of a value, those of
    each object among themselves. *)
Fixpoint keysOrdered `{Collator} (v : json) : Prop :=
  match v with
  | JArr items => fold_right (fun item rest => keysOrdered item /\ rest) True items
  | JObj members =>
      ordersKeys (List.map fst members)
      /\ fold_right (fun kv rest => keysOrdered (snd kv) /\ rest) True members
  | _ => True
  end.

(** The comparator of [stableStringify] on the entries of an object. *)
Definition entryLe `{Collator} (a b : string * string) : bool :=
  localeCompare (fst a) (fst b) <=? 0.

End Stable.

(** ** [lib/git.ts] *)

Module Git.

(** The class [[a-zA-Z0-9_.-]]. *)
Definition isRepoChar (c : ascii) : bool :=
  Js.isAlnum c || Ascii.eqb c "_" || Ascii.eqb c "." || Ascii.eqb c "-".

(** The longest prefix of [s] within the class [p], and what follows it:
    how a greedy [[p]*] reads where the next character of the expression is
    outside [p]. *)
Fixpoint span (p : ascii -> bool) (s : string) : string * string :=
  match s with
  | EmptyString => (EmptyString, EmptyString)
  | String c s' =>
      if p c then let (run, rest) := span p s' in (String c run, rest)
      else (EmptyString, s)
  end.

(** [/^[a-zA-Z0-9_.-]+\/[a-zA-Z0-9_.-]+$/.test(repo)] *)
Definition isShorthand (repo : string) : bool :=
  let (org, rest) := span isRepoChar repo in
  Js.truthy org
  && match rest with
     | String c rest' =>
         Ascii.eqb c "/"
         && (let (name, tail) := span isRepoChar rest' in
             Js.truthy name && String.eqb tail "")
     | EmptyString => false
     end.

(** A variable of [process.env] in a condition: unset and empty are
    falsy. *)
Definition envTruthy (v : option string) : bool :=
  match v with Some s => Js.truthy s | None => false end.

Definition resolveRepoUrl (env_CI : option string) (repo : string) : result string :=
  if Js.startsWith repo "https://" || Js.startsWith repo "git@" then Ok repo
  else if isShorthand repo then
    Ok (if envTruthy env_CI then "https://github.com/" ++ repo ++ ".git"
        else "git@github.com:" ++ repo ++ ".git")
  else Throw ("Invalid repo format: " ++ String Json.dquote repo ++ String Json.dquote ""
              ++ ". Use " ++ String Json.dquote "org/repo" ++ String Json.dquote ""
              ++ " or a full git URL.").

(** [GetSubstitution] for a pattern that is a string: [$$] is a dollar,
    [$&] the match, [$`] what precedes the match, [$'] what follows it;
    there are no groups, so every other dollar stands for itself. *)
Fixpoint getSubstitution (matched before after template : string) : string :=
  match template with
  | EmptyString => EmptyString
  | String c rest =>
      if Ascii.eqb c "$" then
        match rest with
        | String d rest' =>
            if Ascii.eqb d "$" then String "$" (getSubstitution matched before after rest')
            else if Ascii.eqb d "&" then matched ++ getSubstitution matched before after rest'
            else if Ascii.eqb d "`" then before ++ getSubstitution matched before after rest'
            else if Ascii.eqb d "'" then after ++ getSubstitution matched before after rest'
            else String c (getSubstitution matched before after rest)
        | EmptyString => String c EmptyString
        end
      else String c (getSubstitution matched before after rest)
  end.

(** [s.replace(pattern, replacement)] for a pattern that is a string: the
    first occurrence is replaced. *)
Definition replaceFirst (s pattern replacement : string) : string :=
  let i := Js.indexOf s pattern in
  if i <? 0 then s
  else
    let before := Js.take (Z.to_nat i) s in
    let after := Js.drop (Z.to_nat i + String.length pattern) s in
    before ++ getSubstitution pattern before after replacement ++ after.

(** [process.env.GITHUB_TOKEN ?? process.env.GH_TOKEN] *)
Definition authToken (env_GITHUB_TOKEN env_GH_TOKEN : option string) : option string :=
  match env_GITHUB_TOKEN with Some t => Some t | None => env_GH_TOKEN end.

Definition injectAuthToken (env_GITHUB_TOKEN env_GH_TOKEN : option string)
           (url : string) : string :=
  match authToken env_GITHUB_TOKEN env_GH_TOKEN with
  | None => url
  | Some token =>
      if negb (Js.truthy token) then url
      else if negb (Js.startsWith url "https://github.com/") then url
      else replaceFirst url "https://github.com/"
             ("https://x-access-token:" ++ token ++ "@github.com/")
  end.

(** A match of [/https:\/\/[^@]+@github\.com\//] at the start of [s]: what
    follows the match. The run of [[^@]+] ends at the first [@], which the
    rest of the expression has to read. *)
Definition matchCredentials (s : string) : option string :=
  if Js.startsWith s "https://" then
    let (run, rest) := span (Text.isNot "@") (Js.drop 8 s) in
    if Js.truthy run && Js.startsWith rest "@github.com/"
    then Some (Js.drop 12 rest)
    else None
  else None.

(** [url.replace(/https:\/\/[^@]+@github\.com\//, "https://github.com/")]:
    the leftmost match is replaced. *)
Fixpoint stripToken (url : string) : string :=
  match matchCredentials url with
  | Some after => "https://github.com/" ++ after
  | None =>
      match url with
      | EmptyString => EmptyString
      | String c url' => String c (stripToken url')
      end
  end.

(** A token that the URL and the replacement leave as it is: not empty,
    without [@] and without [$]. *)
Definition validToken (token : string) : Prop :=
  token <> ""
  /\ Text.every (Text.isNot "@") token = true
  /\ Text.every (Text.isNot "$") token = true.

(** The characters of a shorthand [org/repo]. *)
Definition isShorthandChar (c : ascii) : bool := isRepoChar c || Ascii.eqb c "/".

End Git.

(** ** [lib/changelog.ts]: [renderChangelog] *)

Module Render.
Import Changelog.

Definition backtick : ascii := "096"%char.

(** [`- \`${p}\``] *)
Definition bullet (p : string) : string :=
  "- " ++ String backtick p ++ String backtick "".

(** [`#### \`${key}\`\n`] *)
Definition heading (key : string) : string :=
  "#### " ++ String backtick key ++ String backtick "" ++ Json.nl.

(** The lines of one list of signatures of a changed contract. *)
Definition itemLines (title : string) (items : list string) : list string :=
  if (0 <? List.length items)%nat
  then ([(title ++ Json.nl)%string] ++ List.map bullet items ++ [""])%list
  else [].

(** The lines that one round of the loop over the changed contracts
    pushes. *)
Definition entryLines (entry : string * Items.t) : list string :=
  ([heading (fst entry)]
   ++ itemLines "**Added:**" (Items.added (snd entry))
   ++ itemLines "**Removed:**" (Items.removed (snd entry)))%list.

(** A section of paths. *)
Definition pathSection (title : string) (paths : list string) : list string :=
  if (0 <? List.length paths)%nat
  then [title ++ Json.nl ++ Json.nl ++ Js.join Json.nl (List.map bullet paths)]
  else [].

(** The entries of the map of changed contracts are sorted by key before
    they are rendered; the order in which the map holds them shows only
    between keys that the collation does not tell apart. *)
Definition changedSection `{Collator} (changed : gmap string Items.t) : list string :=
  if (0 <? size changed)%nat then
    let entries :=
      Js.sortWith (fun a b => localeCompare (fst a) (fst b)) (map_to_list changed) in
    let lines :=
      ([("### Changed" ++ Json.nl)%string] ++ List.flat_map entryLines entries)%list in
    [Text.trimEnd (Js.join Json.nl lines)]
  else [].

Definition renderChangelog `{Collator} (diff : ManifestDiff) : string :=
  if isEmptyDiff diff then ""
  else
    let sections :=
      (pathSection "### Added" (added diff)
       ++ pathSection "### Removed" (removed diff)
       ++ changedSection (changed diff))%list in
    Js.join (Json.nl ++ Json.nl) sections ++ Json.nl.

(** A text that ends with a character that is not white space. *)
Definition endsBlack (x : string) : Prop :=
  exists x' c, x = x' ++ String c "" /\ Text.isWhiteSpace c = false.

(** Two modules with the same path whose interfaces are the same up to the
    order of their items and the names of their parameters. *)
Definition sameInterface `{AbiParser} (m1 m2 : GeneratedModule) : Prop :=
  moduleRelPath m1 = moduleRelPath m2
  /\ match parseAbiFromModuleContent (moduleContent m1),
           parseAbiFromModuleContent (moduleContent m2) with
     | Some abi1, Some abi2 =>
         Permutation (List.map eraseParamNames abi1) (List.map eraseParamNames abi2)
     | None, None => True
     | _, _ => False
     end.

End Render.

(** ** [lib/config.ts] *)

Module Config.

Inductive OnMissingRepo : Type := OnError | OnWarn.

Record AbiSource : Type := {
  id : string;
  repo : option string;
  ref : option string;
  repoPath : option string;
  buildCommand : string;
  srcDir : Discovery.dirs;
  outDir : Discovery.dirs;
  excludePatterns : option (list string)
}.

(** The parsed file. [sources] is [None] where the file has no array
    there; every other optional field is [None] where the file leaves it
    out. The cast of [JSON.parse] is unchecked: the model covers the
    objects whose fields have the declared types. *)
Record AbiConfig : Type := {
  outputDir : option string;
  mainSource : option string;
  reposDir : option string;
  onMissingRepo : option OnMissingRepo;
  sources : option (list AbiSource)
}.

(** An optional string in a condition. *)
Definition given (field : option string) : bool :=
  match field with Some s => Js.truthy s | None => false end.

Definition quoted (s : string) : string :=
  String Json.dquote s ++ String Json.dquote "".

(** The loop over the sources: the message of the first error, if any. *)
Fixpoint checkSources (sources : list AbiSource) : option string :=
  match sources with
  | [] => None
  | source :: sources' =>
      if negb (given (repo source)) && negb (given (repoPath source)) then
        Some ("Source " ++ quoted (id source) ++ " must specify either "
              ++ quoted "repo" ++ " or " ++ quoted "repoPath")
      else if given (repo source) && given (repoPath source) then
        Some ("Source " ++ quoted (id source) ++ " cannot specify both "
              ++ quoted "repo" ++ " and " ++ quoted "repoPath")
      else checkSources sources'
  end.

(** [loadConfig], from the parsed file on. *)
Definition loadConfig (parsed : AbiConfig) : result AbiConfig :=
  match sources parsed with
  | None | Some [] => Throw "Invalid config: sources must be a non-empty array"
  | Some srcs =>
      if negb (given (outputDir parsed)) then
        Throw "Invalid config: outputDir is required"
      else if given (mainSource parsed)
              && negb (existsb (fun s => match mainSource parsed with
                                         | Some main => String.eqb (id s) main
                                         | None => false
                                         end) srcs) then
        Throw ("Invalid config: mainSource "
               ++ quoted (match mainSource parsed with Some main => main | None => "" end)
               ++ " does not match any source id")
      else
        match checkSources srcs with
        | Some message => Throw message
        | None =>
            Ok {| outputDir := outputDir parsed;
                  mainSource := mainSource parsed;
                  reposDir := Some (match reposDir parsed with
                                    | Some dir => dir
                                    | None => ".repos"
                                    end);
                  onMissingRepo := Some (match onMissingRepo parsed with
                                         | Some mode => mode
                                         | None => OnError
                                         end);
                  sources := sources parsed |}
        end
  end.

(** A source with exactly one of [repo] and [repoPath]. *)
Definition oneOrigin (source : AbiSource) : Prop :=
  given (repo source) <> given (repoPath source).

End Config.

(** ** Further reference instances and sample inputs *)

Module Samples.

(** [path.basename(p, ext)] after the implementation of Node: the last
    segment of the path without its trailing slashes, and without [ext]
    where the segment ends with it and is more than it. *)
Definition stripTrailingSlashes (p : string) : string :=
  string_of_list_ascii
    (List.rev
       ((fix strip (l : list ascii) : list ascii :=
           match l with
           | c :: l' => if Ascii.eqb c "/" then strip l' else l
           | [] => []
           end) (List.rev (list_ascii_of_string p)))).

Definition endsWith (s suffix : string) : bool :=
  (String.length suffix <=? String.length s)%nat
  && String.eqb (Js.drop (String.length s - String.length suffix) s) suffix.

Definition basename (p ext : string) : string :=
  if Js.truthy ext && String.eqb ext p then ""
  else
    let base := List.last (Reference.splitSlash (stripTrailingSlashes p) "") "" in
    if Js.truthy ext && endsWith base ext && negb (String.eqb base ext)
    then Js.take (String.length base - String.length ext) base
    else base.

#[export] Instance nodeBasename : PathBase := {| path_basename := basename |}.

(** An artifact of Foundry without a [contractName]. *)
Definition foundryArtifact : Extract.ArtifactLike :=
  {| Extract.abi := Some (JArr Reference.nameAbi); Extract.contractName := None |}.

(** A module of a source that is not the main one. *)
Definition governor : GeneratedModule :=
  @Modules.artifactToModule Reference.nodePath
    (Reference.artifact "governance" "Governor" "." Reference.receiveAbi) (Some "contracts").

(** A configuration with one source. *)
Definition contracts : Config.AbiSource :=
  {| Config.id := "contracts";
     Config.repo := Some "berachain/contracts";
     Config.ref := None;
     Config.repoPath := None;
     Config.buildCommand := "forge build";
     Config.srcDir := Discovery.Undefined;
     Config.outDir := Discovery.Undefined;
     Config.excludePatterns := Some ["I*.sol"] |}.

Definition config : Config.AbiConfig :=
  {| Config.outputDir := Some "src/generated";
     Config.mainSource := Some "contracts";
     Config.reposDir := None;
     Config.onMissingRepo := None;
     Config.sources := Some [contracts] |}.

(** A collation with a tie of the kind that the collation of the host has:
    it ignores the soft hyphen, so that two strings that differ in it
    compare equal. *)
Definition softHyphen : ascii := ascii_of_N 173.

Definition withoutSoftHyphen (s : string) : string :=
  Text.keep (Text.isNot softHyphen) s.

Definition softHyphenCollator : Collator :=
  {| localeCompare := fun a b =>
       Reference.codeUnitCompare (withoutSoftHyphen a) (withoutSoftHyphen b) |}.

(** Two modules whose paths differ in a soft hyphen. *)
Definition plain : GeneratedModule :=
  Reference.makeModule "ab.ts" "ab" Reference.receiveAbi.

Definition hyphenated : GeneratedModule :=
  Reference.makeModule (String "a" (String softHyphen "b.ts"))
                       (String "a" (String softHyphen "b")) Reference.receiveAbi.

End Samples.

(* ===================================================================== *)
(** * Part II: theorems                                                   *)
(* ===================================================================== *)

(** ** Facts about the primitives *)

Module JsFacts.
Import Js.

Lemma upper_not_lower c : isUpper c = true -> isLower c = false.
Proof.
  unfold isUpper, isLower. intros H.
  apply andb_true_iff in H as [H1 H2].
  apply N.leb_le in H1, H2.
  apply andb_false_iff. left. apply N.leb_gt. lia.
Qed.

Lemma upper_not_digit c : isUpper c = true -> isDigit c = false.
Proof.
  unfold isUpper, isDigit. intros H.
  apply andb_true_iff in H as [H1 H2].
  apply N.leb_le in H1, H2.
  apply andb_false_iff. right. apply N.leb_gt. lia.
Qed.

Lemma lower_not_upper c : isLower c = true -> isUpper c = false.
Proof.
  intros H. destruct (isUpper c) eqn:E; [|reflexivity].
  apply upper_not_lower in E. congruence.
Qed.

Lemma append_cons c (s t : string) : String c s ++ t = String c (s ++ t).
Proof. reflexivity. Qed.

Lemma append_nil_r (s : string) : s ++ "" = s.
Proof.
  induction s as [|c s IH]; [reflexivity|].
  now rewrite append_cons, IH.
Qed.

Lemma append_assoc (a b c : string) : (a ++ b) ++ c = a ++ (b ++ c).
Proof.
  induction a as [|x a IH]; [reflexivity|].
  now rewrite !append_cons, IH.
Qed.

Lemma truthy_toLowerCase s : truthy (toLowerCase s) = truthy s.
Proof. destruct s; reflexivity. Qed.

Lemma filter_truthy_map_lower (l : list string) :
  List.filter truthy (List.map toLowerCase l)
  = List.map toLowerCase (List.filter truthy l).
Proof.
  induction l as [|x l IH]; simpl; [reflexivity|].
  rewrite truthy_toLowerCase. destruct (truthy x); simpl; now rewrite IH.
Qed.

(** *** The stable sort *)

Section SortFacts.
Context {A : Type} (le : A -> A -> bool).

Lemma insertSorted_perm x l : Permutation (insertSorted le x l) (x :: l).
Proof.
  induction l as [|y l IH]; cbn [insertSorted]; [reflexivity|].
  destruct (le x y); [reflexivity|].
  rewrite IH. apply perm_swap.
Qed.

Lemma sortBy_perm l : Permutation (sortBy le l) l.
Proof.
  induction l as [|x l IH]; cbn [sortBy]; [reflexivity|].
  rewrite insertSorted_perm. now constructor.
Qed.

Lemma sortBy_In x l : In x (sortBy le l) <-> In x l.
Proof.
  split; apply Permutation_in; [|symmetry]; apply sortBy_perm.
Qed.

(** Whenever [x] may not stay in front of [y], [y] may stay in front of
    [x]: then the result is in order. *)
Lemma insertSorted_sorted x l :
  total le ->
  Sorted (fun a b => le a b = true) l ->
  Sorted (fun a b => le a b = true) (insertSorted le x l).
Proof.
  intros Htot Hl. induction Hl as [|y l Hl IH Hhd]; cbn [insertSorted].
  - repeat constructor.
  - destruct (le x y) eqn:E.
    + constructor; [now constructor | now constructor].
    + constructor; [exact IH|].
      destruct Hhd as [|z l Hz]; cbn [insertSorted].
      * constructor. now apply Htot.
      * destruct (le x z); constructor; [now apply Htot | exact Hz].
Qed.

Lemma sortBy_sorted l :
  total le -> Sorted (fun a b => le a b = true) (sortBy le l).
Proof.
  intros Htot. induction l as [|x l IH]; cbn [sortBy]; [constructor|].
  now apply insertSorted_sorted.
Qed.

(** Stability: elements that may all stay in front of one another keep
    their order. *)
Lemma insertSorted_filter (p : A -> bool) x l :
  (forall y, p x = true -> p y = true -> le x y = true) ->
  List.filter p (insertSorted le x l) = List.filter p (x :: l).
Proof.
  intros Hp. induction l as [|y l IH]; cbn [insertSorted]; [reflexivity|].
  destruct (le x y) eqn:E; [reflexivity|].
  cbn [List.filter] in *. rewrite IH.
  destruct (p x) eqn:Ex; [|reflexivity].
  destruct (p y) eqn:Ey; [|reflexivity].
  rewrite (Hp y eq_refl Ey) in E. discriminate.
Qed.

Lemma sortBy_filter (p : A -> bool) l :
  (forall x y, p x = true -> p y = true -> le x y = true) ->
  List.filter p (sortBy le l) = List.filter p l.
Proof.
  intros Hp. induction l as [|x l IH]; cbn [sortBy]; [reflexivity|].
  rewrite insertSorted_filter by (intros y; apply Hp).
  cbn [List.filter]. now rewrite IH.
Qed.

End SortFacts.

Lemma Sorted_weaken {A : Type} (R S : A -> A -> Prop) l :
  (forall a b, R a b -> S a b) -> Sorted R l -> Sorted S l.
Proof.
  intros HRS Hl. induction Hl as [|x l Hl IH Hhd]; constructor; [exact IH|].
  destruct Hhd; constructor. now apply HRS.
Qed.

(** *** Sets of strings *)

Lemma has_In l x : has l x = true <-> In x l.
Proof.
  unfold has. rewrite existsb_exists. split.
  - intros (y & Hy & E). apply String.eqb_eq in E. now subst.
  - intros Hx. exists x. split; [exact Hx | apply String.eqb_refl].
Qed.

Lemma has_false l x : has l x = false <-> ~ In x l.
Proof.
  rewrite <- has_In. destruct (has l x); split; congruence.
Qed.

Lemma uniq_In l x : In x (uniq l) <-> In x l.
Proof.
  induction l as [|y l IH]; [reflexivity|].
  cbn [uniq In]. rewrite filter_In, IH. split.
  - intros [E | [Hx _]]; [now left | now right].
  - intros [E | Hx]; [now left|].
    destruct (String.eqb_spec y x) as [E|E]; [now left | right].
    split; [exact Hx|]. now destruct (String.eqb_spec y x).
Qed.

Lemma NoDup_filter_list {A : Type} (p : A -> bool) (l : list A) :
  List.NoDup l -> List.NoDup (List.filter p l).
Proof.
  induction 1 as [|x l Hx Hl IH]; cbn [List.filter]; [constructor|].
  destruct (p x); [|exact IH].
  constructor; [|exact IH]. rewrite filter_In. tauto.
Qed.

Lemma uniq_NoDup l : List.NoDup (uniq l).
Proof.
  induction l as [|y l IH]; cbn [uniq]; constructor.
  - rewrite filter_In. intros [_ E]. now rewrite String.eqb_refl in E.
  - now apply NoDup_filter_list.
Qed.

Lemma codeUnitLe_total : total codeUnitLe.
Proof.
  intros a b Hab. destruct (String.leb_total a b) as [E|E]; [|exact E].
  unfold codeUnitLe in Hab. congruence.
Qed.

Lemma sort_sorted l : Sorted (fun a b => codeUnitLe a b = true) (sort l).
Proof. apply sortBy_sorted, codeUnitLe_total. Qed.

Lemma sort_In l x : In x (sort l) <-> In x l.
Proof. apply sortBy_In. Qed.

Lemma sort_NoDup l : List.NoDup l -> List.NoDup (sort l).
Proof.
  intros Hl. eapply Permutation_NoDup; [|exact Hl].
  symmetry. apply sortBy_perm.
Qed.

Lemma filter_none {A : Type} (p : A -> bool) (l : list A) :
  (forall x, In x l -> p x = false) -> List.filter p l = [].
Proof.
  induction l as [|x l IH]; intros Hp; [reflexivity|].
  cbn [List.filter]. rewrite (Hp x) by now left.
  apply IH. intros y Hy. apply Hp. now right.
Qed.

(** *** Searching a string *)

Lemma indexOf_absent s p : includes s p = false -> indexOf s p = -1.
Proof.
  induction s as [|c s IH]; cbn [includes indexOf]; intros H;
    apply orb_false_iff in H as [H1 H2]; rewrite H1; [reflexivity|].
  now rewrite (IH H2).
Qed.

Lemma lastIndexOf_absent s p : includes s p = false -> lastIndexOf s p = -1.
Proof.
  induction s as [|c s IH]; cbn [includes lastIndexOf]; intros H;
    apply orb_false_iff in H as [H1 H2]; [now rewrite H1|].
  rewrite (IH H2). change (0 <=? -1) with false. cbv iota. now rewrite H1.
Qed.

End JsFacts.

Module NamingFacts.
Import Naming.

(** The two replacements of the sources insert a boundary at every place
    the specification names: the matches of either expression cannot
    overlap, so skipping a match loses none. *)
Lemma markAcronymEnds_cons a t :
  markAcronymEnds (String a t)
  = if Js.isUpper a && beforeCapitalizedWord t
    then String a (String " " (markAcronymEnds t))
    else String a (markAcronymEnds t).
Proof. reflexivity. Qed.

Lemma markCamelHumps_cons a t :
  markCamelHumps (String a t)
  = if (Js.isLower a || Js.isDigit a) && beforeUpper t
    then String a (String " " (markCamelHumps t))
    else String a (markCamelHumps t).
Proof. reflexivity. Qed.

Lemma replaceAcronymBoundary_marks_all s :
  replaceAcronymBoundary s = markAcronymEnds s.
Proof.
  remember (String.length s) as n eqn:Hn.
  revert s Hn. induction n as [n IH] using (well_founded_induction lt_wf).
  intros s Hn. destruct s as [|a [|b [|c rest]]]; try reflexivity.
  - simpl. destruct (Js.isUpper a); reflexivity.
  - simpl. rewrite !andb_false_r. reflexivity.
  - rewrite markAcronymEnds_cons.
    change (beforeCapitalizedWord (String b (String c rest)))
      with (Js.isUpper b && Js.isLower c).
    change (replaceAcronymBoundary (String a (String b (String c rest))))
      with (if Js.isUpper a && Js.isUpper b && Js.isLower c
            then String a (String " " (String b (String c (replaceAcronymBoundary rest))))
            else String a (replaceAcronymBoundary (String b (String c rest)))).
    rewrite <- andb_assoc.
    destruct (Js.isUpper a && (Js.isUpper b && Js.isLower c)) eqn:E.
    + apply andb_true_iff in E as [Ea E]. apply andb_true_iff in E as [Eb Ec].
      rewrite (markAcronymEnds_cons b), (markAcronymEnds_cons c).
      rewrite (JsFacts.lower_not_upper c Ec). cbn [andb].
      assert (beforeCapitalizedWord (String c rest) = false) as ->.
      { destruct rest as [|d rest']; [reflexivity|].
        cbn [beforeCapitalizedWord].
        now rewrite (JsFacts.lower_not_upper c Ec). }
      rewrite andb_false_r.
      rewrite (IH (String.length rest)); [reflexivity|simpl in *; lia|reflexivity].
    + rewrite (IH (String.length (String b (String c rest))));
        [reflexivity|simpl in *; lia|reflexivity].
Qed.

Lemma replaceCamelBoundary_marks_all s :
  replaceCamelBoundary s = markCamelHumps s.
Proof.
  remember (String.length s) as n eqn:Hn.
  revert s Hn. induction n as [n IH] using (well_founded_induction lt_wf).
  intros s Hn. destruct s as [|a [|b rest]]; try reflexivity.
  - simpl. rewrite andb_false_r. reflexivity.
  - rewrite markCamelHumps_cons.
    change (beforeUpper (String b rest)) with (Js.isUpper b).
    change (replaceCamelBoundary (String a (String b rest)))
      with (if (Js.isLower a || Js.isDigit a) && Js.isUpper b
            then String a (String " " (String b (replaceCamelBoundary rest)))
            else String a (replaceCamelBoundary (String b rest))).
    destruct ((Js.isLower a || Js.isDigit a) && Js.isUpper b) eqn:E.
    + apply andb_true_iff in E as [_ Eb].
      rewrite (markCamelHumps_cons b).
      rewrite (JsFacts.upper_not_lower b Eb), (JsFacts.upper_not_digit b Eb).
      cbn [orb andb].
      rewrite (IH (String.length rest)); [reflexivity|simpl in *; lia|reflexivity].
    + rewrite (IH (String.length (String b rest)));
        [reflexivity|simpl in *; lia|reflexivity].
Qed.

(** The split of the sources against the pieces of the specification. *)
Lemma splitNonAlnum_pieces s :
  (forall cur, exists p ps,
      alnumPieces s = p :: ps /\ splitNonAlnum s cur false = (cur ++ p) :: ps)
  /\ (forall c, Js.isAlnum c = false ->
      alnumPieces (String c s) = "" :: splitNonAlnum s "" true).
Proof.
  induction s as [|d s [IHf IHt]].
  - split.
    + intros cur. exists "", []. simpl. now rewrite JsFacts.append_nil_r.
    + intros c Hc. simpl. rewrite Hc. reflexivity.
  - split.
    + intros cur. cbn [splitNonAlnum]. destruct (Js.isAlnum d) eqn:Ed.
      * destruct (IHf (cur ++ String d "")) as (p & ps & Hp & Hs).
        exists (String d p), ps. split.
        -- cbn [alnumPieces]. rewrite Ed, Hp. reflexivity.
        -- rewrite Hs, JsFacts.append_assoc. reflexivity.
      * exists "", (splitNonAlnum s "" true). split.
        -- apply IHt. exact Ed.
        -- now rewrite JsFacts.append_nil_r.
    + intros c Hc. cbn [splitNonAlnum]. destruct (Js.isAlnum d) eqn:Ed.
      * destruct (IHf (String d "")) as (p & ps & Hp & Hs).
        change (alnumPieces (String c (String d s)))
          with (if Js.isAlnum c then
                  match alnumPieces (String d s) with
                  | p :: ps => String c p :: ps | [] => [String c ""] end
                else if Js.isAlnum d then "" :: alnumPieces (String d s)
                     else alnumPieces (String d s)).
        rewrite Hc, Ed. f_equal.
        cbn [alnumPieces]. rewrite Ed, Hp.
        change ("" ++ String d "") with (String d "").
        rewrite Hs. reflexivity.
      * change (alnumPieces (String c (String d s)))
          with (if Js.isAlnum c then
                  match alnumPieces (String d s) with
                  | p :: ps => String c p :: ps | [] => [String c ""] end
                else if Js.isAlnum d then "" :: alnumPieces (String d s)
                     else alnumPieces (String d s)).
        rewrite Hc, Ed. apply IHt. exact Ed.
Qed.

Lemma splitNonAlnum_alnumPieces s : splitNonAlnum s "" false = alnumPieces s.
Proof.
  destruct (splitNonAlnum_pieces s) as [Hf _].
  destruct (Hf "") as (p & ps & Hp & Hs). now rewrite Hs, Hp.
Qed.

Lemma splitWords_refines s : splitWords s = splitWords_spec s.
Proof.
  unfold splitWords, splitWords_spec.
  rewrite replaceAcronymBoundary_marks_all, replaceCamelBoundary_marks_all.
  rewrite splitNonAlnum_alnumPieces.
  symmetry. apply JsFacts.filter_truthy_map_lower.
Qed.

(** No part is empty, so [p[0]] is defined wherever the case conversions
    read it. *)
Lemma splitWords_parts_nonempty s p : In p (splitWords s) -> p <> "".
Proof.
  unfold splitWords. intros H.
  apply in_map_iff in H as (q & <- & Hq).
  apply filter_In in Hq as [_ Hq].
  destruct q; [discriminate | simpl; discriminate].
Qed.

(** C8. [splitWords] segments every identifier as specified: a boundary
    between an uppercase letter and a following uppercase-then-lowercase
    pair, then between a lowercase-or-digit character and a following
    uppercase letter, then a split on the runs of non-alphanumeric
    characters, lowercasing every piece and dropping the empty ones. The
    three acronym examples come out as stated, and when there is no part
    [toCamelCase] is ["abi"], [toPascalCase] is ["Contract"] and
    [toKebabCase] is the empty string. *)
Theorem splitWords_segmentation (identifier : string) :
  splitWords identifier = splitWords_spec identifier
  /\ splitWords "WBERA" = ["wbera"]
  /\ splitWords "ERC20Token" = ["erc20"; "token"]
  /\ splitWords "BGTStaker" = ["bgt"; "staker"]
  /\ (splitWords identifier = [] ->
      toCamelCase identifier = "abi"
      /\ toPascalCase identifier = "Contract"
      /\ toKebabCase identifier = "").
Proof.
  split; [apply splitWords_refines|].
  repeat (split; [reflexivity|]).
  intros H. unfold toCamelCase, toPascalCase, toKebabCase. rewrite H.
  repeat split.
Qed.

Lemma splitWords_segmentation_witness :
  splitWords "__" = []
  /\ toCamelCase "__" = "abi"
  /\ toPascalCase "__" = "Contract"
  /\ toKebabCase "__" = "".
Proof.
  split; [reflexivity|].
  apply (proj2 (proj2 (proj2 (proj2 (splitWords_segmentation "__"))))).
  reflexivity.
Defined.

End NamingFacts.

Module DiscoveryFacts.
Import Discovery.

Example matchesAny_wildcard :
  matchesAny "IBGT.sol" ["I*.sol"] None = Ok true
  /\ matchesAny "BGT.sol" ["I*.sol"] None = Ok false
  /\ matchesAny "Deploy.s.sol" ["I*.sol"; "*.s.sol"] None = Ok true
  /\ matchesAny "ABC.sol" ["A?.sol"] None = Ok false
  /\ matchesAny "MockPool.sol" ["test/*.sol"] (Some "test/MockPool.sol") = Ok true.
Proof. repeat split. Qed.

Example normalizeDirs_tests :
  normalizeDirs Undefined Undefined = Ok (["src"], ["out"])
  /\ normalizeDirs (Array ["pkg/vault/src"; "pkg/pool/src"]) (Scalar "out")
     = Ok (["pkg/vault/src"; "pkg/pool/src"], ["out"; "out"])
  /\ normalizeDirs (Array ["a"; "b"]) (Array ["x"; "y"; "z"])
     = Throw "When both srcDir and outDir are arrays they must have the same length (srcDir: 2, outDir: 3)".
Proof. repeat split. Qed.

(** **** The source of the expression is always in the fragment *)

Ltac each_ascii c :=
  destruct c as [[] [] [] [] [] [] [] []].

Lemma replaceChars_app f (a b : string) :
  replaceChars f (a ++ b) = replaceChars f a ++ replaceChars f b.
Proof.
  induction a as [|c a IH]; [reflexivity|].
  rewrite JsFacts.append_cons. cbn [replaceChars].
  now rewrite IH, JsFacts.append_assoc.
Qed.

Lemma body_token c :
  body (String c "") = tokenOf c.
Proof. each_ascii c; reflexivity. Qed.

Lemma body_cons c pattern :
  body (String c pattern) = tokenOf c ++ body pattern.
Proof.
  rewrite <- body_token. unfold body, escapeSpecials, replaceStars, replaceQuestionMarks.
  cbn [replaceChars]. rewrite !replaceChars_app.
  now rewrite JsFacts.append_nil_r.
Qed.

Lemma tokenOf_notStar c rest : notStar (tokenOf c ++ rest).
Proof. each_ascii c; reflexivity. Qed.

Lemma body_notStar pattern : notStar (body pattern ++ "$").
Proof.
  destruct pattern as [|c pattern]; [reflexivity|].
  rewrite body_cons, JsFacts.append_assoc. apply tokenOf_notStar.
Qed.

Lemma parseBody_token c rest :
  notStar rest ->
  parseBody (tokenOf c ++ rest) = option_map (cons (atomOf c)) (parseBody rest).
Proof.
  destruct rest as [|d rest]; [contradiction|]. cbn [notStar]. intros Hd.
  each_ascii c;
    first [ reflexivity
          | change (parseBody (String "." (String d rest))
                    = option_map (cons AnyChar) (parseBody (String d rest)));
            cbn [parseBody]; rewrite Hd; reflexivity ].
Qed.

Lemma parseBody_body pattern :
  parseBody (body pattern ++ "$") = Some (atomsOf pattern).
Proof.
  induction pattern as [|c pattern IH]; [reflexivity|].
  rewrite body_cons, JsFacts.append_assoc.
  rewrite parseBody_token by apply body_notStar.
  now rewrite IH.
Qed.

Lemma RegExp_new_regexSource pattern :
  RegExp_new (regexSource pattern) = Some (atomsOf pattern).
Proof. apply parseBody_body. Qed.

(** **** The expression against the wildcards of the documentation *)

Lemma test_AnyStar regex t :
  test (AnyStar :: regex) t
  = test regex t
    || match t with
       | String d t' => negb (Js.isLineTerminator d) && test (AnyStar :: regex) t'
       | EmptyString => false
       end.
Proof. destruct t; reflexivity. Qed.

Lemma globMatch_star pattern t :
  globMatch (String "*" pattern) t
  = globMatch pattern t
    || match t with
       | String _ t' => globMatch (String "*" pattern) t'
       | EmptyString => false
       end.
Proof. destruct t; reflexivity. Qed.

Lemma test_globMatch pattern target :
  noLineTerminator target = true ->
  test (atomsOf pattern) target = globMatch pattern target.
Proof.
  revert target. induction pattern as [|c pattern IH]; intros target Hlt.
  - reflexivity.
  - cbn [atomsOf]. unfold atomOf.
    destruct (Ascii.eqb c "*") eqn:Estar.
    + apply Ascii.eqb_eq in Estar. subst c.
      induction target as [|d target IHt].
      * rewrite test_AnyStar, globMatch_star, IH by reflexivity. reflexivity.
      * cbn [noLineTerminator] in Hlt. apply andb_true_iff in Hlt as [Hd Ht].
        rewrite test_AnyStar, globMatch_star, IH
          by (cbn [noLineTerminator]; now rewrite Hd, Ht).
        rewrite Hd, IHt by exact Ht. reflexivity.
    + cbn [globMatch]. rewrite Estar.
      destruct (Ascii.eqb c "?") eqn:Eq.
      * destruct target as [|d target]; [reflexivity|].
        cbn [noLineTerminator] in Hlt. apply andb_true_iff in Hlt as [Hd Ht].
        cbn [test orb]. now rewrite Hd, IH.
      * destruct target as [|d target]; [reflexivity|].
        cbn [noLineTerminator] in Hlt. apply andb_true_iff in Hlt as [Hd Ht].
        cbn [test orb]. now rewrite IH.
Qed.

(** **** [matchesAny] *)

Lemma matchesAny_nil filename relPath : matchesAny filename [] relPath = Ok false.
Proof. reflexivity. Qed.

Lemma matchesAny_cons filename pattern patterns relPath :
  matchesAny filename (pattern :: patterns) relPath
  = if test (atomsOf pattern) (targetOf filename relPath pattern) then Ok true
    else matchesAny filename patterns relPath.
Proof. cbn [matchesAny]. now rewrite RegExp_new_regexSource. Qed.

(** No list of patterns makes [new RegExp] throw. *)
Lemma matchesAny_never_throws filename patterns relPath :
  exists b, matchesAny filename patterns relPath = Ok b.
Proof.
  induction patterns as [|pattern patterns IH].
  - now exists false.
  - rewrite matchesAny_cons.
    destruct (test _ _); [now exists true | exact IH].
Qed.

(** A pattern with a [/] is tested against the relative path, any other
    against the file name. *)
Lemma targetOf_path filename relPath pattern :
  Js.includes pattern "/" = true ->
  targetOf filename (Some relPath) pattern = relPath.
Proof. unfold targetOf. now intros ->. Qed.

Lemma targetOf_name filename relPath pattern :
  Js.includes pattern "/" = false ->
  targetOf filename relPath pattern = filename.
Proof. unfold targetOf. now intros ->. Qed.

(** On names and paths without a line terminator [matchesAny] is the
    matching of the documentation. *)
Lemma matchesAny_globMatch filename patterns relPath :
  noLineTerminator filename = true ->
  match relPath with Some p => noLineTerminator p = true | None => True end ->
  matchesAny filename patterns relPath
  = Ok (existsb (fun pattern => globMatch pattern (targetOf filename relPath pattern))
                patterns).
Proof.
  intros Hf Hp. induction patterns as [|pattern patterns IH]; [reflexivity|].
  rewrite matchesAny_cons. cbn [existsb].
  rewrite test_globMatch.
  - destruct (globMatch _ _); [reflexivity | exact IH].
  - unfold targetOf. destruct (Js.includes pattern "/"); [|exact Hf].
    destruct relPath; [exact Hp | exact Hf].
Qed.

(** C6, at a name with a line terminator. The documentation of
    [matchesAny] and the claim let [?] stand for any single character and
    [*] for any characters; the expression built from the pattern uses
    [.], which does not match a line terminator, so the name
    ["a<LF>b.sol"] is matched by neither ["a?b.sol"] nor ["*.sol"]. *)
Theorem matchesAny_line_terminator :
  let name := String "a" (String newline "b.sol") in
  matchesAny name ["a?b.sol"] None = Ok false
  /\ globMatch "a?b.sol" name = true
  /\ matchesAny name ["*.sol"] None = Ok false
  /\ globMatch "*.sol" name = true.
Proof. repeat split. Qed.

(** **** [normalizeDirs] *)

(** C7. Scalars are wrapped and unset directories default to ["src"] and
    ["out"]; an empty source list throws, and so do two lists of more than
    one element and different lengths; a single output directory is
    repeated for every source directory, so that the two lists have the
    same length and position [i] of the one pairs with position [i] of the
    other. *)
Theorem normalizeDirs_contract :
  (forall src out, normalizeDirs (Scalar src) (Scalar out) = Ok ([src], [out]))
  /\ normalizeDirs Undefined Undefined = Ok (["src"], ["out"])
  /\ (forall src, normalizeDirs (Scalar src) Undefined = Ok ([src], ["out"]))
  /\ (forall out, normalizeDirs Undefined (Scalar out) = Ok (["src"], [out]))
  /\ (forall outDir, exists message,
        normalizeDirs (Array []) outDir = Throw message)
  /\ (forall srcDir outDir,
        (1 < List.length (toArray "src" srcDir))%nat ->
        (1 < List.length (toArray "out" outDir))%nat ->
        List.length (toArray "src" srcDir) <> List.length (toArray "out" outDir) ->
        exists message, normalizeDirs srcDir outDir = Throw message)
  /\ (forall srcDir outDir out,
        toArray "out" outDir = [out] ->
        (1 < List.length (toArray "src" srcDir))%nat ->
        exists outDirs,
          normalizeDirs srcDir outDir = Ok (toArray "src" srcDir, outDirs)
          /\ List.length outDirs = List.length (toArray "src" srcDir)
          /\ forall i src, nth_error (toArray "src" srcDir) i = Some src ->
                           nth_error outDirs i = Some out).
Proof.
  repeat split; try reflexivity.
  - intros outDir. eexists. reflexivity.
  - intros srcDir outDir Hs Ho Hne. unfold normalizeDirs.
    destruct (Nat.eqb_spec (List.length (toArray "src" srcDir)) 0) as [E|_]; [lia|].
    destruct (Nat.ltb_spec 1 (List.length (toArray "out" outDir))) as [_|E]; [|lia].
    destruct (Nat.eqb_spec (List.length (toArray "out" outDir))
                           (List.length (toArray "src" srcDir))) as [E|_]; [congruence|].
    eexists. reflexivity.
  - intros srcDir outDir out Ho Hs. unfold normalizeDirs. rewrite Ho.
    destruct (Nat.eqb_spec (List.length (toArray "src" srcDir)) 0) as [E|_]; [lia|].
    cbn [List.length Nat.ltb Nat.leb andb].
    eexists. split; [reflexivity|]. split; [apply List.length_map|].
    intros i src Hi.
    rewrite nth_error_map, Hi. reflexivity.
Qed.

Lemma normalizeDirs_contract_witness :
  (exists message,
      normalizeDirs (Array ["a"; "b"]) (Array ["x"; "y"; "z"]) = Throw message)
  /\ (exists outDirs,
        normalizeDirs (Array ["pkg/vault/src"; "pkg/pool/src"]) (Scalar "out")
        = Ok (["pkg/vault/src"; "pkg/pool/src"], outDirs)
        /\ List.length outDirs = 2%nat
        /\ forall i src,
            nth_error ["pkg/vault/src"; "pkg/pool/src"] i = Some src ->
            nth_error outDirs i = Some "out").
Proof.
  destruct normalizeDirs_contract as (_ & _ & _ & _ & _ & Hthrow & Hrepeat).
  split.
  - apply (Hthrow (Array ["a"; "b"]) (Array ["x"; "y"; "z"])); simpl; lia.
  - apply (Hrepeat (Array ["pkg/vault/src"; "pkg/pool/src"]) (Scalar "out") "out");
      simpl; [reflexivity | lia].
Defined.

End DiscoveryFacts.

(** *** The reference collator is lawful *)

Module ReferenceFacts.
Import Reference.

#[export] Instance codeUnitCollatorLaws : CollatorLaws.
Proof.
  constructor. intros a b. cbn [localeCompare codeUnitCollator]. unfold codeUnitCompare.
  rewrite (String.compare_antisym a b).
  destruct (String.compare b a); reflexivity.
Defined.

(** *** The reference precedence is lawful *)

Lemma thenCompare_opp c d :
  CompOpp (thenCompare c d) = thenCompare (CompOpp c) (CompOpp d).
Proof. now destruct c. Qed.

Lemma compareIdentifier_antisym a b :
  compareIdentifier a b = CompOpp (compareIdentifier b a).
Proof.
  destruct a, b; cbn [compareIdentifier CompOpp]; try reflexivity.
  - apply N.compare_antisym.
  - apply String.compare_antisym.
Qed.

Lemma compareIdentifiers_antisym a b :
  compareIdentifiers a b = CompOpp (compareIdentifiers b a).
Proof.
  revert b. induction a as [|x a IH]; intros [|y b]; cbn [compareIdentifiers CompOpp];
    try reflexivity.
  rewrite (compareIdentifier_antisym x y), (IH b).
  now destruct (compareIdentifier y x).
Qed.

Lemma comparePrerelease_antisym a b :
  comparePrerelease a b = CompOpp (comparePrerelease b a).
Proof.
  destruct a as [|x a], b as [|y b]; try reflexivity.
  unfold comparePrerelease. apply compareIdentifiers_antisym.
Qed.

Lemma compareVersion_antisym a b :
  compareVersion a b = CompOpp (compareVersion b a).
Proof.
  unfold compareVersion. rewrite !thenCompare_opp.
  now rewrite <- !N.compare_antisym, <- comparePrerelease_antisym.
Qed.

#[export] Instance semverLaws : Changelog.SemverLaws.
Proof.
  constructor.
  - intros a b [x Ha] [y Hb]. cbn [Changelog.semverGte semver] in *. unfold gte in *.
    destruct (parseVersion a), (parseVersion b); try discriminate. eauto.
  - intros a b. cbn [Changelog.semverGte semver]. unfold gte.
    destruct (parseVersion a) as [va|], (parseVersion b) as [vb|]; try discriminate.
    rewrite (compareVersion_antisym vb va).
    destruct (compareVersion va vb); cbn [CompOpp]; intros E; try discriminate.
    reflexivity.
  - reflexivity.
Defined.

End ReferenceFacts.

Module ModulesFacts.
Import Modules Reference ReferenceFacts.

Example artifactToModule_paths :
  exportName (artifactToModule (artifact "contracts" "RewardVault" "." []) None)
    = "rewardVaultAbi"
  /\ moduleRelPath
       (artifactToModule (artifact "contracts" "RewardVault" "pol/rewards" [])
                         (Some "contracts"))
     = "pol/rewards/rewardVault.ts"
  /\ moduleRelPath (artifactToModule (artifact "governance" "Governor" "." []) None)
     = "governance/governor.ts"
  /\ moduleRelPath (artifactToModule (artifact "contracts" "WBERA" "." []) (Some "contracts"))
     = "wbera.ts"
  /\ dedupeKey (artifactToModule (artifact "mySource" "MyContract" "." []) None)
     = "mySource:MyContract".
Proof. repeat split. Qed.

(** *** [artifactToModule] *)

Section ArtifactToModule.
Import Reference.

Example moduleContent_receive :
  moduleContent (artifactToModule (artifact "contracts" "Token" "." receiveAbi) None)
  = "export const tokenAbi = [
  {
    " ++ Json.quote "type" ++ ": " ++ Json.quote "receive" ++ "
  }
] as const;

export default tokenAbi;
".
Proof. vm_compute. reflexivity. Qed.

(** C2. [artifactToModule] prints the interface with
    [JSON.stringify(abi, null, 2)], which lists the keys of an item in the
    order of the artifact, and not with [stableStringify], which the
    sources export and never call. The two artifacts below are of one contract of one source; their
    interface has one item, with its two keys in either order. Their
    contents differ, and [dedupeAndValidateModules], which compares the
    contents, stops with a collision between them, while [stableStringify] -
    there "so that key ordering differences don't cause false collision
    errors" - gives the two interfaces one text. *)
Theorem artifactToModule_key_order_collision :
  let a1 := artifact "contracts" "Token" "." payableReceive in
  let a2 := artifact "contracts" "Token" "tokens" payableReceiveSwapped in
  let m1 := artifactToModule a1 None in
  let m2 := artifactToModule a2 None in
  Forall2 Json.sameUpToKeyOrder (Artifact.abi a1) (Artifact.abi a2)
  /\ moduleContent m1 <> moduleContent m2
  /\ dedupeKey m1 = dedupeKey m2
  /\ dedupeAndValidateModules [m1; m2]
     = Throw ("ABI collision for contracts:Token: "
              ++ "same source and contractName produced different ABI content")
  /\ Utils.stableStringify (JArr (Artifact.abi a1))
     = Utils.stableStringify (JArr (Artifact.abi a2)).
Proof.
  intros a1 a2 m1 m2. split; [|split; [|split; [|split]]].
  - constructor; [|constructor].
    apply (Json.same_obj _ [("stateMutability", JStr "payable"); ("type", JStr "receive")]).
    + apply perm_swap.
    + repeat constructor.
  - apply String.eqb_neq. vm_compute. reflexivity.
  - reflexivity.
  - vm_compute. reflexivity.
  - vm_compute. reflexivity.
Qed.

(** [stableStringify] gives the two interfaces the same text. *)
Example stableStringify_key_order :
  Utils.stableStringify (JArr payableReceive)
  = Utils.stableStringify (JArr payableReceiveSwapped).
Proof. vm_compute. reflexivity. Qed.

End ArtifactToModule.

(** *** Collators *)

Section CollatorFacts.
Context `{CollatorLaws}.

Lemma localeCompare_flip a b :
  (localeCompare a b = 0 -> localeCompare b a = 0)
  /\ (localeCompare a b > 0 -> localeCompare b a < 0)
  /\ (localeCompare a b < 0 -> localeCompare b a > 0).
Proof.
  pose proof (localeCompare_antisym a b) as Hs.
  destruct (localeCompare a b), (localeCompare b a); cbn in Hs;
    repeat split; intros; try lia; try discriminate.
Qed.

Lemma compareModules_total :
  Js.total (fun a b => compareModules a b <=? 0).
Proof.
  intros a b Hab. apply Z.leb_gt in Hab. apply Z.leb_le.
  unfold compareModules, orElse in *.
  destruct (localeCompare_flip (sourceId a) (sourceId b)) as (S0 & S1 & S2).
  destruct (localeCompare_flip (contractName a) (contractName b)) as (C0 & C1 & C2).
  destruct (localeCompare_flip (moduleRelPath a) (moduleRelPath b)) as (P0 & P1 & P2).
  destruct (Z.eqb_spec (localeCompare (sourceId a) (sourceId b)) 0) as [E1|E1].
  - rewrite (S0 E1). cbn [Z.eqb].
    destruct (Z.eqb_spec (localeCompare (contractName a) (contractName b)) 0) as [E2|E2].
    + rewrite (C0 E2). cbn [Z.eqb]. lia.
    + destruct (Z.eqb_spec (localeCompare (contractName b) (contractName a)) 0); lia.
  - destruct (Z.eqb_spec (localeCompare (sourceId b) (sourceId a)) 0); lia.
Qed.

Lemma compareModules_moduleLe a b :
  (compareModules a b <=? 0) = true -> moduleLe a b.
Proof.
  intros Hab. apply Z.leb_le in Hab. unfold compareModules, orElse, moduleLe in *.
  destruct (Z.eqb_spec (localeCompare (sourceId a) (sourceId b)) 0) as [E1|E1]; [|lia].
  destruct (Z.eqb_spec (localeCompare (contractName a) (contractName b)) 0) as [E2|E2]; lia.
Qed.

End CollatorFacts.

(** *** The loop of [dedupeAndValidateModules] *)

Lemma filterWithPrefix_app {A : Type} (P : list A -> A -> bool) before (l1 l2 : list A) :
  filterWithPrefix P before (l1 ++ l2)
  = (filterWithPrefix P before l1 ++ filterWithPrefix P (before ++ l1) l2)%list.
Proof.
  revert before. induction l1 as [|x l1 IH]; intros before.
  - cbn. now rewrite app_nil_r.
  - cbn [filterWithPrefix app]. rewrite IH, <- !app_assoc. reflexivity.
Qed.

Lemma In_filterWithPrefix {A : Type} (P : list A -> A -> bool) before (l : list A) x :
  In x (filterWithPrefix P before l)
  <-> exists l1 l2, l = (l1 ++ x :: l2)%list /\ P (before ++ l1)%list x = true.
Proof.
  revert before. induction l as [|y l IH]; intros before; cbn [filterWithPrefix].
  - split; [intros [] | intros ([|? ?] & ? & ? & _); discriminate].
  - rewrite in_app_iff, IH. split.
    + intros [Hy | (l1 & l2 & -> & HP)].
      * destruct (P before y) eqn:E; [|destruct Hy].
        destruct Hy as [<- | []]. exists [], l. now rewrite app_nil_r.
      * exists (y :: l1), l2. split; [reflexivity|].
        now rewrite <- app_assoc in HP.
    + intros ([|z l1] & l2 & Heq & HP); injection Heq as <- ->.
      * left. rewrite app_nil_r in HP. rewrite HP. now left.
      * right. exists l1, l2. split; [reflexivity|].
        now rewrite <- app_assoc.
Qed.

(** A module is kept when no module before it has its key. *)
Lemma firstSeen_In mods m :
  In m (firstSeen mods)
  <-> exists before after,
      mods = (before ++ m :: after)%list /\ existsb (sameKey m) before = false.
Proof.
  unfold firstSeen. rewrite In_filterWithPrefix. cbn [app].
  split; intros (l1 & l2 & Heq & HP); exists l1, l2; split; try exact Heq.
  - now apply negb_true_iff.
  - now apply negb_true_iff.
Qed.

Lemma Map_get_entriesOf mods key :
  Map_get (entriesOf mods) key
  = List.find (fun m => String.eqb (dedupeKey m) key) mods.
Proof.
  induction mods as [|m mods IH]; [reflexivity|].
  cbn [entriesOf List.map Map_get List.find]. fold (entriesOf mods).
  now rewrite IH.
Qed.

Lemma sameKey_sym a b : sameKey a b = sameKey b a.
Proof. unfold sameKey. apply String.eqb_sym. Qed.

Lemma sameKey_eq a b : sameKey a b = true <-> dedupeKey a = dedupeKey b.
Proof. unfold sameKey. apply String.eqb_eq. Qed.

Lemma find_sameKey m mods :
  List.find (fun x => String.eqb (dedupeKey x) (dedupeKey m)) mods = keptFor mods m.
Proof.
  unfold keptFor. induction mods as [|x mods IH]; [reflexivity|].
  cbn [List.find]. rewrite IH, (sameKey_sym m x). reflexivity.
Qed.

Lemma find_app {A : Type} (p : A -> bool) (l1 l2 : list A) :
  List.find p (l1 ++ l2)
  = match List.find p l1 with Some y => Some y | None => List.find p l2 end.
Proof.
  induction l1 as [|x l1 IH]; [reflexivity|].
  cbn [app List.find]. destruct (p x); [reflexivity | exact IH].
Qed.

Lemma existsb_find {A : Type} (p : A -> bool) (l : list A) :
  existsb p l = match List.find p l with Some _ => true | None => false end.
Proof.
  induction l as [|x l IH]; [reflexivity|].
  cbn [existsb List.find]. destruct (p x); [reflexivity | exact IH].
Qed.

Lemma firstSeen_snoc before m :
  firstSeen (before ++ [m])
  = (firstSeen before ++ if existsb (sameKey m) before then [] else [m])%list.
Proof.
  unfold firstSeen. rewrite filterWithPrefix_app. cbn [filterWithPrefix app].
  rewrite app_nil_r. now destruct (existsb (sameKey m) before).
Qed.

(** The module kept for a key is the first one seen with it. *)
Lemma keptFor_firstSeen before m : keptFor (firstSeen before) m = keptFor before m.
Proof.
  unfold keptFor.
  induction before as [|x before IH] using rev_ind; [reflexivity|].
  rewrite firstSeen_snoc, !find_app, IH.
  destruct (List.find (sameKey m) before) as [y|] eqn:Ey; [reflexivity|].
  destruct (existsb (sameKey x) before) eqn:Ex; [|reflexivity].
  cbn [List.find]. destruct (sameKey m x) eqn:Emx; [|reflexivity].
  exfalso. apply existsb_exists in Ex as (z & Hz & Hxz).
  apply (find_none _ _ Ey) in Hz.
  apply sameKey_eq in Emx, Hxz.
  assert (sameKey m z = true) by (apply sameKey_eq; congruence).
  congruence.
Qed.

Lemma dedupeLoop_app l1 l2 byKey ws :
  dedupeLoop (l1 ++ l2) byKey ws
  = match dedupeLoop l1 byKey ws with
    | Ok (byKey', ws') => dedupeLoop l2 byKey' ws'
    | Throw message => Throw message
    end.
Proof.
  revert byKey ws. induction l1 as [|m l1 IH]; intros byKey ws; [reflexivity|].
  cbn [app dedupeLoop].
  destruct (Map_get byKey (dedupeKey m)) as [existing|]; [|apply IH].
  destruct (String.eqb (moduleContent existing) (moduleContent m)); [apply IH | reflexivity].
Qed.

Lemma dedupeLoop_step before m ws :
  dedupeLoop [m] (entriesOf (firstSeen before)) ws
  = match keptFor before m with
    | None => Ok (entriesOf (firstSeen (before ++ [m])), ws)
    | Some kept =>
        if String.eqb (moduleContent kept) (moduleContent m)
        then Ok (entriesOf (firstSeen (before ++ [m])), (ws ++ [duplicateWarning m])%list)
        else Throw (collisionMessage m)
    end.
Proof.
  cbn [dedupeLoop]. rewrite Map_get_entriesOf, find_sameKey, keptFor_firstSeen.
  rewrite firstSeen_snoc, existsb_find. unfold keptFor.
  destruct (List.find (sameKey m) before) as [kept|].
  - now rewrite app_nil_r.
  - unfold entriesOf. now rewrite List.map_app.
Qed.

(** Without a collision the loop keeps the first module of every key and
    warns once for every later one. *)
Lemma dedupeLoop_collisionFree mods before ws :
  (forall l1 m l2 kept,
      mods = (l1 ++ m :: l2)%list ->
      keptFor (before ++ l1) m = Some kept ->
      moduleContent kept = moduleContent m) ->
  dedupeLoop mods (entriesOf (firstSeen before)) ws
  = Ok (entriesOf (firstSeen (before ++ mods)),
        (ws ++ List.map duplicateWarning
                 (filterWithPrefix (fun b m => existsb (sameKey m) b) before mods))%list).
Proof.
  revert before ws. induction mods as [|m mods IH]; intros before ws Hfree.
  - cbn. now rewrite !app_nil_r.
  - change (m :: mods) with ([m] ++ mods)%list at 1.
    rewrite dedupeLoop_app, dedupeLoop_step.
    assert (Hrest : forall l1 x l2 kept,
               mods = (l1 ++ x :: l2)%list ->
               keptFor ((before ++ [m]) ++ l1) x = Some kept ->
               moduleContent kept = moduleContent x).
    { intros l1 x l2 kept -> Hk. apply (Hfree (m :: l1) x l2 kept); [reflexivity|].
      now rewrite <- app_assoc in Hk. }
    cbn [filterWithPrefix]. rewrite existsb_find. fold (keptFor before m).
    destruct (keptFor before m) as [kept|] eqn:Ek.
    + rewrite (proj2 (String.eqb_eq _ _)).
      * rewrite (IH (before ++ [m])%list _ Hrest).
        rewrite <- !app_assoc. reflexivity.
      * apply (Hfree [] m mods kept); [reflexivity | now rewrite app_nil_r].
    + rewrite (IH (before ++ [m])%list _ Hrest).
      rewrite <- !app_assoc. reflexivity.
Qed.

Lemma collisionFreeAfter_sound before mods :
  collisionFreeAfter before mods = true ->
  forall l1 m l2 kept,
    mods = (l1 ++ m :: l2)%list ->
    keptFor (before ++ l1) m = Some kept ->
    moduleContent kept = moduleContent m.
Proof.
  revert before. induction mods as [|x mods IH]; intros before Hb l1 m l2 kept Heq Hk.
  - destruct l1; discriminate.
  - cbn [collisionFreeAfter] in Hb. apply andb_true_iff in Hb as [Hx Hb].
    destruct l1 as [|y l1]; injection Heq as Ex Em.
    + subst x. rewrite app_nil_r in Hk. rewrite Hk in Hx. now apply String.eqb_eq.
    + subst y. apply (IH (before ++ [x])%list Hb l1 m l2 kept); [exact Em|].
      now rewrite <- app_assoc.
Qed.

Lemma collisionFreeAfter_collisionFree mods :
  collisionFreeAfter [] mods = true -> collisionFree mods.
Proof.
  intros Hb before m after kept Heq Hk.
  exact (collisionFreeAfter_sound [] mods Hb before m after kept Heq Hk).
Qed.

(** C3. Without a collision [dedupeAndValidateModules] returns the first
    module seen for every dedupe key, sorted by source id, contract name and
    path, with one warning for every later module of an already seen key
    (whose content is then that of the module kept, and which is dropped).
    The first module whose content differs from the one kept for its key
    makes the call throw the collision error that names this key; nothing is
    returned then. *)
Theorem dedupeAndValidateModules_contract `{CollatorLaws} (mods : list GeneratedModule) :
  (collisionFree mods ->
   exists out,
     dedupeAndValidateModules mods
     = Ok {| modules := out;
             warnings := List.map duplicateWarning (laterDuplicates mods) |}
     /\ Permutation out (firstSeen mods)
     /\ Sorted moduleLe out)
  /\ (forall before m after kept,
        mods = (before ++ m :: after)%list ->
        collisionFree before ->
        keptFor before m = Some kept ->
        moduleContent kept <> moduleContent m ->
        dedupeAndValidateModules mods
        = Throw ("ABI collision for " ++ dedupeKey m
                 ++ ": same source and contractName produced different ABI content")).
Proof.
  split.
  - intros Hfree. unfold dedupeAndValidateModules.
    change (@nil (string * GeneratedModule)) with (entriesOf (firstSeen [])).
    rewrite dedupeLoop_collisionFree by exact Hfree.
    cbn [app]. eexists. split; [reflexivity|]. split.
    + unfold entriesOf. rewrite List.map_map, List.map_id. cbn [snd].
      apply JsFacts.sortBy_perm.
    + apply (JsFacts.Sorted_weaken _ _ _ compareModules_moduleLe).
      apply JsFacts.sortBy_sorted, compareModules_total.
  - intros before m after kept -> Hfree Hk Hne. unfold dedupeAndValidateModules.
    change (@nil (string * GeneratedModule)) with (entriesOf (firstSeen [])).
    rewrite dedupeLoop_app, dedupeLoop_collisionFree by exact Hfree.
    cbn [app]. change (m :: after) with ([m] ++ after)%list.
    rewrite dedupeLoop_app, dedupeLoop_step, Hk.
    destruct (String.eqb_spec (moduleContent kept) (moduleContent m)); [contradiction|].
    reflexivity.
Qed.

Lemma dedupeAndValidateModules_contract_witness :
  let one := artifactToModule (artifact "contracts" "Token" "tokens" nameAbi) None in
  let two := artifactToModule (artifact "contracts" "Token" "tokens" nameAbi) None in
  let other := artifactToModule (artifact "contracts" "Token" "tokens" symbolAbi) None in
  (exists out,
      dedupeAndValidateModules [two; one]
      = Ok {| modules := out;
              warnings := ["Duplicate ABI ignored for contracts:Token"] |}
      /\ Permutation out [two]
      /\ Sorted moduleLe out)
  /\ dedupeAndValidateModules [one; other]
     = Throw "ABI collision for contracts:Token: same source and contractName produced different ABI content".
Proof.
  intros one two other. split.
  - apply (proj1 (dedupeAndValidateModules_contract [two; one])).
    apply collisionFreeAfter_collisionFree. vm_compute. reflexivity.
  - apply (proj2 (dedupeAndValidateModules_contract [one; other]) [one] other [] one).
    + reflexivity.
    + apply collisionFreeAfter_collisionFree. vm_compute. reflexivity.
    + vm_compute. reflexivity.
    + vm_compute. discriminate.
Defined.

End ModulesFacts.

(** ** [lib/changelog.ts] *)

Module ChangelogFacts.
Import Changelog.

(** *** Signatures and the names of parameters *)

Example formatParamType_tests :
  formatParamType (typed "address") false = "address"
  /\ formatParamType (tuple "tuple" [typed "uint256"; typed "address"]) false
     = "(uint256,address)"
  /\ formatParamType
       (tuple "tuple" [typed "uint256"; tuple "tuple" [typed "bool"; typed "address"]]) false
     = "(uint256,(bool,address))"
  /\ formatParamType (tuple "tuple[]" [typed "uint256"; typed "address"]) false
     = "(uint256,address)[]"
  /\ formatParamType (typedIndexed "address" true) true = "address indexed"
  /\ formatParamType (typedIndexed "address" true) false = "address"
  /\ formatParamType (typed "tuple") false = "()".
Proof. repeat split. Qed.

Example formatAbiItemSignature_tests :
  formatAbiItemSignature
    {| type := "function"; name := Some "approve";
       inputs := Some [typed "address"; typed "uint256"];
       outputs := Some [typed "bool"]; stateMutability := Some "nonpayable" |}
  = Some "function approve(address,uint256) nonpayable returns (bool)"
  /\ formatAbiItemSignature
       {| type := "function"; name := Some "transfer";
          inputs := Some [typed "address"; typed "uint256"];
          outputs := Some []; stateMutability := Some "nonpayable" |}
     = Some "function transfer(address,uint256) nonpayable"
  /\ formatAbiItemSignature
       {| type := "event"; name := Some "Transfer";
          inputs := Some [typedIndexed "address" true; typedIndexed "address" true;
                          typedIndexed "uint256" false];
          outputs := None; stateMutability := None |}
     = Some "event Transfer(address indexed,address indexed,uint256)"
  /\ formatAbiItemSignature
       {| type := "error"; name := Some "ZeroAddress"; inputs := Some [];
          outputs := None; stateMutability := None |}
     = Some "error ZeroAddress()"
  /\ formatAbiItemSignature
       {| type := "constructor"; name := None;
          inputs := Some [typed "address"; typed "uint256"];
          outputs := None; stateMutability := Some "nonpayable" |}
     = Some "constructor(address,uint256) nonpayable"
  /\ formatAbiItemSignature
       {| type := "fallback"; name := None; inputs := None; outputs := None;
          stateMutability := None |}
     = Some "fallback()"
  /\ formatAbiItemSignature
       {| type := "unknown_thing"; name := None; inputs := None; outputs := None;
          stateMutability := None |}
     = None
  /\ formatAbiItemSignature
       {| type := "function"; name := Some "getPrice"; inputs := Some [typed "address"];
          outputs := Some [tuple "tuple" [typed "uint256"; typed "uint256"]];
          stateMutability := Some "view" |}
     = Some "function getPrice(address) view returns ((uint256,uint256))".
Proof. repeat split. Qed.

Lemma formatParamType_eraseName p includeIndexed :
  formatParamType (eraseName p) includeIndexed = formatParamType p includeIndexed.
Proof.
  revert includeIndexed. induction p as [n it ty ix cs IH] using AbiParam_nested_ind.
  intros includeIndexed. cbn [eraseName formatParamType].
  destruct cs as [cs|]; [|reflexivity].
  cbn [orEmpty] in IH.
  assert (E : List.map (fun c => formatParamType c false) (List.map eraseName cs)
              = List.map (fun c => formatParamType c false) cs).
  { induction IH as [|c cs Hc _ IHcs]; cbn [List.map]; [reflexivity|].
    now rewrite Hc, IHcs. }
  now rewrite E.
Qed.

Lemma formatParams_eraseName includeIndexed params :
  formatParams includeIndexed (List.map eraseName params)
  = formatParams includeIndexed params.
Proof.
  unfold formatParams. rewrite List.map_map. f_equal.
  apply List.map_ext. intros p. apply formatParamType_eraseName.
Qed.

Lemma orEmpty_eraseName params :
  orEmpty (option_map (List.map eraseName) params) = List.map eraseName (orEmpty params).
Proof. now destruct params. Qed.

(** The signature of an item does not read the name of a parameter. *)
Lemma formatAbiItemSignature_eraseParamNames item :
  formatAbiItemSignature (eraseParamNames item) = formatAbiItemSignature item.
Proof.
  unfold formatAbiItemSignature, eraseParamNames.
  cbn [type name inputs outputs stateMutability].
  now rewrite !orEmpty_eraseName, !formatParams_eraseName.
Qed.

Lemma signaturesOf_eraseParamNames abi :
  signaturesOf (List.map eraseParamNames abi) = signaturesOf abi.
Proof.
  unfold signaturesOf. rewrite List.map_map. do 2 f_equal.
  apply List.map_ext, formatAbiItemSignature_eraseParamNames.
Qed.

Lemma signaturesOf_renamed abi1 abi2 :
  sameUpToParamNames abi1 abi2 -> signaturesOf abi1 = signaturesOf abi2.
Proof.
  unfold sameUpToParamNames. intros E.
  now rewrite <- (signaturesOf_eraseParamNames abi1), E, signaturesOf_eraseParamNames.
Qed.

Lemma In_signaturesOf abi s :
  In s (signaturesOf abi)
  <-> exists item, In item abi /\ formatAbiItemSignature item = Some s.
Proof.
  unfold signaturesOf, filterNotNull.
  rewrite JsFacts.sort_In, in_flat_map. split.
  - intros (o & Ho & Hs). apply in_map_iff in Ho as (item & <- & Hitem).
    exists item. split; [exact Hitem|].
    destruct (formatAbiItemSignature item); [|destruct Hs].
    destruct Hs as [-> | []]. reflexivity.
  - intros (item & Hitem & E). exists (Some s). split; [|now left].
    apply in_map_iff. eauto.
Qed.

(** *** [buildManifest] *)

Section BuildManifestFacts.
Context `{Collator} `{AbiParser}.

Lemma parseAbiFromModuleContent_null content :
  Js.includes content "[" = false
  \/ Js.includes content "] as const;" = false
  \/ JSON_parse (Js.slice content (Js.indexOf content "[")
                          (Js.lastIndexOf content "] as const;" + 1)) = None ->
  parseAbiFromModuleContent content = None.
Proof.
  unfold parseAbiFromModuleContent. intros [E | [E | E]].
  - now rewrite (JsFacts.indexOf_absent _ _ E).
  - rewrite (JsFacts.lastIndexOf_absent _ _ E). cbn. now rewrite orb_true_r.
  - rewrite E. now destruct (_ || _).
Qed.

Lemma entriesWith_app signatures ms1 ms2 :
  entriesWith signatures (ms1 ++ ms2)
  = (entriesWith signatures ms1 ++ entriesWith signatures ms2)%list.
Proof.
  induction ms1 as [|m ms1 IH]; [reflexivity|].
  cbn [app entriesWith]. rewrite IH.
  now destruct (parseAbiFromModuleContent (moduleContent m)).
Qed.

Lemma entriesWith_skip signatures before m after :
  parseAbiFromModuleContent (moduleContent m) = None ->
  entriesWith signatures (before ++ m :: after)
  = entriesWith signatures (before ++ after).
Proof.
  intros E. rewrite !entriesWith_app. cbn [entriesWith]. now rewrite E.
Qed.

Lemma In_entriesWith signatures ms key sigs :
  In (key, sigs) (entriesWith signatures ms)
  <-> exists m abi,
      In m ms /\ keyOf m = key
      /\ parseAbiFromModuleContent (moduleContent m) = Some abi
      /\ signatures abi = sigs.
Proof.
  induction ms as [|m ms IH]; cbn [entriesWith].
  - split; [intros [] | intros (? & ? & [] & _)].
  - destruct (parseAbiFromModuleContent (moduleContent m)) as [abi|] eqn:E.
    + cbn [In]. rewrite IH. split.
      * intros [Heq | (m' & abi' & Hm & Hk & Hp & Hs)].
        -- injection Heq as <- <-. exists m, abi. auto.
        -- exists m', abi'. auto.
      * intros (m' & abi' & [<- | Hm] & Hk & Hp & Hs).
        -- left. rewrite E in Hp. injection Hp as <-. now rewrite Hk, Hs.
        -- right. exists m', abi'. auto.
    + rewrite IH. split.
      * intros (m' & abi' & Hm & Hrest). exists m', abi'. split; [now right | exact Hrest].
      * intros (m' & abi' & [<- | Hm] & Hk & Hp & Hs); [congruence|].
        exists m', abi'. auto.
Qed.

Lemma Object_fromEntries_lookup_from entries (manifest : AbiManifest) key :
  fold_left (fun manifest entry => <[fst entry := snd entry]> manifest) entries manifest !! key
  = fold_left (fun found entry => if String.eqb (fst entry) key then Some (snd entry) else found)
              entries (manifest !! key).
Proof.
  revert manifest. induction entries as [|[k v] entries IH]; intros manifest; [reflexivity|].
  cbn [fold_left fst snd]. rewrite IH.
  destruct (String.eqb_spec k key) as [->|Hne].
  - now rewrite lookup_insert_eq.
  - now rewrite lookup_insert_ne.
Qed.

Lemma Object_fromEntries_lookup entries key :
  Object_fromEntries entries !! key = lastOf key entries.
Proof.
  unfold Object_fromEntries, lastOf.
  now rewrite Object_fromEntries_lookup_from, lookup_empty.
Qed.

Lemma lastOf_filter key entries :
  lastOf key entries
  = lastOf key (List.filter (fun entry => String.eqb (fst entry) key) entries).
Proof.
  unfold lastOf. generalize (@None (list string)).
  induction entries as [|e entries IH]; intros found; [reflexivity|].
  cbn [fold_left List.filter]. destruct (String.eqb (fst e) key) eqn:E.
  - cbn [fold_left]. rewrite E. apply IH.
  - apply IH.
Qed.

Lemma lastOf_app key es1 es2 :
  lastOf key (es1 ++ es2)
  = match lastOf key es2 with Some sigs => Some sigs | None => lastOf key es1 end.
Proof.
  unfold lastOf. rewrite fold_left_app. generalize (fold_left
    (fun found entry => if String.eqb (fst entry) key then Some (snd entry) else found)
    es1 None).
  induction es2 as [|e es2 IH] using rev_ind; intros found.
  - now destruct found.
  - rewrite !fold_left_app. cbn [fold_left].
    destruct (String.eqb (fst e) key); [reflexivity | apply IH].
Qed.

Lemma lastOf_None key entries :
  lastOf key entries = None <-> forall sigs, ~ In (key, sigs) entries.
Proof.
  induction entries as [|[k v] entries IH] using rev_ind.
  - split; [intros _ sigs [] | reflexivity].
  - rewrite lastOf_app. unfold lastOf at 1. cbn [fold_left fst snd].
    destruct (String.eqb_spec k key) as [->|Hne].
    + split; [discriminate|]. intros Hn. exfalso. apply (Hn v).
      apply in_or_app. right. now left.
    + rewrite IH. split.
      * intros Hn sigs Hin. apply in_app_or in Hin as [Hin | [Heq | []]].
        -- exact (Hn sigs Hin).
        -- congruence.
      * intros Hn sigs Hin. apply (Hn sigs). apply in_or_app. now left.
Qed.

Lemma lastOf_In key entries sigs :
  lastOf key entries = Some sigs -> In (key, sigs) entries.
Proof.
  induction entries as [|[k v] entries IH] using rev_ind; [discriminate|].
  rewrite lastOf_app. unfold lastOf at 1. cbn [fold_left fst snd].
  destruct (String.eqb_spec k key) as [->|Hne].
  - intros Heq. injection Heq as <-. apply in_or_app. right. now left.
  - intros Hl. apply in_or_app. left. now apply IH.
Qed.

(** The sort by key does not move an entry past another one with the same
    key. *)
Lemma sortWith_compareEntries_filter `{!CollatorLaws} key entries :
  List.filter (fun entry => String.eqb (fst entry) key) (Js.sortWith compareEntries entries)
  = List.filter (fun entry => String.eqb (fst entry) key) entries.
Proof.
  apply JsFacts.sortBy_filter. intros x y Hx Hy.
  apply String.eqb_eq in Hx, Hy. unfold compareEntries. rewrite Hx, Hy.
  apply Z.leb_le.
  pose proof (localeCompare_antisym key key) as Hs.
  destruct (localeCompare key key); cbn in Hs; [lia | discriminate | lia].
Qed.

Lemma buildManifestWith_lookup `{!CollatorLaws} signatures ms key :
  buildManifestWith signatures ms !! key = lastOf key (entriesWith signatures ms).
Proof.
  unfold buildManifestWith.
  rewrite Object_fromEntries_lookup, lastOf_filter, sortWith_compareEntries_filter.
  symmetry. apply lastOf_filter.
Qed.

(** Every entry of the manifest comes from a module that could be read. *)
Lemma buildManifestWith_lookup_In signatures ms key sigs :
  buildManifestWith signatures ms !! key = Some sigs ->
  In (key, sigs) (entriesWith signatures ms).
Proof.
  unfold buildManifestWith. rewrite Object_fromEntries_lookup. intros Hl.
  apply lastOf_In in Hl. revert Hl. apply Permutation_in, JsFacts.sortBy_perm.
Qed.

Lemma buildManifestWith_lookup_None signatures ms key :
  (forall m, In m ms -> keyOf m = key ->
             parseAbiFromModuleContent (moduleContent m) = None) ->
  buildManifestWith signatures ms !! key = None.
Proof.
  intros Hnone. unfold buildManifestWith. rewrite Object_fromEntries_lookup.
  apply lastOf_None. intros sigs Hin.
  apply (Permutation_in _ (JsFacts.sortBy_perm _ _)) in Hin.
  apply In_entriesWith in Hin as (m & abi & Hm & Hk & Hp & _).
  rewrite (Hnone m Hm Hk) in Hp. discriminate.
Qed.

End BuildManifestFacts.

(** *** [formatAbiItem] of the package [abitype] *)

Lemma append_inv_head (x a b : string) : x ++ a = x ++ b -> a = b.
Proof.
  induction x as [|c x IH]; [easy|].
  rewrite !JsFacts.append_cons. intros E. injection E as E. now apply IH.
Qed.

Lemma formatAbiParameter_named p n :
  Param.name p = Some n -> n <> "" ->
  Abitype.formatAbiParameter p
  = Abitype.formatAbiParameter (Abitype.unnamed p) ++ " " ++ n.
Proof.
  destruct p as [name internalType type indexed components].
  cbn [Param.name]. intros [= ->] Hne.
  destruct n as [|c n]; [contradiction|].
  destruct components as [cs|], indexed as [[|]|]; reflexivity.
Qed.

(** The cases that the tests of the repository record for the package. *)
Example formatAbiItem_contract_tests :
  let item type name inputs outputs stateMutability :=
    {| type := type; name := name; inputs := inputs; outputs := outputs;
       stateMutability := stateMutability |} in
  Abitype.formatAbiItem
    (item "function" (Some "balanceOf") (Some [named "owner" "address"])
          (Some [named "" "uint256"]) (Some "view"))
  = "function balanceOf(address owner) view returns (uint256)"
  /\ Abitype.formatAbiItem
       (item "function" (Some "approve")
             (Some [named "spender" "address"; named "value" "uint256"])
             (Some [named "" "bool"]) (Some "nonpayable"))
     = "function approve(address spender, uint256 value) returns (bool)"
  /\ Abitype.formatAbiItem
       (item "function" (Some "transfer")
             (Some [named "to" "address"; named "amount" "uint256"])
             (Some []) (Some "nonpayable"))
     = "function transfer(address to, uint256 amount)"
  /\ Abitype.formatAbiItem
       (item "function" (Some "totalSupply") (Some []) (Some [named "" "uint256"])
             (Some "view"))
     = "function totalSupply() view returns (uint256)"
  /\ Abitype.formatAbiItem
       (item "event" (Some "Transfer")
             (Some [namedIndexed "from" "address" true;
                    namedIndexed "to" "address" true;
                    namedIndexed "value" "uint256" false])
             None None)
     = "event Transfer(address indexed from, address indexed to, uint256 value)"
  /\ Abitype.formatAbiItem
       (item "error" (Some "InsufficientBalance")
             (Some [named "account" "address"; named "balance" "uint256"]) None None)
     = "error InsufficientBalance(address account, uint256 balance)"
  /\ Abitype.formatAbiItem (item "error" (Some "ZeroAddress") (Some []) None None)
     = "error ZeroAddress()"
  /\ Abitype.formatAbiItem
       (item "constructor" None
             (Some [named "owner" "address"; named "amount" "uint256"]) None
             (Some "nonpayable"))
     = "constructor(address owner, uint256 amount)"
  /\ Abitype.formatAbiItem (item "fallback" None None None (Some "nonpayable"))
     = "fallback() external"
  /\ Abitype.formatAbiItem (item "receive" None None None (Some "payable"))
     = "receive() external payable"
  /\ Abitype.formatAbiItem
       (item "function" (Some "getPrice") (Some [named "token" "address"])
             (Some [namedTuple "" "tuple"
                               [named "price" "uint256"; named "timestamp" "uint256"]])
             (Some "view"))
     = "function getPrice(address token) view returns ((uint256 price, uint256 timestamp))".
Proof. repeat split. Qed.

Section BuildManifestClaims.
Context `{Collator} `{AbiParser}.

Lemma entriesWith_renamed ms1 ms2 :
  Forall2 renamedParams ms1 ms2 ->
  entriesWith signaturesOf ms1 = entriesWith signaturesOf ms2.
Proof.
  induction 1 as [|m1 m2 ms1 ms2 [Hpath Habi] _ IH]; [reflexivity|].
  cbn [entriesWith]. unfold keyOf. rewrite Hpath, IH.
  destruct (parseAbiFromModuleContent (moduleContent m1)) as [abi1|],
           (parseAbiFromModuleContent (moduleContent m2)) as [abi2|];
    try contradiction; [|reflexivity].
  now rewrite (signaturesOf_renamed abi1 abi2 Habi).
Qed.


(** In the revision that formats with [abitype] two such lists have the
    same manifest under every formatter that does not read the name of a
    parameter; the formatter of the package does read it. *)
Remark buildManifestAbitype_renamed formatAbiItem ms1 ms2 :
  (forall item, formatAbiItem item = formatAbiItem (eraseParamNames item)) ->
  Forall2 renamedParams ms1 ms2 ->
  buildManifestAbitype formatAbiItem ms1 = buildManifestAbitype formatAbiItem ms2.
Proof.
  intros Hfmt Hren. unfold buildManifestAbitype, buildManifestWith. f_equal. f_equal.
  induction Hren as [|m1 m2 ms1 ms2 [Hpath Habi] _ IH]; [reflexivity|].
  cbn [entriesWith]. unfold keyOf. rewrite Hpath, IH.
  destruct (parseAbiFromModuleContent (moduleContent m1)) as [abi1|],
           (parseAbiFromModuleContent (moduleContent m2)) as [abi2|];
    try contradiction; [|reflexivity].
  do 3 f_equal.
  rewrite (List.map_ext _ _ Hfmt abi1), (List.map_ext _ _ Hfmt abi2).
  now rewrite <- !(List.map_map eraseParamNames formatAbiItem), Habi.
Qed.

(** The keys of a manifest are the paths of the modules that can be read,
    and the signatures of a key are those of such a module. *)
Lemma buildManifestWith_is_Some signatures ms key :
  is_Some (buildManifestWith signatures ms !! key)
  <-> exists m, In m ms /\ keyOf m = key
                /\ is_Some (parseAbiFromModuleContent (moduleContent m)).
Proof.
  split.
  - intros [sigs Hl]. apply buildManifestWith_lookup_In, In_entriesWith in Hl
      as (m & abi & Hm & Hk & Hp & _).
    exists m. rewrite Hp. eauto.
  - intros (m & Hm & Hk & [abi Hp]).
    destruct (buildManifestWith signatures ms !! key) as [sigs|] eqn:E; [eauto|].
    exfalso. unfold buildManifestWith in E. rewrite Object_fromEntries_lookup in E.
    apply (proj1 (lastOf_None _ _) E (signatures abi)).
    apply JsFacts.sortBy_In, In_entriesWith. exists m, abi. auto.
Qed.

Lemma buildManifestWith_lookup_module signatures ms key sigs :
  buildManifestWith signatures ms !! key = Some sigs ->
  exists m abi, In m ms /\ keyOf m = key
                /\ parseAbiFromModuleContent (moduleContent m) = Some abi
                /\ sigs = signatures abi.
Proof.
  intros Hl. apply buildManifestWith_lookup_In, In_entriesWith in Hl
    as (m & abi & Hm & Hk & Hp & <-).
  exists m, abi. auto.
Qed.

(** A module that cannot be read adds nothing, whatever formats the
    signatures. *)
Lemma buildManifestWith_skips signatures before m after :
  parseAbiFromModuleContent (moduleContent m) = None ->
  buildManifestWith signatures (before ++ m :: after)
  = buildManifestWith signatures (before ++ after).
Proof.
  intros E. unfold buildManifestWith. now rewrite (entriesWith_skip _ _ _ _ E).
Qed.


(** The same holds in the revision that formats with [abitype]. *)
Remark buildManifestAbitype_skips formatAbiItem (before : list GeneratedModule) m after :
  parseAbiFromModuleContent (moduleContent m) = None ->
  buildManifestAbitype formatAbiItem (before ++ m :: after)
  = buildManifestAbitype formatAbiItem (before ++ after).
Proof. apply buildManifestWith_skips. Qed.

Lemma buildManifestWith_last `{!CollatorLaws} signatures before m after abi :
  parseAbiFromModuleContent (moduleContent m) = Some abi ->
  (forall m', In m' after -> keyOf m' = keyOf m ->
              parseAbiFromModuleContent (moduleContent m') = None) ->
  buildManifestWith signatures (before ++ m :: after) !! keyOf m = Some (signatures abi).
Proof.
  intros Hp Hafter. rewrite buildManifestWith_lookup.
  change (m :: after) with ([m] ++ after)%list.
  rewrite !entriesWith_app, !lastOf_app.
  assert (E : lastOf (keyOf m) (entriesWith signatures after) = None).
  { apply lastOf_None. intros sigs Hin.
    apply In_entriesWith in Hin as (m' & abi' & Hm' & Hk & Hp' & _).
    rewrite (Hafter m' Hm' Hk) in Hp'. discriminate. }
  rewrite E. cbn [entriesWith]. rewrite Hp.
  unfold lastOf. cbn [fold_left fst snd]. now rewrite String.eqb_refl.
Qed.

(** C10, as the code has it. Among the modules of a key, the last one whose
    content can be read gives the signatures of the key, and the manifest
    has no entry for a key none of whose modules can be read. *)
Theorem buildManifest_last_readable_wins `{!CollatorLaws} (ms : list GeneratedModule) key :
  (forall before m after sigs,
      ms = (before ++ m :: after)%list ->
      keyOf m = key ->
      signaturesOfModule m = Some sigs ->
      (forall m', In m' after -> keyOf m' = key -> signaturesOfModule m' = None) ->
      buildManifest ms !! key = Some sigs)
  /\ ((forall m, In m ms -> keyOf m = key -> signaturesOfModule m = None) ->
      buildManifest ms !! key = None).
Proof.
  split.
  - intros before m after sigs -> <- Hsigs Hafter. unfold signaturesOfModule in *.
    destruct (parseAbiFromModuleContent (moduleContent m)) as [abi|] eqn:Hp;
      [|discriminate].
    injection Hsigs as <-. apply buildManifestWith_last; [exact Hp|].
    intros m' Hm' Hk. specialize (Hafter m' Hm' Hk).
    now destruct (parseAbiFromModuleContent (moduleContent m')).
  - intros Hnone. apply buildManifestWith_lookup_None.
    intros m Hm Hk. specialize (Hnone m Hm Hk). unfold signaturesOfModule in Hnone.
    now destruct (parseAbiFromModuleContent (moduleContent m)).
Qed.

End BuildManifestClaims.

(** *** The claims on concrete modules *)

Section Examples.
Import Reference ReferenceFacts.

Example buildManifest_token :
  buildManifest [token (balanceOfAbi "owner")]
  = {[ "token" := ["function balanceOf(address) view returns (uint256)"] ]}.
Proof. vm_compute. reflexivity. Qed.

(** The manifest that the tests of the repository expect of the revision
    that formats with [abitype]. *)
Example buildManifestAbitype_test :
  buildManifestAbitype Abitype.formatAbiItem
    [makeModule "z/second.ts" "second"
       [JObj [("type", JStr "function"); ("name", JStr "beta"); ("inputs", JArr []);
              ("outputs", JArr []); ("stateMutability", JStr "view")];
        JObj [("type", JStr "function"); ("name", JStr "alpha"); ("inputs", JArr []);
              ("outputs", JArr []); ("stateMutability", JStr "view")]];
     makeModule "a/first.ts" "first"
       [JObj [("type", JStr "event"); ("name", JStr "Transfer");
              ("inputs", JArr [JObj [("name", JStr "from"); ("type", JStr "address");
                                     ("indexed", JBool true)]])]]]
  = {[ "a/first" := ["event Transfer(address indexed from)"];
       "z/second" := ["function alpha() view"; "function beta() view"] ]}.
Proof. vm_compute. reflexivity. Qed.




(** C10, as the claim words it: the key holds the signatures of the last
    module of the key. Here the last module of the key ["token"] cannot be
    read and has no signatures; the key holds those of the module before
    it. *)
Lemma buildManifest_last_module_counterexample :
  let good := token receiveAbi in
  let bad := withContent (token receiveAbi) "const foo = 42;" in
  keyOf good = keyOf bad
  /\ List.last [good; bad] good = bad
  /\ signaturesOfModule bad = None
  /\ buildManifest [good; bad] !! keyOf bad = Some ["receive()"]
  /\ buildManifest [good; bad] !! keyOf bad <> signaturesOfModule bad.
Proof.
  intros good bad. repeat split; vm_compute; try reflexivity. discriminate.
Qed.

Lemma buildManifest_last_readable_wins_witness :
  let good := token receiveAbi in
  let bad := withContent (token receiveAbi) "const foo = 42;" in
  buildManifest [token (balanceOfAbi "owner"); good; bad] !! "token" = Some ["receive()"]
  /\ buildManifest [bad] !! "token" = None.
Proof.
  intros good bad. split.
  - apply (proj1 (buildManifest_last_readable_wins
                    [token (balanceOfAbi "owner"); good; bad] "token")
                 [token (balanceOfAbi "owner")] good [bad] ["receive()"]);
      try (vm_compute; reflexivity).
    intros m' [<- | []] _. vm_compute. reflexivity.
  - apply (proj2 (buildManifest_last_readable_wins [bad] "token")).
    intros m [<- | []] _. vm_compute. reflexivity.
Defined.

End Examples.

(** *** [diffManifests] *)

Lemma difference_spec xs ys :
  List.NoDup xs -> sortedDifference (difference xs ys) xs ys.
Proof.
  intros Hxs. unfold sortedDifference, difference. split; [|split].
  - apply JsFacts.sort_sorted.
  - apply JsFacts.sort_NoDup, JsFacts.NoDup_filter_list, Hxs.
  - intros s. rewrite JsFacts.sort_In, filter_In, negb_true_iff, JsFacts.has_false.
    reflexivity.
Qed.

Lemma difference_nil xs ys :
  (forall x, In x xs -> In x ys) -> difference xs ys = [].
Proof.
  intros Hsub. unfold difference. rewrite JsFacts.filter_none; [reflexivity|].
  intros x Hx. apply negb_false_iff, JsFacts.has_In, Hsub, Hx.
Qed.

Lemma difference_nonempty xs ys :
  (0 <? List.length (difference xs ys))%nat = true
  <-> exists s, In s xs /\ ~ In s ys.
Proof.
  unfold difference. split.
  - intros Hlen. apply Nat.ltb_lt in Hlen.
    destruct (Js.sort _) as [|s l] eqn:E; [cbn in Hlen; lia|].
    exists s. assert (Hs : In s (Js.sort (List.filter (fun x => negb (Js.has ys x)) xs)))
      by (rewrite E; now left).
    apply JsFacts.sort_In, filter_In in Hs as [Hs Hn].
    split; [exact Hs|]. now apply JsFacts.has_false, negb_true_iff.
  - intros (s & Hs & Hn). apply Nat.ltb_lt.
    assert (Hin : In s (Js.sort (List.filter (fun x => negb (Js.has ys x)) xs))).
    { apply JsFacts.sort_In, filter_In. split; [exact Hs|].
      now apply negb_true_iff, JsFacts.has_false. }
    destruct (Js.sort _); [destruct Hin | cbn; lia].
Qed.

Lemma Object_keys_In (manifest : AbiManifest) key :
  In key (Object_keys manifest) <-> is_Some (manifest !! key).
Proof.
  unfold Object_keys. rewrite <- list_elem_of_In, list_elem_of_fmap. split.
  - intros ([k v] & -> & Hkv). apply elem_of_map_to_list in Hkv. eauto.
  - intros [v Hv]. exists (key, v). split; [reflexivity|].
    now apply elem_of_map_to_list.
Qed.

Lemma diffKey_entryFor previous current changed key :
  diffKey previous current (Object_keys previous) changed key
  = match entryFor previous current key with
    | Some d => <[key := d]> changed
    | None => changed
    end.
Proof.
  unfold diffKey, entryFor.
  destruct (Js.has (Object_keys previous) key) eqn:E.
  - apply JsFacts.has_In, Object_keys_In in E as [v ->]. cbn [negb].
    now destruct (_ || _).
  - apply JsFacts.has_false in E. rewrite Object_keys_In in E.
    destruct (previous !! key); [exfalso; eauto | reflexivity].
Qed.

Lemma changed_lookup previous current keys acc key :
  fold_left (diffKey previous current (Object_keys previous)) keys acc !! key
  = match (if Js.has keys key then entryFor previous current key else None) with
    | Some d => Some d
    | None => acc !! key
    end.
Proof.
  revert acc. induction keys as [|k keys IH]; intros acc; [reflexivity|].
  cbn [fold_left]. rewrite IH, diffKey_entryFor.
  unfold Js.has. cbn [existsb]. fold (Js.has keys key).
  destruct (String.eqb_spec key k) as [->|Hne]; cbn [orb].
  - destruct (Js.has keys k); destruct (entryFor previous current k) as [d|];
      try reflexivity.
    now rewrite lookup_insert_eq.
  - destruct (Js.has keys key), (entryFor previous current key);
      try reflexivity;
      destruct (entryFor previous current k); try reflexivity;
      now rewrite lookup_insert_ne.
Qed.

Lemma changed_entryFor previous current key :
  is_Some (current !! key) ->
  changed (diffManifests previous current) !! key = entryFor previous current key.
Proof.
  intros Hc. cbn [diffManifests changed]. rewrite changed_lookup.
  rewrite (proj2 (JsFacts.has_In _ _)) by now apply Object_keys_In.
  now destruct (entryFor previous current key).
Qed.

Lemma fold_left_unchanged {A B : Type} (f : A -> B -> A) (l : list B) (acc : A) :
  (forall a x, In x l -> f a x = a) -> fold_left f l acc = acc.
Proof.
  revert acc. induction l as [|x l IH]; intros acc Hf; [reflexivity|].
  cbn [fold_left]. rewrite Hf by now left.
  apply IH. intros a y Hy. apply Hf. now right.
Qed.

Lemma entryFor_same manifest key : entryFor manifest manifest key = None.
Proof.
  unfold entryFor. destruct (manifest !! key); [|reflexivity].
  now rewrite difference_nil.
Qed.

Lemma diffManifests_same (manifest : AbiManifest) :
  diffManifests manifest manifest = {| added := []; removed := []; changed := ∅ |}.
Proof.
  unfold diffManifests. rewrite difference_nil by auto.
  rewrite fold_left_unchanged; [reflexivity|].
  intros a key _. now rewrite diffKey_entryFor, entryFor_same.
Qed.

Lemma isEmptyDiff_same (manifest : AbiManifest) :
  isEmptyDiff (diffManifests manifest manifest) = true.
Proof. now rewrite diffManifests_same. Qed.


Section DiffExamples.
Import Reference.

Example diffManifests_scenario :
  changed (diffManifests previousX currentX) !! "x"
  = Some {| Items.added := ["function h() nonpayable"];
            Items.removed := ["function g() view"] |}
  /\ added (diffManifests ∅ {[ "a" := ["function foo() view"] ]}) = ["a"]
  /\ removed (diffManifests ∅ {[ "a" := ["function foo() view"] ]}) = [].
Proof. repeat split; vm_compute; reflexivity. Qed.


End DiffExamples.

(** *** [resolveBaseVersion] *)

(** C4. For the tag ["latest"] the result is the version looked up for
    ["latest"], which may be [null]. For another tag, when the registry has
    a version for the tag and one for ["latest"], the result is the latest
    one if it is not older than that of the tag, ties included, and that of
    the tag if it is newer; when the registry has one of the two it is the
    result, and the result is [null] when it has none. *)
Theorem resolveBaseVersion_contract `{SemverLaws} (packageName tag : string)
        (versionLookup : string -> string -> option string) :
  (tag = "latest" ->
   returned (resolveBaseVersion packageName tag versionLookup)
   = Ok (versionLookup packageName "latest"))
  /\ (tag <> "latest" ->
      match versionLookup packageName tag, versionLookup packageName "latest" with
      | Some tagVersion, Some latestVersion =>
          isVersion tagVersion ->
          isVersion latestVersion ->
          (semverGte latestVersion tagVersion = Some true
           /\ returned (resolveBaseVersion packageName tag versionLookup)
              = Ok (Some latestVersion))
          \/ (semverGte latestVersion tagVersion = Some false
              /\ semverGte tagVersion latestVersion = Some true
              /\ returned (resolveBaseVersion packageName tag versionLookup)
                 = Ok (Some tagVersion))
      | Some tagVersion, None =>
          returned (resolveBaseVersion packageName tag versionLookup)
          = Ok (Some tagVersion)
      | None, Some latestVersion =>
          returned (resolveBaseVersion packageName tag versionLookup)
          = Ok (Some latestVersion)
      | None, None =>
          returned (resolveBaseVersion packageName tag versionLookup) = Ok None
      end).
Proof.
  unfold resolveBaseVersion. split.
  - intros ->. reflexivity.
  - intros Htag. destruct (String.eqb_spec tag "latest") as [E|_]; [contradiction|].
    destruct (versionLookup packageName tag) as [t|] eqn:Et,
             (versionLookup packageName "latest") as [l|] eqn:El;
      try reflexivity.
    intros Ht Hl.
    assert (Htruthy : forall v, isVersion v -> Js.truthy v = true).
    { intros [|c v] [b Hb]; [|reflexivity]. rewrite semverGte_empty in Hb. discriminate. }
    rewrite (Htruthy t Ht), (Htruthy l Hl). cbn [andb].
    destruct (semverGte_defined l t Hl Ht) as [[|] Hb]; rewrite Hb; cbn [returned].
    + left. auto.
    + right. split; [reflexivity|]. split; [|reflexivity].
      now apply semverGte_total.
Qed.

Section VersionExamples.
Import Reference ReferenceFacts.

Example resolveBaseVersion_stale_tag :
  resolveBaseVersion "@berachain/abis" "beta" staleBeta
  = {| logged := [UsingLatest "0.1.0" "beta" "0.1.0-beta.2"];
       returned := Ok (Some "0.1.0") |}.
Proof. reflexivity. Qed.

Lemma resolveBaseVersion_contract_witness :
  returned (resolveBaseVersion "@berachain/abis" "latest" staleBeta) = Ok (Some "0.1.0")
  /\ returned (resolveBaseVersion "@berachain/abis" "beta" staleBeta) = Ok (Some "0.1.0")
  /\ returned (resolveBaseVersion "@berachain/abis" "alpha" staleBeta) = Ok (Some "0.1.0").
Proof.
  split; [|split].
  - apply (proj1 (resolveBaseVersion_contract "@berachain/abis" "latest" staleBeta)).
    reflexivity.
  - assert (Hbeta : isVersion "0.1.0-beta.2") by (eexists; vm_compute; reflexivity).
    assert (Hlatest : isVersion "0.1.0") by (eexists; vm_compute; reflexivity).
    assert (Htag : "beta" <> "latest") by discriminate.
    destruct (proj2 (resolveBaseVersion_contract "@berachain/abis" "beta" staleBeta)
                    Htag Hbeta Hlatest)
      as [[_ Hr] | [Hf _]]; [exact Hr | vm_compute in Hf; discriminate].
  - apply (proj2 (resolveBaseVersion_contract "@berachain/abis" "alpha" staleBeta)).
    discriminate.
Defined.

End VersionExamples.

End ChangelogFacts.

(** ** Positions in strings *)

Module StringFacts.
Import Js Text JsFacts.

Lemma string_length_app (a b : string) :
  String.length (a ++ b) = (String.length a + String.length b)%nat.
Proof.
  induction a as [|c a IH]; [reflexivity|].
  rewrite append_cons. cbn [String.length]. now rewrite IH.
Qed.

Lemma drop_app (a b : string) : drop (String.length a) (a ++ b) = b.
Proof. induction a as [|c a IH]; [now destruct b|]. now rewrite append_cons. Qed.

Lemma take_app (a b : string) : take (String.length a) (a ++ b) = a.
Proof.
  induction a as [|c a IH]; [now destruct b|].
  rewrite append_cons. cbn [String.length take]. now rewrite IH.
Qed.

Lemma slice_middle (a b c : string) :
  slice (a ++ b ++ c) (Z.of_nat (String.length a))
        (Z.of_nat (String.length a + String.length b)) = b.
Proof.
  unfold slice, clampIndex. rewrite !string_length_app.
  destruct (Z.ltb_spec (Z.of_nat (String.length a)) 0) as [Hlt|_]; [lia|].
  destruct (Z.ltb_spec (Z.of_nat (String.length a + String.length b)) 0) as [Hlt|_]; [lia|].
  rewrite !Z.min_l by lia.
  replace (Z.to_nat (Z.of_nat (String.length a + String.length b) - Z.of_nat (String.length a)))
    with (String.length b) by lia.
  rewrite Nat2Z.id, drop_app. apply take_app.
Qed.

Lemma includes_absent c p s :
  every (isNot c) s = true -> includes s (String c p) = false.
Proof.
  induction s as [|d s IH]; [reflexivity|].
  cbn [every]. rewrite andb_true_iff. intros [Hd Hs].
  cbn [includes startsWith]. unfold isNot in Hd. apply negb_true_iff in Hd.
  rewrite Hd. cbn [andb orb]. now apply IH.
Qed.

Lemma indexOf_first c pre rest :
  every (isNot c) pre = true ->
  indexOf (pre ++ String c rest) (String c "") = Z.of_nat (String.length pre).
Proof.
  induction pre as [|d pre IH].
  - intros _. change ("" ++ String c rest) with (String c rest).
    cbn [indexOf startsWith]. rewrite Ascii.eqb_refl. now destruct rest.
  - cbn [every]. rewrite andb_true_iff. intros [Hd Hpre].
    rewrite append_cons. cbn [indexOf startsWith].
    unfold isNot in Hd. apply negb_true_iff in Hd. rewrite Hd. cbn [andb].
    rewrite IH by exact Hpre.
    destruct (Z.ltb_spec (Z.of_nat (String.length pre)) 0); [lia|].
    cbn [String.length]. lia.
Qed.

Lemma lastIndexOf_last p a post :
  p <> "" ->
  startsWith post p = true ->
  (match post with String _ post' => includes post' p = false | EmptyString => True end) ->
  lastIndexOf (a ++ post) p = Z.of_nat (String.length a).
Proof.
  intros Hp Hstart Hlater.
  induction a as [|d a IH].
  - change ("" ++ post) with post. cbn [String.length]. destruct post as [|e post'].
    + destruct p; [congruence|discriminate].
    + cbn [lastIndexOf]. rewrite (lastIndexOf_absent _ _ Hlater).
      change (0 <=? -1) with false. cbv iota. now rewrite Hstart.
  - rewrite append_cons. cbn [lastIndexOf]. rewrite IH.
    destruct (Z.leb_spec 0 (Z.of_nat (String.length a))); [|lia].
    cbn [String.length]. lia.
Qed.

Lemma startsWith_app p s : startsWith (p ++ s) p = true.
Proof.
  induction p as [|c p IH]; [now destruct s|].
  rewrite append_cons. cbn [startsWith]. now rewrite Ascii.eqb_refl, IH.
Qed.

Lemma startsWith_prefix p q s : startsWith ((p ++ q) ++ s) p = true.
Proof. rewrite append_assoc. apply startsWith_app. Qed.

Lemma startsWith_split s p : startsWith s p = true -> s = p ++ drop (String.length p) s.
Proof.
  revert s. induction p as [|c p IH]; intros s Hs.
  - now destruct s.
  - destruct s as [|d s]; [discriminate|]. cbn [startsWith] in Hs.
    apply andb_true_iff in Hs as [Hc Hs]. apply Ascii.eqb_eq in Hc. subst d.
    rewrite append_cons. cbn [String.length drop]. f_equal. now apply IH.
Qed.

Lemma indexOf_startsWith s p : startsWith s p = true -> indexOf s p = 0.
Proof. intros Hs. destruct s; cbn [indexOf]; now rewrite Hs. Qed.

End StringFacts.

(** ** Sorted rearrangements *)

Module SortingFacts.
Import Js JsFacts.

Section SortUnique.
Context {A : Type} (le : A -> A -> bool).
Hypothesis le_trans : forall a b c, le a b = true -> le b c = true -> le a c = true.

Lemma Sorted_head_least x l :
  Sorted (fun a b => le a b = true) (x :: l) ->
  forall y, In y l -> le x y = true.
Proof.
  intros Hs. apply Sorted_StronglySorted in Hs.
  - inversion Hs as [|? ? _ Hall]. subst. intros y Hy.
    now apply (proj1 (List.Forall_forall _ _) Hall).
  - intros a b c. apply le_trans.
Qed.

Lemma sorted_perm_eq l1 : forall l2,
  (forall a b, In a l1 -> In b l1 -> le a b = true -> le b a = true -> a = b) ->
  Sorted (fun a b => le a b = true) l1 ->
  Sorted (fun a b => le a b = true) l2 ->
  Permutation l1 l2 ->
  l1 = l2.
Proof.
  induction l1 as [|x l1 IH]; intros l2 Hanti H1 H2 Hperm.
  - now apply Permutation_nil in Hperm.
  - destruct l2 as [|y l2]; [now apply Permutation_sym, Permutation_nil in Hperm|].
    assert (Hxy : x = y).
    { assert (Hy : In y (x :: l1))
        by (apply (Permutation_in _ (Permutation_sym Hperm)); now left).
      assert (Hx : In x (y :: l2)) by (apply (Permutation_in _ Hperm); now left).
      destruct Hy as [Hy|Hy]; [exact Hy|]. destruct Hx as [Hx|Hx]; [now symmetry|].
      apply Hanti; [now left | now right | |].
      - now apply (Sorted_head_least x l1).
      - now apply (Sorted_head_least y l2). }
    subst y. f_equal. apply IH.
    + intros a b Ha Hb. apply Hanti; now right.
    + now inversion H1.
    + now inversion H2.
    + now apply Permutation_cons_inv in Hperm.
Qed.

End SortUnique.

(** The same for an order that is transitive among the elements of the
    list. *)
Section SortUniqueOn.
Context {A : Type} (le : A -> A -> bool).

Lemma Sorted_head_least_on l : forall x,
  (forall a b c, In a (x :: l) -> In b (x :: l) -> In c (x :: l) ->
                 le a b = true -> le b c = true -> le a c = true) ->
  Sorted (fun a b => le a b = true) (x :: l) ->
  forall y, In y l -> le x y = true.
Proof.
  induction l as [|z l IH]; intros x Htrans Hs y Hy; [easy|].
  inversion Hs as [|? ? Hs' Hhd]. subst. inversion Hhd as [|? ? Hxz]. subst.
  destruct Hy as [<-|Hy]; [exact Hxz|].
  apply (Htrans x z y);
    [now left | right; now left | right; now right | exact Hxz |].
  apply IH; [|exact Hs' | exact Hy].
  intros a b c Ha Hb Hc. apply Htrans; now right.
Qed.

Lemma sorted_perm_eq_on l1 : forall l2,
  (forall a b c, In a l1 -> In b l1 -> In c l1 ->
                 le a b = true -> le b c = true -> le a c = true) ->
  (forall a b, In a l1 -> In b l1 -> le a b = true -> le b a = true -> a = b) ->
  Sorted (fun a b => le a b = true) l1 ->
  Sorted (fun a b => le a b = true) l2 ->
  Permutation l1 l2 ->
  l1 = l2.
Proof.
  induction l1 as [|x l1 IH]; intros l2 Htrans Hanti H1 H2 Hperm.
  - now apply Permutation_nil in Hperm.
  - destruct l2 as [|y l2]; [now apply Permutation_sym, Permutation_nil in Hperm|].
    assert (Hback : forall a, In a (y :: l2) -> In a (x :: l1))
      by (intros a; apply Permutation_in, Permutation_sym, Hperm).
    assert (Hxy : x = y).
    { assert (Hy : In y (x :: l1)) by (apply Hback; now left).
      assert (Hx : In x (y :: l2)) by (apply (Permutation_in _ Hperm); now left).
      destruct Hy as [Hy|Hy]; [exact Hy|]. destruct Hx as [Hx|Hx]; [now symmetry|].
      apply Hanti; [now left | now right | |].
      - now apply (Sorted_head_least_on l1 x).
      - apply (Sorted_head_least_on l2 y); [|exact H2 | exact Hx].
        intros a b c Ha Hb Hc. apply Htrans; now apply Hback. }
    subst y. f_equal. apply IH.
    + intros a b c Ha Hb Hc. apply Htrans; now right.
    + intros a b Ha Hb. apply Hanti; now right.
    + now inversion H1.
    + now inversion H2.
    + now apply Permutation_cons_inv in Hperm.
Qed.

End SortUniqueOn.

(** In a list without two entries of one key, the key tells the entry. *)
Lemma In_same_key {A B : Type} (l : list (A * B)) a b :
  List.NoDup (List.map fst l) -> In a l -> In b l -> fst a = fst b -> a = b.
Proof.
  induction l as [|x l IH]; [easy|].
  cbn [List.map]. intros Hnd Ha Hb Hk. inversion Hnd as [|? ? Hn Hnd']. subst.
  destruct Ha as [->|Ha], Hb as [->|Hb].
  - reflexivity.
  - exfalso. apply Hn. rewrite Hk. now apply in_map.
  - exfalso. apply Hn. rewrite <- Hk. now apply in_map.
  - now apply IH.
Qed.

(** A comparison that is at most zero in both directions is zero. *)
Lemma localeCompare_both `{Collator} `{!CollatorLaws} a b :
  localeCompare a b <= 0 -> localeCompare b a <= 0 -> localeCompare a b = 0.
Proof.
  intros Hab Hba. pose proof (localeCompare_antisym a b) as Hs.
  destruct (localeCompare a b), (localeCompare b a); cbn in Hs; lia || discriminate.
Qed.

Lemma String_compare_trans a : forall b c,
  String.compare a b <> Gt -> String.compare b c <> Gt -> String.compare a c <> Gt.
Proof.
  induction a as [|x a IH]; intros b c Hab Hbc.
  - destruct c; discriminate.
  - destruct b as [|y b]; [now cbn in Hab|].
    destruct c as [|z c]; [now cbn in Hbc|].
    cbn [String.compare] in *. unfold Ascii.compare in *.
    destruct (N.compare_spec (N_of_ascii x) (N_of_ascii y)) as [Exy|Lxy|Gxy];
      [| |congruence];
      destruct (N.compare_spec (N_of_ascii y) (N_of_ascii z)) as [Eyz|Lyz|Gyz];
      try congruence.
    + rewrite Exy, Eyz, N.compare_refl. now apply (IH b).
    + rewrite Exy. now rewrite (proj2 (N.compare_lt_iff _ _) Lyz).
    + rewrite <- Eyz. now rewrite (proj2 (N.compare_lt_iff _ _) Lxy).
    + rewrite (proj2 (N.compare_lt_iff _ _) (N.lt_trans _ _ _ Lxy Lyz)). discriminate.
Qed.

Lemma codeUnitLe_trans a b c :
  codeUnitLe a b = true -> codeUnitLe b c = true -> codeUnitLe a c = true.
Proof.
  unfold codeUnitLe, String.leb. intros Hab Hbc.
  pose proof (String_compare_trans a b c) as Ht.
  destruct (String.compare a b), (String.compare b c), (String.compare a c);
    try reflexivity; try discriminate; exfalso; apply Ht; congruence.
Qed.

(** A list of strings has one sorted rearrangement. *)
Lemma sort_perm l l' : Permutation l l' -> sort l = sort l'.
Proof.
  intros Hperm. apply (sorted_perm_eq codeUnitLe codeUnitLe_trans).
  - intros a b _ _. apply String.leb_antisym.
  - apply sort_sorted.
  - apply sort_sorted.
  - etransitivity; [apply sortBy_perm|].
    etransitivity; [exact Hperm|]. apply Permutation_sym, sortBy_perm.
Qed.

(** The order of the code units orders every list of keys. *)
Lemma codeUnit_ordersKeys keys : @ordersKeys Reference.codeUnitCollator keys.
Proof.
  split; cbn [localeCompare Reference.codeUnitCollator];
    unfold Reference.codeUnitCompare.
  - intros a b c _ _ _ Hab Hbc.
    pose proof (String_compare_trans a b c) as Ht.
    destruct (String.compare a b), (String.compare b c), (String.compare a c);
      try lia; exfalso; apply Ht; congruence.
  - intros a b _ _ Hab. apply String.compare_eq_iff.
    destruct (String.compare a b); [reflexivity | lia | lia].
Qed.

End SortingFacts.

(** ** Properties of [lib/naming.ts] *)

Module NamingProperties.
Import Js Naming Text JsFacts NamingFacts.

Lemma every_app p (a b : string) : every p (a ++ b) = every p a && every p b.
Proof.
  induction a as [|c a IH]; [reflexivity|].
  rewrite append_cons. cbn [every]. rewrite IH. now rewrite andb_assoc.
Qed.

Lemma every_impl (p q : ascii -> bool) s :
  (forall c, p c = true -> q c = true) -> every p s = true -> every q s = true.
Proof.
  intros Hpq. induction s as [|c s IH]; [reflexivity|].
  cbn [every]. rewrite !andb_true_iff. intros [Hc Hs]. auto.
Qed.

Lemma splitNonAlnum_alnum s : forall cur inSep p,
  every isAlnum cur = true ->
  In p (splitNonAlnum s cur inSep) -> every isAlnum p = true.
Proof.
  induction s as [|c s IH]; intros cur inSep p Hcur Hin.
  - cbn in Hin. destruct Hin as [<-|[]]. exact Hcur.
  - cbn [splitNonAlnum] in Hin. destruct (isAlnum c) eqn:Ec.
    + apply IH in Hin; [exact Hin|]. rewrite every_app, Hcur. cbn. now rewrite Ec.
    + destruct inSep.
      * now apply IH in Hin.
      * destruct Hin as [<-|Hin]; [exact Hcur|]. now apply IH in Hin.
Qed.

Lemma lowerChar_alnum c : isAlnum c = true -> isLowerOrDigit (lowerChar c) = true.
Proof. destruct c as [[] [] [] [] [] [] [] []]; vm_compute; congruence. Qed.

Lemma toLowerCase_alnum s :
  every isAlnum s = true -> every isLowerOrDigit (toLowerCase s) = true.
Proof.
  induction s as [|c s IH]; [reflexivity|].
  cbn [every toLowerCase]. rewrite !andb_true_iff. intros [Hc Hs].
  split; [now apply lowerChar_alnum | auto].
Qed.

Lemma splitWords_tokens s :
  Forall (fun p => p <> "" /\ every isLowerOrDigit p = true) (splitWords s).
Proof.
  apply List.Forall_forall. intros p Hin. split.
  - now apply (splitWords_parts_nonempty s).
  - unfold splitWords in Hin. apply in_map_iff in Hin as (q & <- & Hq).
    apply filter_In in Hq as [Hq _].
    apply toLowerCase_alnum. now apply splitNonAlnum_alnum in Hq.
Qed.


Lemma every_join p sep l :
  every p sep = true -> Forall (fun x => every p x = true) l -> every p (join sep l) = true.
Proof.
  intros Hsep Hl. induction Hl as [|x l Hx Hl IH]; [reflexivity|].
  destruct l as [|y l]; [exact Hx|].
  change (join sep (x :: y :: l)) with (x ++ sep ++ join sep (y :: l)).
  now rewrite !every_app, Hx, Hsep, IH.
Qed.

Lemma markAcronymEnds_noUpper s : every noUpper s = true -> markAcronymEnds s = s.
Proof.
  induction s as [|a t IH]; [reflexivity|].
  cbn [every]. rewrite andb_true_iff. intros [Ha Ht].
  rewrite markAcronymEnds_cons. unfold noUpper in Ha. apply negb_true_iff in Ha.
  rewrite Ha. cbn. now rewrite IH.
Qed.

Lemma markCamelHumps_noUpper s : every noUpper s = true -> markCamelHumps s = s.
Proof.
  induction s as [|a t IH]; [reflexivity|].
  cbn [every]. rewrite andb_true_iff. intros [Ha Ht].
  rewrite markCamelHumps_cons.
  replace (beforeUpper t) with false.
  - rewrite andb_false_r. now rewrite IH.
  - destruct t as [|b t']; [reflexivity|]. cbn in Ht |- *.
    apply andb_true_iff in Ht as [Hb _]. unfold noUpper in Hb.
    now apply negb_true_iff in Hb.
Qed.

Lemma splitNonAlnum_token tok : forall rest cur,
  every isAlnum tok = true ->
  splitNonAlnum (tok ++ rest) cur false = splitNonAlnum rest (cur ++ tok) false.
Proof.
  induction tok as [|c tok IH]; intros rest cur Htok.
  - now rewrite append_nil_r.
  - cbn [every] in Htok. apply andb_true_iff in Htok as [Hc Htok].
    rewrite append_cons. cbn [splitNonAlnum]. rewrite Hc.
    rewrite IH by exact Htok. f_equal.
    rewrite append_assoc. reflexivity.
Qed.

Lemma splitNonAlnum_token_start tok rest inSep :
  tok <> "" -> every isAlnum tok = true ->
  splitNonAlnum (tok ++ rest) "" inSep = splitNonAlnum rest tok false.
Proof.
  destruct tok as [|c tok]; [congruence|]. intros _ Htok.
  cbn [every] in Htok. apply andb_true_iff in Htok as [Hc Htok].
  rewrite append_cons. cbn [splitNonAlnum]. rewrite Hc.
  now rewrite splitNonAlnum_token.
Qed.

Lemma isAlnum_hyphen : isAlnum "-" = false.
Proof. reflexivity. Qed.

Lemma splitNonAlnum_join ts : forall t inSep,
  Forall (fun p => p <> "" /\ every isAlnum p = true) (t :: ts) ->
  splitNonAlnum (join "-" (t :: ts)) "" inSep = t :: ts.
Proof.
  induction ts as [|t2 ts IH]; intros t inSep Hall.
  - apply Forall_inv in Hall as [Hne Ht]. cbn [join].
    rewrite <- (append_nil_r t) at 1.
    now rewrite splitNonAlnum_token_start.
  - pose proof (Forall_inv Hall) as [Hne Ht]. apply Forall_inv_tail in Hall.
    change (join "-" (t :: t2 :: ts)) with (t ++ "-" ++ join "-" (t2 :: ts)).
    rewrite splitNonAlnum_token_start by assumption.
    change ("-" ++ join "-" (t2 :: ts)) with (String "-" (join "-" (t2 :: ts))).
    cbn [splitNonAlnum]. rewrite isAlnum_hyphen.
    f_equal. now apply IH.
Qed.

Lemma lowerChar_noUpper c : isUpper c = false -> lowerChar c = c.
Proof. unfold lowerChar. now intros ->. Qed.

Lemma toLowerCase_noUpper s : every noUpper s = true -> toLowerCase s = s.
Proof.
  induction s as [|c s IH]; [reflexivity|].
  cbn [every toLowerCase]. rewrite andb_true_iff. intros [Hc Hs].
  unfold noUpper in Hc. apply negb_true_iff in Hc.
  now rewrite lowerChar_noUpper, IH.
Qed.

Lemma isLowerOrDigit_noUpper c : isLowerOrDigit c = true -> noUpper c = true.
Proof. destruct c as [[] [] [] [] [] [] [] []]; vm_compute; congruence. Qed.

Lemma isLowerOrDigit_alnum c : isLowerOrDigit c = true -> isAlnum c = true.
Proof. destruct c as [[] [] [] [] [] [] [] []]; vm_compute; congruence. Qed.

Lemma lowercase_tokens_fixed tokens :
  Forall (fun p => p <> "" /\ every isLowerOrDigit p = true) tokens ->
  List.map toLowerCase (List.filter truthy tokens) = tokens.
Proof.
  induction 1 as [|p l [Hne Hp] Hl IH]; [reflexivity|].
  cbn [List.filter]. destruct p as [|c p]; [congruence|].
  cbn [truthy List.map]. f_equal; [|exact IH].
  apply toLowerCase_noUpper. revert Hp. apply every_impl, isLowerOrDigit_noUpper.
Qed.

Lemma splitWords_join tokens :
  Forall (fun p => p <> "" /\ every isLowerOrDigit p = true) tokens ->
  splitWords (join "-" tokens) = tokens.
Proof.
  intros Hall. unfold splitWords.
  assert (Hno : every noUpper (join "-" tokens) = true).
  { apply every_join; [reflexivity|].
    eapply List.Forall_impl; [|exact Hall]. cbv beta. intros p [_ Hp].
    revert Hp. apply every_impl, isLowerOrDigit_noUpper. }
  rewrite replaceAcronymBoundary_marks_all, markAcronymEnds_noUpper by exact Hno.
  rewrite replaceCamelBoundary_marks_all, markCamelHumps_noUpper by exact Hno.
  destruct tokens as [|t ts]; [reflexivity|].
  rewrite splitNonAlnum_join.
  - now apply lowercase_tokens_fixed.
  - eapply List.Forall_impl; [|exact Hall]. cbv beta. intros p [Hne Hp]. split; [exact Hne|].
    revert Hp. apply every_impl, isLowerOrDigit_alnum.
Qed.

(** X2. [toKebabCase] gives a normal form of the segmentation: its result
    segments into the same words as the input, so converting a second time
    changes nothing, and the camel and Pascal forms of the result are those
    of the input. *)
Theorem toKebabCase_resegments (input : string) :
  splitWords (toKebabCase input) = splitWords input
  /\ toKebabCase (toKebabCase input) = toKebabCase input
  /\ toCamelCase (toKebabCase input) = toCamelCase input
  /\ toPascalCase (toKebabCase input) = toPascalCase input.
Proof.
  assert (E : splitWords (toKebabCase input) = splitWords input)
    by apply splitWords_join, splitWords_tokens.
  unfold toKebabCase at 2, toCamelCase, toPascalCase. now rewrite E.
Qed.

Lemma capitalize_alnum p : every isAlnum p = true -> every isAlnum (capitalize p) = true.
Proof.
  destruct p as [|c p]; [reflexivity|]. cbn [capitalize every].
  rewrite !andb_true_iff. intros [Hc Hp]. split; [|exact Hp].
  revert Hc. destruct c as [[] [] [] [] [] [] [] []]; vm_compute; congruence.
Qed.

Lemma join_nonempty sep x l : x <> "" -> join sep (x :: l) <> "".
Proof.
  destruct x as [|c x]; [congruence|]. intros _.
  destruct l; cbn [join]; [discriminate|]. now rewrite append_cons.
Qed.

Lemma capitalize_nonempty p : p <> "" -> capitalize p <> "".
Proof. destruct p; [congruence|discriminate]. Qed.

Lemma splitWords_alnum input :
  Forall (fun p => every isAlnum p = true) (splitWords input).
Proof.
  eapply List.Forall_impl; [|apply splitWords_tokens]. cbv beta. intros p [_ Hp].
  revert Hp. apply every_impl, isLowerOrDigit_alnum.
Qed.

Lemma toCamelCase_alnum input : every isAlnum (toCamelCase input) = true.
Proof.
  pose proof (splitWords_alnum input) as Hal. unfold toCamelCase.
  destruct (splitWords input) as [|p0 rest]; [reflexivity|].
  apply every_join; [reflexivity|]. constructor; [exact (Forall_inv Hal)|].
  apply List.Forall_map. eapply List.Forall_impl; [|exact (Forall_inv_tail Hal)].
  intros p. apply capitalize_alnum.
Qed.

Lemma toPascalCase_alnum input : every isAlnum (toPascalCase input) = true.
Proof.
  pose proof (splitWords_alnum input) as Hal. unfold toPascalCase.
  destruct (splitWords input) as [|p0 rest]; [reflexivity|].
  apply every_join; [reflexivity|].
  apply List.Forall_map. eapply List.Forall_impl; [|exact Hal].
  intros p. apply capitalize_alnum.
Qed.

Lemma toCamelCase_nonempty input : toCamelCase input <> "".
Proof.
  pose proof (splitWords_tokens input) as Hall. unfold toCamelCase.
  destruct (splitWords input) as [|p0 rest]; [discriminate|].
  apply join_nonempty. exact (proj1 (Forall_inv Hall)).
Qed.

Lemma toPascalCase_nonempty input : toPascalCase input <> "".
Proof.
  pose proof (splitWords_tokens input) as Hall. unfold toPascalCase.
  destruct (splitWords input) as [|p0 rest]; [discriminate|].
  cbn [List.map]. apply join_nonempty, capitalize_nonempty.
  exact (proj1 (Forall_inv Hall)).
Qed.

(** X3. The three conversions stay within their alphabets: [toCamelCase]
    and [toPascalCase] return a non-empty string of ASCII letters and
    digits, whatever the input holds, and [toKebabCase] returns lowercase
    letters, digits and hyphens only. *)
Theorem case_conversions_charset (input : string) :
  (toCamelCase input <> "" /\ every isAlnum (toCamelCase input) = true)
  /\ (toPascalCase input <> "" /\ every isAlnum (toPascalCase input) = true)
  /\ every isKebabChar (toKebabCase input) = true.
Proof.
  split; [split; [apply toCamelCase_nonempty | apply toCamelCase_alnum]|].
  split; [split; [apply toPascalCase_nonempty | apply toPascalCase_alnum]|].
  unfold toKebabCase. apply every_join; [reflexivity|].
  eapply List.Forall_impl; [|apply splitWords_tokens]. cbv beta. intros p [_ Hp].
  revert Hp. apply every_impl. intros c Hc. unfold isKebabChar. now rewrite Hc.
Qed.


Lemma join_empty_cons x l : join "" (x :: l) = x ++ join "" l.
Proof. destruct l; cbn [join]; [now rewrite append_nil_r | reflexivity]. Qed.

Lemma toLowerCase_app (a b : string) :
  toLowerCase (a ++ b) = toLowerCase a ++ toLowerCase b.
Proof.
  induction a as [|c a IH]; [reflexivity|].
  rewrite append_cons. cbn [toLowerCase]. now rewrite IH, append_cons.
Qed.

Lemma join_empty_lower l :
  join "" (List.map toLowerCase l) = toLowerCase (join "" l).
Proof.
  induction l as [|x l IH]; [reflexivity|].
  cbn [List.map]. now rewrite !join_empty_cons, toLowerCase_app, IH.
Qed.

Lemma join_empty_truthy l : join "" (List.filter truthy l) = join "" l.
Proof.
  induction l as [|x l IH]; [reflexivity|].
  cbn [List.filter]. destruct x as [|c x]; cbn [truthy].
  - now rewrite join_empty_cons.
  - now rewrite !join_empty_cons, IH.
Qed.

Lemma join_splitNonAlnum s : forall cur inSep,
  join "" (splitNonAlnum s cur inSep) = cur ++ keep isAlnum s.
Proof.
  induction s as [|c s IH]; intros cur inSep.
  - cbn [splitNonAlnum keep join]. now rewrite append_nil_r.
  - cbn [splitNonAlnum keep]. destruct (isAlnum c).
    + rewrite IH, append_assoc. reflexivity.
    + destruct inSep; [apply IH|]. now rewrite join_empty_cons, IH.
Qed.

Lemma keep_markAcronymEnds s : keep isAlnum (markAcronymEnds s) = keep isAlnum s.
Proof.
  induction s as [|a t IH]; [reflexivity|].
  rewrite markAcronymEnds_cons.
  destruct (isUpper a && beforeCapitalizedWord t); cbn [keep];
    change (isAlnum " ") with false; cbv iota; now rewrite IH.
Qed.

Lemma keep_markCamelHumps s : keep isAlnum (markCamelHumps s) = keep isAlnum s.
Proof.
  induction s as [|a t IH]; [reflexivity|].
  rewrite markCamelHumps_cons.
  destruct ((isLower a || isDigit a) && beforeUpper t); cbn [keep];
    change (isAlnum " ") with false; cbv iota; now rewrite IH.
Qed.

(** X1. No letter or digit is lost by [splitWords]: every word is a
    non-empty string of lowercase letters and digits, and the words put
    together are the letters and digits of the input, in their order and in
    lowercase. *)
Theorem splitWords_words_cover_input (input : string) :
  Forall (fun p => p <> "" /\ every isLowerOrDigit p = true) (splitWords input)
  /\ join "" (splitWords input) = toLowerCase (keep isAlnum input).
Proof.
  split; [apply splitWords_tokens|].
  unfold splitWords.
  rewrite join_empty_lower, join_empty_truthy, join_splitNonAlnum.
  rewrite replaceAcronymBoundary_marks_all, replaceCamelBoundary_marks_all.
  rewrite keep_markCamelHumps, keep_markAcronymEnds. reflexivity.
Qed.

End NamingProperties.

(** ** Properties of [lib/discovery.ts] *)

Module DiscoveryProperties.
Import Discovery Text Extract DiscoveryFacts.

Lemma matchesAny_existsb filename patterns relPath :
  matchesAny filename patterns relPath
  = Ok (existsb (fun pattern => test (atomsOf pattern) (targetOf filename relPath pattern))
                patterns).
Proof.
  induction patterns as [|p ps IH]; [reflexivity|].
  rewrite matchesAny_cons. cbn [existsb].
  destruct (test (atomsOf p) (targetOf filename relPath p)); [reflexivity|exact IH].
Qed.

(** X4. [matchesAny] accepts every list of patterns: whatever characters
    a pattern holds, the expression built from it compiles, so the call
    returns and never throws. A file matches a list put together from two
    lists exactly when it matches one of the two. *)
Theorem matchesAny_pattern_lists filename (ps qs : list string) relPath :
  (exists b, matchesAny filename ps relPath = Ok b)
  /\ (matchesAny filename (ps ++ qs) relPath = Ok true
      <-> matchesAny filename ps relPath = Ok true
          \/ matchesAny filename qs relPath = Ok true).
Proof.
  rewrite !matchesAny_existsb. split; [eauto|].
  rewrite existsb_app.
  destruct (existsb _ ps), (existsb _ qs); cbn; intuition congruence.
Qed.

Lemma test_literal pattern : forall target,
  every notWildcard pattern = true ->
  test (atomsOf pattern) target = String.eqb pattern target.
Proof.
  induction pattern as [|c p IH]; intros target Hlit.
  - destruct target; reflexivity.
  - cbn [every] in Hlit. apply andb_true_iff in Hlit as [Hc Hp].
    cbn [atomsOf]. unfold atomOf. unfold notWildcard in Hc.
    apply negb_true_iff, orb_false_iff in Hc as [-> ->].
    destruct target as [|d t]; [reflexivity|].
    cbn [test String.eqb]. rewrite IH by exact Hp.
    destruct (Ascii.eqb c d); reflexivity.
Qed.

(** X5. A pattern without [*] and [?] matches its own text and nothing
    else: every other character of a pattern, the dot and the brackets
    among them, stands for itself. *)
Theorem matchesAny_literal_pattern filename pattern relPath :
  every notWildcard pattern = true ->
  matchesAny filename [pattern] relPath
  = Ok (String.eqb pattern (targetOf filename relPath pattern)).
Proof.
  intros Hlit. rewrite matchesAny_existsb. cbn [existsb].
  now rewrite orb_false_r, test_literal.
Qed.

Lemma matchesAny_literal_pattern_witness :
  matchesAny "Deploy_s.sol" ["Deploy.s.sol"] None = Ok false
  /\ matchesAny "a+b(1).sol" ["a+b(1).sol"] None = Ok true.
Proof.
  split.
  - exact (matchesAny_literal_pattern "Deploy_s.sol" "Deploy.s.sol" None eq_refl).
  - exact (matchesAny_literal_pattern "a+b(1).sol" "a+b(1).sol" None eq_refl).
Defined.

(** X6. On a file name and a relative path without line terminators
    [matchesAny] is the matching of its documentation: it returns [true]
    exactly when some pattern of the list matches its target with [*] for
    any run of characters and [?] for any single character, the target being
    the relative path for a pattern with a slash and the file name
    otherwise. *)
Theorem matchesAny_glob_semantics filename patterns relPath :
  noLineTerminator filename = true ->
  match relPath with Some p => noLineTerminator p = true | None => True end ->
  matchesAny filename patterns relPath = Ok true
  <-> exists pattern,
      In pattern patterns /\ globMatch pattern (targetOf filename relPath pattern) = true.
Proof.
  intros Hf Hr. rewrite matchesAny_globMatch by assumption.
  split.
  - intros [= E]. apply existsb_exists in E. exact E.
  - intros E. f_equal. apply existsb_exists. exact E.
Qed.

Lemma matchesAny_glob_semantics_witness :
  matchesAny "MockPool.sol" ["I*.sol"; "test/*.sol"] (Some "test/MockPool.sol") = Ok true.
Proof.
  apply (matchesAny_glob_semantics "MockPool.sol" ["I*.sol"; "test/*.sol"]
           (Some "test/MockPool.sol") eq_refl eq_refl).
  exists "test/*.sol". split; [right; left; reflexivity | reflexivity].
Defined.


(** X7. What [normalizeDirs] returns when it returns: the source
    directories are the configured ones (or the default), there is at least
    one, and the output directories are as many as the source directories,
    with one exception: an empty array of output directories is not refused
    and comes back empty. *)
Theorem normalizeDirs_parallel srcDir outDir srcDirs outDirs :
  normalizeDirs srcDir outDir = Ok (srcDirs, outDirs) ->
  srcDirs = toArray "src" srcDir
  /\ srcDirs <> []
  /\ (List.length outDirs = List.length srcDirs
      \/ (outDir = Array [] /\ outDirs = [])).
Proof.
  unfold normalizeDirs.
  destruct (Nat.eqb_spec (List.length (toArray "src" srcDir)) 0) as [E0|E0]; [discriminate|].
  destruct (Nat.ltb_spec 1 (List.length (toArray "out" outDir))) as [H1|H1];
    destruct (Nat.eqb_spec (List.length (toArray "out" outDir))
                           (List.length (toArray "src" srcDir))) as [E|E];
    cbn [andb negb]; try discriminate; intros [= <- <-].
  - split; [reflexivity|]. split; [now destruct (toArray "src" srcDir)|].
    left. destruct (toArray "out" outDir) as [|o [|o' l]]; cbn in *; try lia.
  - split; [reflexivity|]. split; [now destruct (toArray "src" srcDir)|].
    left. destruct (toArray "out" outDir) as [|o [|o' l]]; cbn in *; try lia.
    now rewrite length_map.
  - split; [reflexivity|]. split; [now destruct (toArray "src" srcDir)|].
    destruct outDir as [|o|[|o [|o' l]]]; cbn in *; try lia.
    + left. now rewrite length_map.
    + left. now rewrite length_map.
    + right. split; reflexivity.
    + left. now rewrite length_map.
Qed.

Lemma normalizeDirs_parallel_witness :
  ["a"; "b"] = toArray "src" (Array ["a"; "b"])
  /\ ["a"; "b"] <> []
  /\ (List.length ([] : list string) = List.length ["a"; "b"]
      \/ (Array [] = Array [] /\ ([] : list string) = [])).
Proof.
  exact (normalizeDirs_parallel (Array ["a"; "b"]) (Array []) ["a"; "b"] [] eq_refl).
Defined.


Lemma trimEnd_cons c s :
  isWhiteSpace c = false -> trimEnd (String c s) = String c (trimEnd s).
Proof. intros Hc. cbn [trimEnd]. rewrite Hc. now destruct (trimEnd s). Qed.

Lemma trimEnd_idem s : trimEnd (trimEnd s) = trimEnd s.
Proof.
  induction s as [|c s IH]; [reflexivity|].
  cbn [trimEnd]. destruct (trimEnd s) as [|d t] eqn:E.
  - destruct (isWhiteSpace c) eqn:Ec; [reflexivity|].
    cbn [trimEnd]. now rewrite Ec.
  - cbn [trimEnd]. cbn [trimEnd] in IH. destruct (trimEnd t) as [|e u].
    + destruct (isWhiteSpace d); [discriminate|]. now rewrite IH.
    + now rewrite IH.
Qed.

Lemma trimStart_head s :
  match trimStart s with
  | String c _ => isWhiteSpace c = false
  | EmptyString => True
  end.
Proof.
  induction s as [|c s IH]; [exact I|].
  cbn [trimStart]. destruct (isWhiteSpace c) eqn:Ec; [exact IH | exact Ec].
Qed.

Lemma trim_head s :
  match trim s with
  | String c _ => isWhiteSpace c = false
  | EmptyString => True
  end.
Proof.
  unfold trim. pose proof (trimStart_head s) as Hh.
  destruct (trimStart s) as [|c t]; [exact I|].
  now rewrite trimEnd_cons.
Qed.

Lemma trim_idem s : trim (trim s) = trim s.
Proof.
  pose proof (trim_head s) as Hh. unfold trim at 1.
  destruct (trim s) as [|c t] eqn:E; [reflexivity|].
  cbn [trimStart]. rewrite Hh. rewrite <- E. unfold trim. apply trimEnd_idem.
Qed.

Section ExtractArtifact.
Context `{PathBase}.

(** X8. Every artifact that [extractArtifact] returns has a non-empty
    interface, the array of the parsed file, and a contract name that is not
    empty and has no white space at either end: the trimmed [contractName]
    of the file where that is a string, the trimmed base name of the file
    otherwise. Source id, relative directory and path are passed on. *)
Theorem extractArtifact_record artifactPath sourceId relDir artifact a :
  extractArtifact artifactPath sourceId relDir artifact = Some a ->
  abi artifact = Some (JArr (Artifact.abi a))
  /\ Artifact.abi a <> []
  /\ Artifact.contractName a
     = trim (match contractName artifact with
             | Some (JStr name) => name
             | _ => path_basename artifactPath ".json"
             end)
  /\ Artifact.contractName a <> ""
  /\ trim (Artifact.contractName a) = Artifact.contractName a
  /\ Artifact.sourceId a = sourceId
  /\ Artifact.relDir a = relDir
  /\ Artifact.filePath a = artifactPath.
Proof.
  unfold extractArtifact.
  destruct (abi artifact) as [[| | | |items|]|]; try discriminate.
  destruct items as [|item items]; [discriminate|]. cbn [List.length Nat.eqb].
  set (raw := match contractName artifact with Some (JStr name) => name | _ => _ end).
  pose proof (trim_idem raw) as Hidem.
  destruct (trim raw) as [|c name'] eqn:E; [discriminate|]. cbn [Js.truthy negb].
  intros [= <-]. cbn [Artifact.abi Artifact.contractName Artifact.sourceId
                      Artifact.relDir Artifact.filePath].
  repeat split; try discriminate. exact Hidem.
Qed.

End ExtractArtifact.

Lemma extractArtifact_record_witness :
  let a := Reference.artifact "contracts" "Token" "tokens" Reference.nameAbi in
  @extractArtifact Samples.nodeBasename "/repo/out/Token.sol/Token.json"
    "contracts" "tokens" Samples.foundryArtifact = Some a
  /\ Artifact.contractName a = "Token"
  /\ Artifact.abi a <> [].
Proof.
  intros a.
  assert (E : @extractArtifact Samples.nodeBasename "/repo/out/Token.sol/Token.json"
                "contracts" "tokens" Samples.foundryArtifact = Some a)
    by (vm_compute; reflexivity).
  pose proof (@extractArtifact_record Samples.nodeBasename _ _ _ _ a E)
    as (_ & Habi & Hname & _).
  split; [exact E | split; [exact Hname | exact Habi]].
Defined.


End DiscoveryProperties.

(** ** Properties of [lib/modules.ts] *)

Module ModulesProperties.
Import Js Text Modules Dedupe Changelog JsFacts StringFacts NamingProperties ModulesFacts.

Lemma stringify2_array items :
  exists mid, Json.stringify2 (JArr items) = String "[" (mid ++ "]").
Proof.
  unfold Json.stringify2. destruct items as [|item items].
  - exists "". reflexivity.
  - eexists. cbn [Json.stringifyAt].
    rewrite append_cons. f_equal.
    change ("" ++ ?x) with x.
    rewrite <- !append_assoc. reflexivity.
Qed.

Lemma alnum_not d : isAlnum d = false -> forall e, isAlnum e = true -> isNot d e = true.
Proof.
  intros Hd e He. unfold isNot. apply negb_true_iff.
  destruct (Ascii.eqb_spec d e) as [->|]; congruence.
Qed.

Lemma exportName_without d (name : string) :
  isAlnum d = false ->
  every (isNot d) (Naming.toCamelCase name ++ "Abi") = true.
Proof.
  intros Hd. rewrite every_app. apply andb_true_iff. split.
  - eapply every_impl; [|apply toCamelCase_alnum]. now apply alnum_not.
  - cbn [every]. now rewrite !(alnum_not d Hd) by reflexivity.
Qed.

Section RoundTrip.
Context `{PathLib} `{AbiParser}.

(** X9. What [artifactToModule] writes, [parseAbiFromModuleContent] reads
    back: for every artifact, the text it hands to [JSON.parse] is exactly
    the [JSON.stringify(abi, null, 2)] that went into the module, whatever
    brackets and whatever occurrences of ["] as const;"] the interface
    holds in its strings. *)
Theorem parseAbiFromModuleContent_artifactToModule artifact mainSource :
  parseAbiFromModuleContent (moduleContent (artifactToModule artifact mainSource))
  = JSON_parse (Json.stringify2 (JArr (Artifact.abi artifact))).
Proof.
  unfold parseAbiFromModuleContent, artifactToModule. cbn [moduleContent].
  set (exportName := Naming.toCamelCase (Artifact.contractName artifact) ++ "Abi").
  destruct (stringify2_array (Artifact.abi artifact)) as [mid Emid].
  rewrite Emid.
  set (pre := "export const " ++ exportName ++ " = ").
  set (post := " as const;" ++ Json.nl ++ Json.nl ++ "export default " ++ exportName
               ++ ";" ++ Json.nl).
  set (abiContent := String "[" (mid ++ "]")).
  assert (Econtent :
    "export const " ++ exportName ++ " = " ++ abiContent ++ post
    = pre ++ abiContent ++ post).
  { unfold pre. now rewrite !append_assoc. }
  rewrite Econtent. clear Econtent.
  assert (Hpre : every (isNot "[") pre = true).
  { unfold pre. rewrite !every_app. unfold exportName.
    rewrite (exportName_without "[") by reflexivity. reflexivity. }
  assert (Hpost : every (isNot "]") post = true).
  { unfold post. rewrite !every_app. unfold exportName.
    rewrite (exportName_without "]") by reflexivity. reflexivity. }
  assert (Estart : indexOf (pre ++ abiContent ++ post) "[" = Z.of_nat (String.length pre)).
  { unfold abiContent. rewrite append_cons. now apply indexOf_first. }
  assert (Eend : lastIndexOf (pre ++ abiContent ++ post) "] as const;"
                 = Z.of_nat (String.length pre + String.length mid + 1)).
  { unfold abiContent.
    replace (pre ++ String "[" (mid ++ "]") ++ post)
      with ((pre ++ String "[" mid) ++ String "]" post).
    2:{ rewrite !append_assoc, !append_cons, !append_assoc. reflexivity. }
    rewrite (lastIndexOf_last "] as const;" (pre ++ String "[" mid) (String "]" post)).
    - rewrite string_length_app. cbn [String.length]. f_equal. lia.
    - discriminate.
    - unfold post. reflexivity.
    - now apply includes_absent. }
  rewrite Estart, Eend.
  destruct (Z.eqb_spec (Z.of_nat (String.length pre)) (-1)) as [E|_]; [lia|].
  destruct (Z.eqb_spec (Z.of_nat (String.length pre + String.length mid + 1)) (-1)) as [E|_];
    [lia|].
  cbn [orb]. f_equal.
  replace (Z.of_nat (String.length pre + String.length mid + 1) + 1)
    with (Z.of_nat (String.length pre + String.length abiContent)).
  - apply slice_middle.
  - unfold abiContent. cbn [String.length]. rewrite string_length_app. cbn [String.length]. lia.
Qed.

End RoundTrip.


Lemma Map_get_None {V : Type} (entries : list (string * V)) key :
  Map_get entries key = None <-> ~ In key (List.map fst entries).
Proof.
  induction entries as [|[k v] es IH]; cbn [Map_get List.map In fst].
  - tauto.
  - destruct (String.eqb_spec k key) as [->|Hne].
    + split; [discriminate | tauto].
    + rewrite IH. tauto.
Qed.

Lemma dedupeLoop_invariant mods : forall byKey ws byKey' ws',
  dedupeLoop mods byKey ws = Ok (byKey', ws') ->
  keyed byKey ->
  keyed byKey'
  /\ (List.length byKey' + List.length ws'
      = List.length byKey + List.length ws + List.length mods)%nat
  /\ forall m, In m (List.map snd byKey') -> In m (List.map snd byKey) \/ In m mods.
Proof.
  induction mods as [|m mods IH]; intros byKey ws byKey' ws' Hloop Hkeyed.
  - injection Hloop as <- <-. cbn [List.length]. split; [exact Hkeyed|]. split; [lia|tauto].
  - cbn [dedupeLoop] in Hloop.
    destruct (Map_get byKey (dedupeKey m)) as [existing|] eqn:Eget.
    + destruct (String.eqb (moduleContent existing) (moduleContent m)); [|discriminate].
      apply IH in Hloop as (Hk & Hlen & Hin); [|exact Hkeyed].
      split; [exact Hk|]. split.
      * rewrite List.length_app in Hlen. cbn [List.length] in *. lia.
      * intros x Hx. destruct (Hin x Hx); [tauto|]. right. now right.
    + apply IH in Hloop as (Hk & Hlen & Hin).
      * split; [exact Hk|]. split.
        -- rewrite List.length_app in Hlen. cbn [List.length] in *. lia.
        -- intros x Hx. destruct (Hin x Hx) as [Hb|Hm]; [|right; now right].
           rewrite map_app in Hb. apply in_app_iff in Hb as [Hb|[<-|[]]]; [tauto|].
           right. now left.
      * destruct Hkeyed as [Hnd Hall]. split.
        -- rewrite map_app. cbn [List.map fst].
           apply NoDup_ListNoDup. apply NoDup_app. split; [now apply NoDup_ListNoDup|].
           split; [|apply NoDup_singleton].
           intros k Hk Hk'. apply list_elem_of_In in Hk.
           apply list_elem_of_singleton in Hk'. subst k.
           now apply Map_get_None in Eget.
        -- apply Forall_app. split; [exact Hall|]. now constructor.
Qed.

Lemma sortBy_sorted_id {A : Type} (le : A -> A -> bool) l :
  Sorted (fun a b => le a b = true) l -> sortBy le l = l.
Proof.
  induction 1 as [|x l Hs IH Hhd]; [reflexivity|].
  cbn [sortBy]. rewrite IH. destruct Hhd as [|y l' Hxy]; [reflexivity|].
  cbn [insertSorted]. now rewrite Hxy.
Qed.

Lemma find_none_key key mods :
  ~ In key (List.map dedupeKey mods) ->
  List.find (fun m => String.eqb (dedupeKey m) key) mods = None.
Proof.
  induction mods as [|m mods IH]; [reflexivity|].
  cbn [List.map In List.find]. intros Hn.
  destruct (String.eqb_spec (dedupeKey m) key) as [E|_]; [tauto|].
  apply IH. tauto.
Qed.

Lemma dedupeLoop_distinct mods : forall before ws,
  List.NoDup (List.map dedupeKey (before ++ mods)) ->
  dedupeLoop mods (entriesOf before) ws = Ok (entriesOf (before ++ mods), ws).
Proof.
  induction mods as [|m mods IH]; intros before ws Hnd.
  - now rewrite app_nil_r.
  - cbn [dedupeLoop]. rewrite Map_get_entriesOf, find_none_key.
    + change (entriesOf before ++ [(dedupeKey m, m)])%list
        with (entriesOf before ++ entriesOf [m])%list.
      unfold entriesOf at 1 2. rewrite <- map_app. fold (entriesOf (before ++ [m])).
      rewrite IH; [now rewrite <- app_assoc|]. now rewrite <- app_assoc.
    + rewrite map_app in Hnd. cbn [List.map] in Hnd.
      apply NoDup_remove_2 in Hnd. intros Hin. apply Hnd.
      apply in_app_iff. now left.
Qed.

Section DedupeAny.
Context `{Collator}.

(** X10. Whenever [dedupeAndValidateModules] returns, no two of the
    modules it returns have the same key, every one of them is a module of
    the input, and modules and warnings together are as many as the modules
    of the input: each module is either kept or reported. *)
Theorem dedupeAndValidateModules_unique_keys (mods : list GeneratedModule) result :
  dedupeAndValidateModules mods = Ok result ->
  List.NoDup (List.map dedupeKey (modules result))
  /\ (List.length (modules result) + List.length (warnings result) = List.length mods)%nat
  /\ forall m, In m (modules result) -> In m mods.
Proof.
  unfold dedupeAndValidateModules.
  destruct (dedupeLoop mods [] []) as [[byKey ws]|] eqn:Eloop; [|discriminate].
  intros [= <-]. cbn [modules warnings].
  apply dedupeLoop_invariant in Eloop as ([Hnd Hall] & Hlen & Hin).
  2:{ split; constructor. }
  assert (Hperm : Permutation (sortWith compareModules (List.map snd byKey))
                              (List.map snd byKey)) by apply sortBy_perm.
  split; [|split].
  - eapply Permutation_NoDup; [apply Permutation_map, Permutation_sym, Hperm|].
    replace (List.map dedupeKey (List.map snd byKey)) with (List.map fst byKey); [exact Hnd|].
    rewrite List.map_map. apply map_ext_Forall. exact Hall.
  - rewrite (Permutation_length Hperm), length_map. cbn [List.length] in Hlen. lia.
  - intros m Hm. apply (Permutation_in _ Hperm) in Hm.
    destruct (Hin m Hm) as [[]|Hm']. exact Hm'.
Qed.

(** X12. Modules with pairwise distinct keys all come back: the call
    returns, without a warning, and its modules are a rearrangement of the
    input. *)
Theorem dedupeAndValidateModules_distinct_keys (mods : list GeneratedModule) :
  List.NoDup (List.map dedupeKey mods) ->
  exists out,
    dedupeAndValidateModules mods = Ok {| modules := out; warnings := [] |}
    /\ Permutation out mods.
Proof.
  intros Hnd. unfold dedupeAndValidateModules.
  change (dedupeLoop mods [] []) with (dedupeLoop mods (entriesOf []) []).
  rewrite (dedupeLoop_distinct mods [] []) by exact Hnd.
  eexists. split; [reflexivity|].
  cbn [app]. unfold entriesOf. rewrite List.map_map. cbn [snd].
  rewrite List.map_id. apply sortBy_perm.
Qed.

End DedupeAny.

Section DedupeAgain.
Context `{CollatorLaws}.

(** X11. [dedupeAndValidateModules] is idempotent: running it on the
    modules it returned returns the same modules in the same order, and no
    warning. *)
Theorem dedupeAndValidateModules_idempotent (mods : list GeneratedModule) result :
  dedupeAndValidateModules mods = Ok result ->
  dedupeAndValidateModules (modules result)
  = Ok {| modules := modules result; warnings := [] |}.
Proof.
  intros Hres.
  assert (Hnd : List.NoDup (List.map dedupeKey (modules result))).
  { unfold dedupeAndValidateModules in Hres.
    destruct (dedupeLoop mods [] []) as [[byKey ws]|] eqn:Eloop; [|discriminate].
    injection Hres as <-. cbn [modules].
    apply dedupeLoop_invariant in Eloop as ([Hnd Hall] & _); [|split; constructor].
    eapply Permutation_NoDup;
      [apply Permutation_map, Permutation_sym, (sortBy_perm _ (List.map snd byKey))|].
    replace (List.map dedupeKey (List.map snd byKey)) with (List.map fst byKey); [exact Hnd|].
    rewrite List.map_map. apply map_ext_Forall. exact Hall. }
  assert (Hsorted : Sorted (fun a b => (compareModules a b <=? 0) = true) (modules result)).
  { unfold dedupeAndValidateModules in Hres.
    destruct (dedupeLoop mods [] []) as [[byKey ws]|]; [|discriminate].
    injection Hres as <-. cbn [modules].
    apply sortBy_sorted, compareModules_total. }
  unfold dedupeAndValidateModules.
  change (dedupeLoop (modules result) [] [])
    with (dedupeLoop (modules result) (entriesOf []) []).
  rewrite (dedupeLoop_distinct (modules result) [] []) by exact Hnd.
  cbn [app]. unfold entriesOf. rewrite List.map_map. cbn [snd]. rewrite List.map_id.
  unfold sortWith. now rewrite sortBy_sorted_id.
Qed.

End DedupeAgain.


Section Duplicates.
Context `{PathLib} `{Collator}.

(** X13. The directory is not part of the identity of a contract: two
    artifacts of the same source with the same contract name and the same
    interface give one module, that of the first artifact with its path, and
    a warning for the second, even where their directories differ. *)
Theorem dedupeAndValidateModules_same_contract a1 a2 mainSource :
  Artifact.sourceId a1 = Artifact.sourceId a2 ->
  Artifact.contractName a1 = Artifact.contractName a2 ->
  Artifact.abi a1 = Artifact.abi a2 ->
  dedupeAndValidateModules [artifactToModule a1 mainSource; artifactToModule a2 mainSource]
  = Ok {| modules := [artifactToModule a1 mainSource];
          warnings := ["Duplicate ABI ignored for " ++ Artifact.sourceId a1 ++ ":"
                       ++ Artifact.contractName a1] |}.
Proof.
  intros Es En Ea. unfold dedupeAndValidateModules.
  cbn [dedupeLoop Map_get app].
  assert (Ek : dedupeKey (artifactToModule a2 mainSource)
               = dedupeKey (artifactToModule a1 mainSource)).
  { unfold artifactToModule. cbn [dedupeKey]. now rewrite Es, En. }
  assert (Ec : moduleContent (artifactToModule a1 mainSource)
               = moduleContent (artifactToModule a2 mainSource)).
  { unfold artifactToModule. cbn [moduleContent]. now rewrite En, Ea. }
  rewrite Ek, String.eqb_refl, Ec, String.eqb_refl.
  unfold duplicateWarning. rewrite Ek. reflexivity.
Qed.

End Duplicates.

Section DedupeExamples.
Import Reference ReferenceFacts.

Lemma dedupeAndValidateModules_unique_keys_witness :
  let one := artifactToModule (artifact "contracts" "Token" "tokens" nameAbi) None in
  let other := artifactToModule (artifact "governance" "Governor" "." symbolAbi) None in
  dedupeAndValidateModules [other; one; one]
  = Ok {| modules := [one; other]; warnings := ["Duplicate ABI ignored for contracts:Token"] |}
  /\ List.NoDup (List.map dedupeKey [one; other])
  /\ (List.length [one; other] + 1 = 3)%nat.
Proof.
  intros one other.
  assert (E : dedupeAndValidateModules [other; one; one]
              = Ok {| modules := [one; other];
                      warnings := ["Duplicate ABI ignored for contracts:Token"] |})
    by (vm_compute; reflexivity).
  pose proof (dedupeAndValidateModules_unique_keys [other; one; one] _ E) as (Hnd & Hlen & _).
  split; [exact E | split; [exact Hnd | exact Hlen]].
Defined.

Lemma dedupeAndValidateModules_idempotent_witness :
  let one := artifactToModule (artifact "contracts" "Token" "tokens" nameAbi) None in
  let other := artifactToModule (artifact "governance" "Governor" "." symbolAbi) None in
  dedupeAndValidateModules [one; other] = Ok {| modules := [one; other]; warnings := [] |}.
Proof.
  intros one other.
  assert (E : dedupeAndValidateModules [other; one; one]
              = Ok {| modules := [one; other];
                      warnings := ["Duplicate ABI ignored for contracts:Token"] |})
    by (vm_compute; reflexivity).
  exact (dedupeAndValidateModules_idempotent [other; one; one] _ E).
Defined.

Lemma dedupeAndValidateModules_distinct_keys_witness :
  let one := artifactToModule (artifact "contracts" "Token" "tokens" nameAbi) None in
  let other := artifactToModule (artifact "governance" "Governor" "." symbolAbi) None in
  exists out,
    dedupeAndValidateModules [other; one] = Ok {| modules := out; warnings := [] |}
    /\ Permutation out [other; one].
Proof.
  intros one other.
  apply (dedupeAndValidateModules_distinct_keys [other; one]).
  vm_compute. repeat constructor; cbn; intuition discriminate.
Defined.

Lemma dedupeAndValidateModules_same_contract_witness :
  dedupeAndValidateModules
    [artifactToModule (artifact "contracts" "Token" "tokens" nameAbi) None;
     artifactToModule (artifact "contracts" "Token" "legacy" nameAbi) None]
  = Ok {| modules := [artifactToModule (artifact "contracts" "Token" "tokens" nameAbi) None];
          warnings := ["Duplicate ABI ignored for contracts:Token"] |}.
Proof.
  exact (dedupeAndValidateModules_same_contract
           (artifact "contracts" "Token" "tokens" nameAbi)
           (artifact "contracts" "Token" "legacy" nameAbi) None eq_refl eq_refl eq_refl).
Defined.

End DedupeExamples.

End ModulesProperties.

(** ** Properties of [lib/changelog.ts] *)

Module ChangelogProperties.
Import Text Changelog Diff Ordered JsFacts SortingFacts ChangelogFacts.

Section Manifest.
Context `{Collator} `{AbiParser}.


(** X15. Every list of signatures in a manifest is sorted by code units,
    in both revisions of [buildManifest]. *)
Theorem buildManifest_signatures_sorted (ms : list GeneratedModule) key sigs :
  (buildManifest ms !! key = Some sigs ->
   Sorted (fun a b => Js.codeUnitLe a b = true) sigs)
  /\ forall formatAbiItem,
      buildManifestAbitype formatAbiItem ms !! key = Some sigs ->
      Sorted (fun a b => Js.codeUnitLe a b = true) sigs.
Proof.
  split; [|intros formatAbiItem]; intros Hl;
    apply buildManifestWith_lookup_In, In_entriesWith in Hl
      as (m & abi & _ & _ & _ & <-);
    apply sort_sorted.
Qed.

Lemma entriesWith_perm signatures ms ms' :
  Permutation ms ms' ->
  Permutation (entriesWith signatures ms) (entriesWith signatures ms').
Proof.
  induction 1 as [|m l l' Hp IH|a b l|l1 l2 l3 H1 IH1 H2 IH2].
  - constructor.
  - cbn [entriesWith]. destruct (parseAbiFromModuleContent (moduleContent m));
      [now constructor | exact IH].
  - cbn [entriesWith].
    destruct (parseAbiFromModuleContent (moduleContent a)),
             (parseAbiFromModuleContent (moduleContent b));
      try reflexivity. apply perm_swap.
  - now transitivity (entriesWith signatures l2).
Qed.

Lemma entriesWith_keys signatures ms key :
  In key (List.map fst (entriesWith signatures ms)) -> In key (List.map keyOf ms).
Proof.
  intros Hin. apply in_map_iff in Hin as ([k sigs] & <- & Hin).
  apply In_entriesWith in Hin as (m & abi & Hm & Hk & _).
  apply in_map_iff. exists m. auto.
Qed.

Lemma entriesWith_NoDup signatures ms :
  List.NoDup (List.map keyOf ms) ->
  List.NoDup (List.map fst (entriesWith signatures ms)).
Proof.
  induction ms as [|m ms IH]; [constructor|].
  cbn [List.map entriesWith]. intros Hnd. inversion Hnd as [|k l Hn Hnd']. subst.
  destruct (parseAbiFromModuleContent (moduleContent m)); [|now apply IH].
  cbn [List.map fst]. constructor; [|now apply IH].
  intros Hin. apply Hn. now apply entriesWith_keys in Hin.
Qed.

Lemma lastOf_unique key entries sigs :
  List.NoDup (List.map fst entries) ->
  In (key, sigs) entries -> lastOf key entries = Some sigs.
Proof.
  intros Hnd Hin.
  destruct (lastOf key entries) as [sigs'|] eqn:E.
  - apply lastOf_In in E. f_equal.
    clear -Hnd Hin E. induction entries as [|[k v] es IH]; [easy|].
    cbn [List.map fst] in Hnd. inversion Hnd as [|? ? Hn Hnd']. subst.
    destruct Hin as [Hin|Hin], E as [E|E].
    + congruence.
    + injection Hin as -> ->. exfalso. apply Hn. apply in_map_iff. now exists (key, sigs').
    + injection E as -> ->. exfalso. apply Hn. apply in_map_iff. now exists (key, sigs).
    + now apply IH.
  - exfalso. exact (proj1 (lastOf_None _ _) E sigs Hin).
Qed.

Lemma Object_fromEntries_perm es es' :
  List.NoDup (List.map fst es) -> Permutation es es' ->
  Object_fromEntries es = Object_fromEntries es'.
Proof.
  intros Hnd Hperm. apply map_eq. intros key.
  rewrite !Object_fromEntries_lookup.
  assert (Hnd' : List.NoDup (List.map fst es')).
  { eapply Permutation_NoDup; [apply Permutation_map, Hperm | exact Hnd]. }
  destruct (lastOf key es) as [sigs|] eqn:E.
  - symmetry. apply lastOf_unique; [exact Hnd'|].
    apply (Permutation_in _ Hperm). now apply lastOf_In.
  - symmetry. apply lastOf_None. intros sigs Hin.
    apply (proj1 (lastOf_None _ _) E sigs).
    now apply (Permutation_in _ (Permutation_sym Hperm)).
Qed.

Lemma buildManifestWith_perm signatures (ms ms' : list GeneratedModule) :
  List.NoDup (List.map keyOf ms) ->
  Permutation ms ms' ->
  buildManifestWith signatures ms = buildManifestWith signatures ms'.
Proof.
  intros Hnd Hperm. unfold buildManifestWith.
  apply Object_fromEntries_perm.
  - eapply Permutation_NoDup;
      [apply Permutation_map, Permutation_sym, sortBy_perm|].
    now apply entriesWith_NoDup.
  - etransitivity; [apply sortBy_perm|].
    etransitivity; [apply entriesWith_perm, Hperm|].
    apply Permutation_sym, sortBy_perm.
Qed.

Lemma compareEntries_total `{!CollatorLaws} :
  Js.total (fun a b : string * list string => compareEntries a b <=? 0).
Proof.
  intros a b. unfold compareEntries. rewrite Z.leb_gt, Z.leb_le. intros Hab.
  pose proof (localeCompare_antisym (fst a) (fst b)) as Hs.
  destruct (localeCompare (fst a) (fst b)), (localeCompare (fst b) (fst a));
    cbn in Hs; lia || discriminate.
Qed.

(** Where the collation orders the paths, the sorted array of entries is
    the same for every order of the modules. *)
Lemma sortWith_entries_perm `{!CollatorLaws} signatures (ms ms' : list GeneratedModule) :
  ordersKeys (List.map keyOf ms) ->
  List.NoDup (List.map keyOf ms) ->
  Permutation ms ms' ->
  Js.sortWith compareEntries (entriesWith signatures ms)
  = Js.sortWith compareEntries (entriesWith signatures ms').
Proof.
  intros [Htrans Hzero] Hnd Hperm. unfold Js.sortWith.
  set (le := fun a b : string * list string => compareEntries a b <=? 0).
  assert (Hkey : forall a, In a (Js.sortBy le (entriesWith signatures ms)) ->
                           In (fst a) (List.map keyOf ms)).
  { intros a Ha. apply sortBy_In in Ha.
    apply (entriesWith_keys signatures). now apply in_map. }
  apply (sorted_perm_eq_on le).
  - intros a b c Ha Hb Hc. unfold le, compareEntries. rewrite !Z.leb_le.
    apply Htrans; now apply Hkey.
  - intros a b Ha Hb. unfold le, compareEntries. rewrite !Z.leb_le. intros Hab Hba.
    apply (In_same_key (entriesWith signatures ms));
      [now apply entriesWith_NoDup | now apply sortBy_In in Ha
       | now apply sortBy_In in Hb |].
    apply Hzero; [now apply Hkey | now apply Hkey | now apply localeCompare_both].
  - apply sortBy_sorted, compareEntries_total.
  - apply sortBy_sorted, compareEntries_total.
  - etransitivity; [apply sortBy_perm|].
    etransitivity; [apply entriesWith_perm, Hperm|].
    apply Permutation_sym, sortBy_perm.
Qed.

(** *** The keys of the object in order *)

Lemma ownKeys_perm created : Permutation (ownKeys created) created.
Proof.
  unfold ownKeys.
  set (index := fun key => match arrayIndex key with Some n => [(n, key)] | None => [] end).
  set (other := fun key => match arrayIndex key with Some _ => false | None => true end).
  etransitivity;
    [apply Permutation_app_tail, Permutation_map, sortBy_perm|].
  induction created as [|key created IH]; [constructor|].
  cbn [List.flat_map List.filter]. unfold index at 1, other at 1.
  destruct (arrayIndex key) as [n|].
  - cbn [app List.map snd]. now constructor.
  - cbn [app]. apply Permutation_sym, Permutation_cons_app, Permutation_sym, IH.
Qed.

Lemma Object_entries_keys entries :
  List.map fst (Object_entries entries) = ownKeys (Js.uniq (List.map fst entries)).
Proof.
  unfold Object_entries. rewrite List.map_map. cbn [fst]. apply List.map_id.
Qed.

Lemma Object_entries_In entries key :
  In key (List.map fst (Object_entries entries)) <-> In key (List.map fst entries).
Proof.
  rewrite Object_entries_keys, <- (uniq_In (List.map fst entries) key). split.
  - apply Permutation_in, ownKeys_perm.
  - apply Permutation_in, Permutation_sym, ownKeys_perm.
Qed.

Lemma Object_entries_NoDup entries : List.NoDup (List.map fst (Object_entries entries)).
Proof.
  rewrite Object_entries_keys.
  apply (Permutation_NoDup (Permutation_sym (ownKeys_perm _))), uniq_NoDup.
Qed.

Lemma fmap_fst_map {A B : Type} (l : list (A * B)) : l.*1 = List.map fst l.
Proof. induction l as [|x l IH]; [reflexivity|]. cbn. now rewrite IH. Qed.

(** The entries in order are the entries of the map. *)
Lemma Object_entries_fromEntries entries :
  list_to_map (Object_entries entries) = Object_fromEntries entries.
Proof.
  apply map_eq. intros key. rewrite Object_fromEntries_lookup.
  destruct (lastOf key entries) as [sigs|] eqn:E.
  - apply elem_of_list_to_map_1.
    + rewrite fmap_fst_map. apply NoDup_ListNoDup, Object_entries_NoDup.
    + apply list_elem_of_In. unfold Object_entries. apply in_map_iff.
      exists key. rewrite E. split; [reflexivity|].
      rewrite <- Object_entries_keys. apply Object_entries_In.
      apply lastOf_In in E. apply in_map_iff. now exists (key, sigs).
  - apply not_elem_of_list_to_map_1. rewrite fmap_fst_map, list_elem_of_In.
    rewrite Object_entries_In. intros Hin.
    apply in_map_iff in Hin as ([k sigs] & Hk & Hin). cbn [fst] in Hk. subst k.
    exact (proj1 (lastOf_None _ _) E sigs Hin).
Qed.

Lemma manifestEntriesWith_perm `{!CollatorLaws} signatures (ms ms' : list GeneratedModule) :
  ordersKeys (List.map keyOf ms) ->
  List.NoDup (List.map keyOf ms) ->
  Permutation ms ms' ->
  manifestEntriesWith signatures ms = manifestEntriesWith signatures ms'
  /\ list_to_map (manifestEntriesWith signatures ms) = buildManifestWith signatures ms
  /\ Json.stringify2 (toJson (manifestEntriesWith signatures ms))
     = Json.stringify2 (toJson (manifestEntriesWith signatures ms')).
Proof.
  intros Hord Hnd Hperm.
  assert (E : manifestEntriesWith signatures ms = manifestEntriesWith signatures ms').
  { unfold manifestEntriesWith.
    now rewrite (sortWith_entries_perm signatures ms ms' Hord Hnd Hperm). }
  split; [exact E|]. split; [apply Object_entries_fromEntries | now rewrite E].
Qed.

(** X16. Where no two modules have the same export path and the collation
    orders the export paths (among them it is transitive and gives [0] to no
    two different ones), the manifest does not depend on the order of the
    modules, the order of its keys included: for every rearrangement of the
    list, both revisions of [buildManifest] return an object with the same
    entries in the same order, the entries of the manifest, and
    [JSON.stringify(manifest, null, 2)] is the same text. *)
Theorem buildManifest_order_independent `{!CollatorLaws} (ms ms' : list GeneratedModule) :
  ordersKeys (List.map keyOf ms) ->
  List.NoDup (List.map keyOf ms) ->
  Permutation ms ms' ->
  (manifestEntries ms = manifestEntries ms'
   /\ list_to_map (manifestEntries ms) = buildManifest ms
   /\ Json.stringify2 (toJson (manifestEntries ms))
      = Json.stringify2 (toJson (manifestEntries ms')))
  /\ forall formatAbiItem,
      manifestEntriesAbitype formatAbiItem ms = manifestEntriesAbitype formatAbiItem ms'
      /\ list_to_map (manifestEntriesAbitype formatAbiItem ms)
         = buildManifestAbitype formatAbiItem ms
      /\ Json.stringify2 (toJson (manifestEntriesAbitype formatAbiItem ms))
         = Json.stringify2 (toJson (manifestEntriesAbitype formatAbiItem ms')).
Proof.
  intros Hord Hnd Hperm.
  split; [|intros formatAbiItem]; now apply manifestEntriesWith_perm.
Qed.

End Manifest.

Section ManifestExamples.
Import Reference ReferenceFacts.

Lemma buildManifest_signatures_sorted_witness :
  Sorted (fun a b => Js.codeUnitLe a b = true)
         ["function balanceOf(address) view returns (uint256)"; "receive()"].
Proof.
  apply (buildManifest_signatures_sorted
           [token (balanceOfAbi "owner" ++ receiveAbi)] "token").
  vm_compute. reflexivity.
Defined.

(** The modules of the test of the repository for this property, and the
    keys of a manifest that has array indices among them. *)
Example manifestEntries_test :
  let mod1 := makeModule "b.ts" "b"
                [JObj [("type", JStr "receive"); ("stateMutability", JStr "payable")]] in
  let mod2 := makeModule "a.ts" "a"
                [JObj [("type", JStr "fallback"); ("stateMutability", JStr "nonpayable")]] in
  manifestEntries [mod1; mod2] = [("a", ["fallback()"]); ("b", ["receive()"])]
  /\ manifestEntriesAbitype Abitype.formatAbiItem [mod1; mod2]
     = [("a", ["fallback() external"]); ("b", ["receive() external payable"])]
  /\ Json.stringify (toJson (manifestEntries [mod1; mod2]))
     = Json.stringify (toJson (manifestEntries [mod2; mod1]))
  /\ ownKeys ["b"; "10"; "a"; "9"; "01"] = ["9"; "10"; "b"; "a"; "01"].
Proof. repeat split; vm_compute; reflexivity. Qed.

(** The condition on the collation is needed. Under a collation that
    ignores the soft hyphen the two paths tie, the sort leaves their entries
    in the order of the modules, and the keys of the object follow it; the
    manifest as a map is the same. *)
Example manifestEntries_tie :
  let entries := @manifestEntries Samples.softHyphenCollator abiReader in
  let hyphenated := String "a" (String Samples.softHyphen "b") in
  List.map fst (entries [Samples.plain; Samples.hyphenated]) = ["ab"; hyphenated]
  /\ List.map fst (entries [Samples.hyphenated; Samples.plain]) = [hyphenated; "ab"]
  /\ @buildManifest Samples.softHyphenCollator abiReader [Samples.plain; Samples.hyphenated]
     = @buildManifest Samples.softHyphenCollator abiReader
         [Samples.hyphenated; Samples.plain].
Proof. repeat split; vm_compute; reflexivity. Qed.

Lemma buildManifest_order_independent_witness :
  let mod1 := makeModule "b.ts" "b"
                [JObj [("type", JStr "receive"); ("stateMutability", JStr "payable")]] in
  let mod2 := makeModule "a.ts" "a"
                [JObj [("type", JStr "fallback"); ("stateMutability", JStr "nonpayable")]] in
  manifestEntries [mod1; mod2] = manifestEntries [mod2; mod1].
Proof.
  intros mod1 mod2.
  assert (Hnd : List.NoDup (List.map keyOf [mod1; mod2])).
  { vm_compute. repeat constructor; cbn; intuition discriminate. }
  exact (proj1 (proj1 (buildManifest_order_independent
                         [mod1; mod2] [mod2; mod1]
                         (codeUnit_ordersKeys _) Hnd (perm_swap _ _ _)))).
Defined.

End ManifestExamples.


Lemma Object_keys_NoDup (manifest : AbiManifest) : List.NoDup (Object_keys manifest).
Proof. apply NoDup_ListNoDup, NoDup_fst_map_to_list. Qed.

Lemma changed_present previous current key d :
  changed (diffManifests previous current) !! key = Some d ->
  is_Some (previous !! key) /\ is_Some (current !! key)
  /\ entryFor previous current key = Some d.
Proof.
  cbn [diffManifests changed]. rewrite changed_lookup, lookup_empty.
  destruct (Js.has (Object_keys current) key) eqn:Ec; [|discriminate].
  apply has_In, Object_keys_In in Ec.
  destruct (entryFor previous current key) as [d'|] eqn:E; [|discriminate].
  intros [= ->]. split; [|split; [exact Ec | reflexivity]].
  unfold entryFor in E. destruct (previous !! key); [eauto | discriminate].
Qed.

Lemma not_is_Some {A : Type} (x : option A) : ~ is_Some x <-> x = None.
Proof.
  destruct x; split; intros Hx; try easy. exfalso. apply Hx. eauto.
Qed.

Lemma diffManifests_added_removed_aux (previous current : AbiManifest) key :
  (In key (added (diffManifests previous current))
   <-> is_Some (current !! key) /\ previous !! key = None)
  /\ (In key (removed (diffManifests previous current))
      <-> is_Some (previous !! key) /\ current !! key = None).
Proof.
  cbn [diffManifests added removed].
  destruct (difference_spec (Object_keys current) (Object_keys previous)
              (Object_keys_NoDup current)) as (_ & _ & Hin1).
  destruct (difference_spec (Object_keys previous) (Object_keys current)
              (Object_keys_NoDup previous)) as (_ & _ & Hin2).
  split.
  - now rewrite Hin1, !Object_keys_In, not_is_Some.
  - now rewrite Hin2, !Object_keys_In, not_is_Some.
Qed.

(** X17. The added paths of a diff are exactly the keys of the current
    manifest that the previous one lacks, the removed paths exactly the keys
    of the previous manifest that the current one lacks, each listed once;
    an entry of [changed] belongs to a key of both manifests. So no path is
    in two of the three categories. *)
Theorem diffManifests_added_removed (previous current : AbiManifest) key :
  (In key (added (diffManifests previous current))
   <-> is_Some (current !! key) /\ previous !! key = None)
  /\ (In key (removed (diffManifests previous current))
      <-> is_Some (previous !! key) /\ current !! key = None)
  /\ (is_Some (changed (diffManifests previous current) !! key)
      -> is_Some (previous !! key) /\ is_Some (current !! key))
  /\ List.NoDup (added (diffManifests previous current))
  /\ List.NoDup (removed (diffManifests previous current)).
Proof.
  destruct (diffManifests_added_removed_aux previous current key) as [Ha Hr].
  split; [exact Ha|]. split; [exact Hr|]. split; [|split].
  - intros [d Hd]. apply changed_present in Hd. tauto.
  - apply difference_spec, Object_keys_NoDup.
  - apply difference_spec, Object_keys_NoDup.
Qed.

Lemma diffManifests_added_removed_witness :
  is_Some (Reference.previousX !! "x") /\ is_Some (Reference.currentX !! "x").
Proof.
  apply (diffManifests_added_removed Reference.previousX Reference.currentX "x").
  vm_compute. eauto.
Defined.

Lemma entryFor_swap previous current key :
  is_Some (previous !! key) -> is_Some (current !! key) ->
  entryFor current previous key = swapItems <$> entryFor previous current key.
Proof.
  intros [p Hp] [c Hc]. unfold entryFor. rewrite Hp, Hc.
  rewrite orb_comm. now destruct (_ || _).
Qed.

(** X18. Diffing the other way round mirrors the diff: what was added is
    removed, what was removed is added, and every changed contract has its
    two lists of signatures exchanged. *)
Theorem diffManifests_swap (previous current : AbiManifest) :
  added (diffManifests current previous) = removed (diffManifests previous current)
  /\ removed (diffManifests current previous) = added (diffManifests previous current)
  /\ changed (diffManifests current previous)
     = swapItems <$> changed (diffManifests previous current).
Proof.
  split; [reflexivity|]. split; [reflexivity|].
  apply map_eq. intros key. rewrite lookup_fmap.
  destruct (changed (diffManifests previous current) !! key) as [d|] eqn:E.
  - apply changed_present in E as (Hp & Hc & E).
    rewrite changed_entryFor by exact Hp.
    now rewrite entryFor_swap, E.
  - destruct (changed (diffManifests current previous) !! key) as [d|] eqn:E'; [|reflexivity].
    apply changed_present in E' as (Hc & Hp & E').
    rewrite changed_entryFor in E by exact Hc.
    rewrite entryFor_swap, E in E' by assumption. discriminate.
Qed.

Lemma entryFor_None previous current key :
  is_Some (previous !! key) ->
  entryFor previous current key = None
  <-> forall s, In s (get previous key) <-> In s (get current key).
Proof.
  intros [p Hp]. unfold entryFor. rewrite Hp.
  destruct ((0 <? List.length (difference (Js.uniq (get current key))
                                          (Js.uniq (get previous key))))%nat) eqn:E1;
    [|destruct ((0 <? List.length (difference (Js.uniq (get previous key))
                                             (Js.uniq (get current key))))%nat) eqn:E2];
    cbn [orb].
  - split; [discriminate|]. intros Hsame.
    apply difference_nonempty in E1 as (s & Hs & Hn).
    rewrite !uniq_In in *. exfalso. apply Hn. now apply Hsame.
  - split; [discriminate|]. intros Hsame.
    apply difference_nonempty in E2 as (s & Hs & Hn).
    rewrite !uniq_In in *. exfalso. apply Hn. now apply Hsame.
  - split; [|reflexivity]. intros _ s.
    assert (H1 : ~ exists s, In s (Js.uniq (get current key))
                             /\ ~ In s (Js.uniq (get previous key))).
    { rewrite <- difference_nonempty, E1. discriminate. }
    assert (H2 : ~ exists s, In s (Js.uniq (get previous key))
                             /\ ~ In s (Js.uniq (get current key))).
    { rewrite <- difference_nonempty, E2. discriminate. }
    split; intros Hs.
    + destruct (Js.has (get current key) s) eqn:Eh; [now apply has_In|].
      exfalso. apply H2. exists s. rewrite !uniq_In. split; [exact Hs|].
      now apply has_false.
    + destruct (Js.has (get previous key) s) eqn:Eh; [now apply has_In|].
      exfalso. apply H1. exists s. rewrite !uniq_In. split; [exact Hs|].
      now apply has_false.
Qed.

Lemma length_zero {A : Type} (l : list A) : Nat.eqb (List.length l) 0 = true <-> l = [].
Proof. destruct l; cbn; split; congruence. Qed.



End ChangelogProperties.

(** ** Properties of [lib/utils.ts] *)

Module UtilsProperties.
Import Js Text Utils Stable JsFacts SortingFacts ModulesFacts.

Lemma distinct_NoDup l : distinct l = true -> List.NoDup l.
Proof.
  induction l as [|x l IH]; [constructor|].
  cbn [distinct]. rewrite andb_true_iff, negb_true_iff, has_false.
  intros [Hx Hl]. constructor; auto.
Qed.

Lemma jsize_member kv members :
  In kv members -> (jsize (snd kv) < jsize (JObj members))%nat.
Proof.
  intros Hin. cbn [jsize]. apply Nat.lt_succ_r.
  induction members as [|m ms IH]; [easy|].
  cbn [List.map list_sum fold_right]. destruct Hin as [->|Hin]; [lia|].
  specialize (IH Hin). unfold list_sum in IH. lia.
Qed.

Lemma jsize_item v items :
  In v items -> (jsize v < jsize (JArr items))%nat.
Proof.
  intros Hin. cbn [jsize]. apply Nat.lt_succ_r.
  induction items as [|m ms IH]; [easy|].
  cbn [List.map list_sum fold_right]. destruct Hin as [->|Hin]; [lia|].
  specialize (IH Hin). unfold list_sum in IH. lia.
Qed.

Section StableStringify.
Context `{Collator} `{!CollatorLaws}.

Lemma stableStringify_array items :
  stableStringify (JArr items)
  = "[" ++ join "," (List.map stableStringify items) ++ "]".
Proof. reflexivity. Qed.

Lemma stableStringify_object members :
  stableStringify (JObj members)
  = "{" ++ join ","
             (List.map (fun kv => Json.quote (fst kv) ++ ":" ++ snd kv)
                (sortBy entryLe
                   (List.map (fun kv => (fst kv, stableStringify (snd kv))) members)))
    ++ "}".
Proof. reflexivity. Qed.

Lemma keysOrdered_array items :
  keysOrdered (JArr items) -> forall item, In item items -> keysOrdered item.
Proof.
  cbn [keysOrdered]. induction items as [|x items IH]; [easy|].
  cbn [fold_right]. intros [Hx Hrest] item [<-|Hin]; [exact Hx | now apply IH].
Qed.

Lemma keysOrdered_object members :
  keysOrdered (JObj members) ->
  ordersKeys (List.map fst members)
  /\ forall kv, In kv members -> keysOrdered (snd kv).
Proof.
  cbn [keysOrdered]. intros [Hkeys Hall]. split; [exact Hkeys|].
  clear Hkeys. induction members as [|x members IH]; [easy|].
  cbn [fold_right] in Hall. destruct Hall as [Hx Hrest].
  intros kv [<-|Hin]; [exact Hx | now apply IH].
Qed.

Lemma entryLe_total : total entryLe.
Proof.
  intros a b. unfold entryLe. rewrite Z.leb_gt, Z.leb_le. intros Hab.
  pose proof (localeCompare_antisym (fst a) (fst b)) as Hs.
  destruct (localeCompare (fst a) (fst b)), (localeCompare (fst b) (fst a));
    cbn in Hs; lia || discriminate.
Qed.

Lemma sortBy_entries_perm (l l' : list (string * string)) :
  ordersKeys (List.map fst l) ->
  List.NoDup (List.map fst l) -> Permutation l l' ->
  sortBy entryLe l = sortBy entryLe l'.
Proof.
  intros [Htrans Hzero] Hnd Hperm.
  assert (Hkey : forall a, In a (sortBy entryLe l) -> In (fst a) (List.map fst l)).
  { intros a Ha. apply sortBy_In in Ha. now apply in_map. }
  apply (sorted_perm_eq_on entryLe).
  - intros a b c Ha Hb Hc. unfold entryLe. rewrite !Z.leb_le.
    apply Htrans; now apply Hkey.
  - intros a b Ha Hb. unfold entryLe. rewrite !Z.leb_le. intros Hab Hba.
    apply (In_same_key l);
      [exact Hnd | now apply sortBy_In in Ha | now apply sortBy_In in Hb |].
    apply Hzero; [now apply Hkey | now apply Hkey | now apply localeCompare_both].
  - apply sortBy_sorted, entryLe_total.
  - apply sortBy_sorted, entryLe_total.
  - etransitivity; [apply sortBy_perm|].
    etransitivity; [exact Hperm|]. apply Permutation_sym, sortBy_perm.
Qed.


End StableStringify.

(** The condition on the collation is needed. Under a collation that
    ignores the soft hyphen, two keys that differ in it tie, the sort leaves
    them in the order of the object, and the two texts differ. *)
Example stableStringify_tie :
  let hyphenated := String "a" (String Samples.softHyphen "b") in
  let v := JObj [("ab", JNull); (hyphenated, JNull)] in
  let w := JObj [(hyphenated, JNull); ("ab", JNull)] in
  Json.sameUpToKeyOrder v w
  /\ uniqueKeys v = true
  /\ @stableStringify Samples.softHyphenCollator v
     <> @stableStringify Samples.softHyphenCollator w.
Proof.
  intros hyphenated v w. split; [|split].
  - apply (Json.same_obj _ [(hyphenated, JNull); ("ab", JNull)]).
    + apply perm_swap.
    + repeat constructor.
  - reflexivity.
  - apply String.eqb_neq. vm_compute. reflexivity.
Qed.


End UtilsProperties.

(** ** Properties of [resolveBaseVersion] *)

Module VersionProperties.
Import Changelog.

Section Versions.
Context `{Semver}.

(** X20. [resolveBaseVersion] never makes up a version: what it returns
    is what one of the two lookups returned. It throws only where both
    lookups gave a version and [gte] rejects them. And it writes its line to
    the log in one case only: the tag is not [latest], both versions exist,
    the latest one wins and differs from the version of the tag; that line
    names both versions, and the latest one is returned. *)
Theorem resolveBaseVersion_log (packageName tag : string)
        (versionLookup : string -> string -> option string) :
  let tagVersion := versionLookup packageName tag in
  let latestVersion := versionLookup packageName "latest" in
  let result := resolveBaseVersion packageName tag versionLookup in
  (forall v, returned result = Ok v -> v = tagVersion \/ v = latestVersion)
  /\ (forall message, returned result = Throw message ->
        exists t l, tagVersion = Some t /\ latestVersion = Some l
                    /\ semverGte l t = None)
  /\ (logged result = []
      \/ exists t l,
           tag <> "latest"
           /\ tagVersion = Some t /\ latestVersion = Some l
           /\ semverGte l t = Some true
           /\ l <> t
           /\ logged result = [UsingLatest l tag t]
           /\ returned result = Ok (Some l)).
Proof.
  cbv zeta. unfold resolveBaseVersion.
  destruct (String.eqb_spec tag "latest") as [->|Htag]; cbn [returned logged].
  - split; [|split]; [intros v [= <-]; now right | discriminate | now left].
  - destruct (versionLookup packageName tag) as [t|];
      destruct (versionLookup packageName "latest") as [l|];
      cbn [nullish returned logged];
      try (split; [|split]; [intros v [= <-]; auto | discriminate | now left]).
    destruct (Js.truthy t && Js.truthy l); cbn [nullish returned logged];
      try (split; [|split]; [intros v [= <-]; auto | discriminate | now left]).
    destruct (semverGte l t) as [[|]|] eqn:Egte; cbn [returned logged].
    + destruct (String.eqb_spec l t) as [->|Hne].
      * split; [|split]; [intros v [= <-]; auto | discriminate | now left].
      * split; [|split]; [intros v [= <-]; auto | discriminate |].
        right. exists t, l. repeat split; auto.
    + rewrite String.eqb_refl.
      split; [|split]; [intros v [= <-]; auto | discriminate | now left].
    + split; [|split]; [discriminate | | now left].
      intros message _. exists t, l. auto.
Qed.

End Versions.

Lemma resolveBaseVersion_log_witness :
  logged (@resolveBaseVersion Reference.semver "@berachain/abis" "beta" Reference.staleBeta)
  = [UsingLatest "0.1.0" "beta" "0.1.0-beta.2"]
  /\ (Some "0.1.0" = Reference.staleBeta "@berachain/abis" "beta"
      \/ Some "0.1.0" = Reference.staleBeta "@berachain/abis" "latest").
Proof.
  destruct (@resolveBaseVersion_log Reference.semver "@berachain/abis" "beta"
              Reference.staleBeta) as (Hret & _ & Hlog).
  split.
  - destruct Hlog as [Hlog | (t & l & _ & Et & El & _ & _ & Hlog & _)].
    + vm_compute in Hlog. discriminate.
    + injection Et as <-. injection El as <-. exact Hlog.
  - apply Hret. vm_compute. reflexivity.
Defined.

End VersionProperties.

(** ** Properties of [lib/git.ts] *)

Module GitProperties.
Import Js Text Git JsFacts StringFacts NamingProperties.

Lemma getSubstitution_plain matched before after template :
  every (isNot "$") template = true ->
  getSubstitution matched before after template = template.
Proof.
  induction template as [|c t IH]; [reflexivity|].
  cbn [every]. rewrite andb_true_iff. intros [Hc Ht].
  cbn [getSubstitution]. unfold isNot in Hc. apply negb_true_iff in Hc.
  rewrite Ascii.eqb_sym in Hc. rewrite Hc. f_equal. now apply IH.
Qed.

Lemma span_app p a b :
  every p a = true ->
  match b with String c _ => p c = false | EmptyString => True end ->
  span p (a ++ b) = (a, b).
Proof.
  intros Ha Hb. induction a as [|c a IH].
  - change ("" ++ b) with b. destruct b as [|c b]; [reflexivity|].
    cbn [span]. now rewrite Hb.
  - cbn [every] in Ha. apply andb_true_iff in Ha as [Hc Ha].
    rewrite append_cons. cbn [span]. now rewrite Hc, IH.
Qed.

Lemma span_none p s : every p s = true -> span p s = (s, "").
Proof.
  intros Hs. rewrite <- (append_nil_r s) at 1. now apply span_app.
Qed.

Lemma replaceFirst_prefix p rest replacement :
  every (isNot "$") replacement = true ->
  replaceFirst (p ++ rest) p replacement = replacement ++ rest.
Proof.
  intros Hplain. unfold replaceFirst.
  rewrite indexOf_startsWith by apply startsWith_app.
  change (0 <? 0) with false. cbv iota.
  change (Z.to_nat 0) with 0%nat. change (0 + String.length p)%nat with (String.length p).
  cbn [take]. rewrite drop_app, getSubstitution_plain by exact Hplain. reflexivity.
Qed.

Lemma matchCredentials_token user rest :
  user <> "" -> every (isNot "@") user = true ->
  matchCredentials ("https://" ++ user ++ "@github.com/" ++ rest) = Some rest.
Proof.
  intros Hne Huser. unfold matchCredentials.
  rewrite startsWith_app.
  change (drop 8) with (drop (String.length "https://")).
  rewrite (drop_app "https://").
  rewrite span_app; [|exact Huser|reflexivity].
  destruct user as [|c user]; [congruence|]. cbn [truthy andb].
  rewrite startsWith_app.
  change (drop 12) with (drop (String.length "@github.com/")).
  now rewrite (drop_app "@github.com/").
Qed.

Lemma matchCredentials_none s :
  every (isNot "@") s = true -> matchCredentials s = None.
Proof.
  intros Hs. unfold matchCredentials.
  destruct (startsWith s "https://") eqn:E; [|reflexivity].
  apply startsWith_split in E. rewrite E in Hs. rewrite every_app in Hs.
  apply andb_true_iff in Hs as [_ Hs].
  rewrite span_none by exact Hs.
  destruct (drop 8 s); reflexivity.
Qed.

Lemma stripToken_none s : every (isNot "@") s = true -> stripToken s = s.
Proof.
  induction s as [|c s IH]; intros Hs.
  - reflexivity.
  - cbn [stripToken]. rewrite matchCredentials_none by exact Hs.
    cbn [every] in Hs. apply andb_true_iff in Hs as [_ Hs]. now rewrite IH.
Qed.

Lemma stripToken_credentials user rest :
  user <> "" -> every (isNot "@") user = true ->
  stripToken ("https://" ++ user ++ "@github.com/" ++ rest) = "https://github.com/" ++ rest.
Proof.
  intros Hne Huser.
  change ("https://" ++ user ++ "@github.com/" ++ rest)
    with (String "h" ("ttps://" ++ user ++ "@github.com/" ++ rest)).
  cbn [stripToken].
  change (String "h" ("ttps://" ++ user ++ "@github.com/" ++ rest))
    with ("https://" ++ user ++ "@github.com/" ++ rest).
  now rewrite matchCredentials_token.
Qed.

Lemma injectAuthToken_github env_GITHUB_TOKEN env_GH_TOKEN token rest :
  authToken env_GITHUB_TOKEN env_GH_TOKEN = Some token ->
  validToken token ->
  injectAuthToken env_GITHUB_TOKEN env_GH_TOKEN ("https://github.com/" ++ rest)
  = "https://x-access-token:" ++ token ++ "@github.com/" ++ rest.
Proof.
  intros Etoken (Hne & _ & Hdollar).
  unfold injectAuthToken. rewrite Etoken.
  destruct token as [|c token]; [congruence|]. cbn [truthy negb].
  rewrite startsWith_app. cbn [negb].
  rewrite replaceFirst_prefix.
  - now rewrite !append_assoc.
  - rewrite !every_app, Hdollar. reflexivity.
Qed.

Lemma stripToken_injected token rest :
  validToken token ->
  stripToken ("https://x-access-token:" ++ token ++ "@github.com/" ++ rest)
  = "https://github.com/" ++ rest.
Proof.
  intros (Hne & Hat & _).
  replace ("https://x-access-token:" ++ token ++ "@github.com/" ++ rest)
    with ("https://" ++ ("x-access-token:" ++ token) ++ "@github.com/" ++ rest)
    by now rewrite !append_assoc.
  apply stripToken_credentials.
  - discriminate.
  - rewrite every_app, Hat. reflexivity.
Qed.

Lemma span_spec p s : forall run rest,
  span p s = (run, rest) -> s = run ++ rest /\ every p run = true.
Proof.
  induction s as [|c s IH]; intros run rest.
  - intros [= <- <-]. split; reflexivity.
  - cbn [span]. destruct (p c) eqn:Ec.
    + destruct (span p s) as [run' rest']. intros [= <- <-].
      destruct (IH run' rest' eq_refl) as [-> Hrun]. split.
      * now rewrite append_cons.
      * cbn [every]. now rewrite Ec, Hrun.
    + intros [= <- <-]. split; reflexivity.
Qed.

Lemma isRepoChar_shorthand c : isRepoChar c = true -> isShorthandChar c = true.
Proof. unfold isShorthandChar. now intros ->. Qed.

Lemma isShorthand_chars repo :
  isShorthand repo = true -> every isShorthandChar repo = true.
Proof.
  unfold isShorthand.
  destruct (span isRepoChar repo) as [org rest] eqn:E1.
  apply span_spec in E1 as [-> Horg].
  rewrite andb_true_iff. intros [_ Hrest].
  destruct rest as [|c rest']; [discriminate|].
  apply andb_true_iff in Hrest as [Hc Hname]. apply Ascii.eqb_eq in Hc. subst c.
  destruct (span isRepoChar rest') as [name tail] eqn:E2.
  apply span_spec in E2 as [-> Hname'].
  apply andb_true_iff in Hname as [_ Htail]. apply String.eqb_eq in Htail. subst tail.
  rewrite every_app. cbn [every]. rewrite every_app.
  rewrite (every_impl _ _ _ isRepoChar_shorthand Horg).
  rewrite (every_impl _ _ _ isRepoChar_shorthand Hname'). reflexivity.
Qed.

Lemma isShorthandChar_not d :
  isShorthandChar d = false -> forall c, isShorthandChar c = true -> isNot d c = true.
Proof.
  intros Hd c Hc. unfold isNot. apply negb_true_iff.
  destruct (Ascii.eqb_spec d c) as [->|]; congruence.
Qed.

Lemma startsWith_every c s prefix :
  every (isNot c) s = true -> includes prefix (String c "") = true ->
  startsWith s prefix = false.
Proof.
  intros Hs Hin. destruct (startsWith s prefix) eqn:E; [|reflexivity].
  apply startsWith_split in E. rewrite E, every_app in Hs.
  apply andb_true_iff in Hs as [Hp _].
  apply (includes_absent c "") in Hp. congruence.
Qed.


Lemma stripToken_no_colon s : every (isNot ":") s = true -> stripToken s = s.
Proof.
  induction s as [|c s IH]; intros Hs; [reflexivity|].
  cbn [stripToken]. unfold matchCredentials.
  rewrite (startsWith_every ":" (String c s) "https://") by (exact Hs || reflexivity).
  cbn [every] in Hs. apply andb_true_iff in Hs as [_ Hs]. now rewrite IH.
Qed.

Lemma resolveRepoUrl_shorthand env_CI repo :
  isShorthand repo = true ->
  resolveRepoUrl env_CI repo
  = Ok (if envTruthy env_CI then "https://github.com/" ++ repo ++ ".git"
        else "git@github.com:" ++ repo ++ ".git").
Proof.
  intros Hs. unfold resolveRepoUrl. rewrite Hs.
  pose proof (isShorthand_chars repo Hs) as Hchars.
  rewrite (startsWith_every ":" repo "https://"), (startsWith_every "@" repo "git@");
    try reflexivity;
    (eapply every_impl; [|exact Hchars]; now apply isShorthandChar_not).
Qed.

(** X22. [resolveRepoUrl] throws exactly for a string that is neither an
    HTTPS URL, nor an SSH URL, nor a shorthand [org/repo]. What it returns
    is always such a URL, and resolving it again changes nothing, whatever
    the environment. *)
Theorem resolveRepoUrl_formats (env_CI : option string) (repo : string) :
  (forall url, resolveRepoUrl env_CI repo = Ok url ->
     (startsWith url "https://" = true \/ startsWith url "git@" = true)
     /\ forall env_CI', resolveRepoUrl env_CI' url = Ok url)
  /\ ((exists message, resolveRepoUrl env_CI repo = Throw message)
      <-> startsWith repo "https://" = false
          /\ startsWith repo "git@" = false
          /\ isShorthand repo = false).
Proof.
  assert (Hfix : forall url,
            startsWith url "https://" = true \/ startsWith url "git@" = true ->
            forall env_CI', resolveRepoUrl env_CI' url = Ok url).
  { intros url Hurl env_CI'. unfold resolveRepoUrl.
    destruct Hurl as [-> | ->]; [reflexivity | now rewrite orb_true_r]. }
  split.
  - intros url Hres.
    assert (Hurl : startsWith url "https://" = true \/ startsWith url "git@" = true).
    { unfold resolveRepoUrl in Hres.
      destruct (startsWith repo "https://") eqn:E1; [injection Hres as <-; now left|].
      destruct (startsWith repo "git@") eqn:E2; [injection Hres as <-; now right|].
      cbn [orb] in Hres. destruct (isShorthand repo); [|discriminate].
      injection Hres as <-. destruct (envTruthy env_CI).
      - left. apply (startsWith_prefix "https://" "github.com/").
      - right. apply (startsWith_prefix "git@" "github.com:"). }
    split; [exact Hurl | now apply Hfix].
  - unfold resolveRepoUrl.
    destruct (startsWith repo "https://"), (startsWith repo "git@"), (isShorthand repo);
      cbn [orb]; split; try (intros [message [=]]); try (intros (? & ? & ?); discriminate);
      eauto.
Qed.

(** X23. [stripToken] undoes [injectAuthToken]: for a token that is not
    empty and holds neither [@] nor [$], a URL below [https://github.com/]
    gets the credentials in front of the host, and stripping them gives the
    URL back. *)
Theorem stripToken_injectAuthToken env_GITHUB_TOKEN env_GH_TOKEN (token url : string) :
  authToken env_GITHUB_TOKEN env_GH_TOKEN = Some token ->
  validToken token ->
  startsWith url "https://github.com/" = true ->
  injectAuthToken env_GITHUB_TOKEN env_GH_TOKEN url
  = "https://x-access-token:" ++ token ++ "@github.com/"
    ++ drop (String.length "https://github.com/") url
  /\ stripToken (injectAuthToken env_GITHUB_TOKEN env_GH_TOKEN url) = url.
Proof.
  intros Etoken Hvalid Hurl. apply startsWith_split in Hurl.
  set (rest := drop (String.length "https://github.com/") url) in *.
  clearbody rest. subst url.
  rewrite (injectAuthToken_github _ _ token rest Etoken Hvalid).
  split; [reflexivity|]. now apply stripToken_injected.
Qed.

(** X24. The comparison of [ensureRepo] recognises its own clone, under a
    condition on the token: for a shorthand [org/repo], the URL with the
    token injected and the URL without it are the same once [stripToken] has
    read them, provided that in CI the token of [GITHUB_TOKEN], or else of
    [GH_TOKEN], is absent, or empty, or holds neither [@] nor [$]. Outside
    of CI the URL is an SSH URL, which no token changes. *)
Theorem stripToken_same_remote env_CI env_GITHUB_TOKEN env_GH_TOKEN (repo rawUrl : string) :
  isShorthand repo = true ->
  (envTruthy env_CI = true ->
   forall token, authToken env_GITHUB_TOKEN env_GH_TOKEN = Some token ->
                 token = "" \/ validToken token) ->
  resolveRepoUrl env_CI repo = Ok rawUrl ->
  stripToken (injectAuthToken env_GITHUB_TOKEN env_GH_TOKEN rawUrl) = stripToken rawUrl.
Proof.
  intros Hshort Htoken Hraw.
  rewrite resolveRepoUrl_shorthand in Hraw by exact Hshort.
  injection Hraw as <-.
  destruct (authToken env_GITHUB_TOKEN env_GH_TOKEN) as [token|] eqn:Etoken.
  2:{ unfold injectAuthToken. now rewrite Etoken. }
  destruct (envTruthy env_CI).
  - destruct (Htoken eq_refl token eq_refl) as [->|Hvalid].
    { unfold injectAuthToken. now rewrite Etoken. }
    rewrite (injectAuthToken_github _ _ token (repo ++ ".git") Etoken Hvalid).
    rewrite stripToken_injected by exact Hvalid.
    symmetry. apply stripToken_none.
    rewrite !every_app. apply andb_true_iff. split; [reflexivity|].
    apply andb_true_iff. split; [|reflexivity].
    eapply every_impl; [|apply isShorthand_chars, Hshort].
    now apply isShorthandChar_not.
  - unfold injectAuthToken. rewrite Etoken.
    destruct token; reflexivity.
Qed.

(** The condition is needed: with an [@] in the token, [stripToken] finds
    no credentials in the URL with the token, and the two URLs differ. *)
Example stripToken_token_with_at :
  resolveRepoUrl (Some "true") "berachain/contracts"
  = Ok "https://github.com/berachain/contracts.git"
  /\ stripToken (injectAuthToken (Some "a@b") None
                                 "https://github.com/berachain/contracts.git")
     = "https://x-access-token:a@b@github.com/berachain/contracts.git"
  /\ stripToken "https://github.com/berachain/contracts.git"
     = "https://github.com/berachain/contracts.git".
Proof. repeat split; vm_compute; reflexivity. Qed.

Lemma resolveRepoUrl_formats_witness :
  resolveRepoUrl (Some "true") "https://github.com/berachain/contracts.git"
  = Ok "https://github.com/berachain/contracts.git".
Proof.
  apply (resolveRepoUrl_formats (Some "true") "berachain/contracts").
  reflexivity.
Defined.

Lemma stripToken_injectAuthToken_witness :
  stripToken (injectAuthToken None (Some "ghp_token") "https://github.com/org/repo.git")
  = "https://github.com/org/repo.git".
Proof.
  apply (stripToken_injectAuthToken None (Some "ghp_token") "ghp_token"
           "https://github.com/org/repo.git" eq_refl).
  - split; [discriminate | split; reflexivity].
  - reflexivity.
Defined.

Lemma stripToken_same_remote_witness :
  stripToken (injectAuthToken (Some "ghp_token") None
                "https://github.com/berachain/contracts.git")
  = stripToken "https://github.com/berachain/contracts.git".
Proof.
  apply (stripToken_same_remote (Some "true") (Some "ghp_token") None
           "berachain/contracts").
  - reflexivity.
  - intros _ token [= <-]. right. split; [discriminate | split; reflexivity].
  - reflexivity.
Defined.

End GitProperties.

(** ** Properties of [renderChangelog] and of the pipeline *)

Module RenderProperties.
Import Js Text Changelog Render JsFacts StringFacts SortingFacts NamingProperties
       DiscoveryProperties ChangelogFacts ChangelogProperties.

Lemma filterNotNull_perm l l' :
  Permutation l l' -> Permutation (filterNotNull l) (filterNotNull l').
Proof.
  unfold filterNotNull. induction 1 as [|x l l' Hp IH|x y l|l1 l2 l3 H1 IH1 H2 IH2].
  - constructor.
  - cbn [List.flat_map]. now apply Permutation_app_head.
  - cbn [List.flat_map]. rewrite !app_assoc. apply Permutation_app_tail.
    apply Permutation_app_comm.
  - now transitivity (List.flat_map
                        (fun s : option string => match s with Some x => [x] | None => [] end) l2).
Qed.

Lemma signaturesOf_perm abi1 abi2 :
  Permutation (List.map eraseParamNames abi1) (List.map eraseParamNames abi2) ->
  signaturesOf abi1 = signaturesOf abi2.
Proof.
  intros Hperm.
  rewrite <- (signaturesOf_eraseParamNames abi1), <- (signaturesOf_eraseParamNames abi2).
  unfold signaturesOf. apply sort_perm, filterNotNull_perm. now apply Permutation_map.
Qed.

Section Pipeline.
Context `{Collator} `{AbiParser}.

Lemma entriesWith_sameInterface ms1 ms2 :
  Forall2 sameInterface ms1 ms2 ->
  entriesWith signaturesOf ms1 = entriesWith signaturesOf ms2.
Proof.
  induction 1 as [|m1 m2 ms1 ms2 [Hpath Habi] _ IH]; [reflexivity|].
  cbn [entriesWith]. unfold keyOf. rewrite Hpath, IH.
  destruct (parseAbiFromModuleContent (moduleContent m1)) as [abi1|],
           (parseAbiFromModuleContent (moduleContent m2)) as [abi2|];
    try contradiction; [|reflexivity].
  now rewrite (signaturesOf_perm abi1 abi2 Habi).
Qed.

(** X26. The manifest does not depend on the order in which an interface
    lists its items: two lists of modules whose interfaces are the same up
    to the order of the items, and the names of the parameters, have the
    same manifest. *)
Theorem buildManifest_ignores_item_order (ms1 ms2 : list GeneratedModule) :
  Forall2 sameInterface ms1 ms2 ->
  buildManifest ms1 = buildManifest ms2.
Proof.
  intros Hsame. unfold buildManifest, buildManifestWith.
  now rewrite (entriesWith_sameInterface ms1 ms2 Hsame).
Qed.

Lemma renderChangelog_empty diff :
  isEmptyDiff diff = true -> renderChangelog diff = "".
Proof. intros E. unfold renderChangelog. now rewrite E. Qed.

(** X27. Reordering the items of an interface or renaming parameters
    leaves no trace in the changelog: the diff of the two manifests is
    empty, and [renderChangelog] returns the empty string for it. *)
Theorem renderChangelog_same_interface (ms1 ms2 : list GeneratedModule) :
  Forall2 sameInterface ms1 ms2 ->
  isEmptyDiff (diffManifests (buildManifest ms1) (buildManifest ms2)) = true
  /\ renderChangelog (diffManifests (buildManifest ms1) (buildManifest ms2)) = "".
Proof.
  intros Hsame. unfold buildManifest, buildManifestWith.
  rewrite (entriesWith_sameInterface ms1 ms2 Hsame).
  split; [apply isEmptyDiff_same | apply renderChangelog_empty, isEmptyDiff_same].
Qed.

End Pipeline.


Lemma includes_intro a x c : includes (a ++ x ++ c) x = true.
Proof.
  induction a as [|d a IH].
  - change ("" ++ x ++ c) with (x ++ c).
    destruct (x ++ c) eqn:E; cbn [includes]; rewrite <- E, startsWith_app;
      reflexivity.
  - rewrite append_cons. cbn [includes]. rewrite IH. apply orb_true_r.
Qed.

Lemma includes_elim s x :
  includes s x = true -> exists a c, s = a ++ x ++ c.
Proof.
  induction s as [|d s IH]; cbn [includes].
  - rewrite orb_false_r. intros Hs. apply startsWith_split in Hs.
    exists "", (drop (String.length x) ""). exact Hs.
  - intros Hs. apply orb_true_iff in Hs as [Hs|Hs].
    + apply startsWith_split in Hs.
      exists "", (drop (String.length x) (String d s)). exact Hs.
    + destruct (IH Hs) as (a & c & ->). exists (String d a), c.
      now rewrite append_cons.
Qed.

Lemma includes_trans s y x :
  includes s y = true -> includes y x = true -> includes s x = true.
Proof.
  intros Hs Hy. apply includes_elim in Hs as (a & c & ->).
  apply includes_elim in Hy as (a' & c' & ->).
  replace (a ++ (a' ++ x ++ c') ++ c) with ((a ++ a') ++ x ++ (c' ++ c))
    by now rewrite !append_assoc.
  apply includes_intro.
Qed.

Lemma includes_refl x : includes x x = true.
Proof.
  rewrite <- (append_nil_r x) at 1. apply (includes_intro "" x "").
Qed.

Lemma includes_join sep l y :
  In y l -> includes (join sep l) y = true.
Proof.
  induction l as [|z l IH]; [easy|].
  intros [->|Hin].
  - destruct l as [|z' l]; [apply includes_refl|].
    change (join sep (y :: z' :: l)) with (y ++ sep ++ join sep (z' :: l)).
    apply (includes_intro "" y).
  - specialize (IH Hin). destruct l as [|z' l]; [easy|].
    change (join sep (z :: z' :: l)) with (z ++ sep ++ join sep (z' :: l)).
    apply includes_elim in IH as (a & c & ->).
    replace (z ++ sep ++ a ++ y ++ c) with ((z ++ sep ++ a) ++ y ++ c)
      by now rewrite !append_assoc.
    apply includes_intro.
Qed.

Lemma trimEnd_keeps u c v :
  isWhiteSpace c = false ->
  trimEnd (u ++ String c v) = u ++ String c (trimEnd v).
Proof.
  intros Hc. induction u as [|d u IH].
  - change ("" ++ String c v) with (String c v). now apply trimEnd_cons.
  - rewrite append_cons. cbn [trimEnd]. rewrite IH.
    destruct u; now rewrite ?append_cons.
Qed.

Lemma includes_trimEnd s x :
  endsBlack x -> includes s x = true -> includes (trimEnd s) x = true.
Proof.
  intros (x' & d & -> & Hd) Hs. apply includes_elim in Hs as (a & c & ->).
  replace (a ++ (x' ++ String d "") ++ c) with ((a ++ x') ++ String d c)
    by now rewrite !append_assoc.
  rewrite trimEnd_keeps by exact Hd.
  replace ((a ++ x') ++ String d (trimEnd c)) with (a ++ (x' ++ String d "") ++ trimEnd c)
    by now rewrite !append_assoc.
  apply includes_intro.
Qed.

Lemma bullet_endsBlack p : endsBlack (bullet p).
Proof.
  exists ("- " ++ String backtick p), backtick. split; [|reflexivity].
  unfold bullet. now rewrite !append_assoc, !append_cons.
Qed.


Lemma includes_app_l a b x : includes a x = true -> includes (a ++ b) x = true.
Proof.
  intros Ha. apply includes_elim in Ha as (u & v & ->).
  replace ((u ++ x ++ v) ++ b) with (u ++ x ++ (v ++ b)) by now rewrite !append_assoc.
  apply includes_intro.
Qed.

Lemma includes_app_r a b x : includes b x = true -> includes (a ++ b) x = true.
Proof.
  intros Hb. apply includes_elim in Hb as (u & v & ->).
  replace (a ++ u ++ x ++ v) with ((a ++ u) ++ x ++ v) by now rewrite !append_assoc.
  apply includes_intro.
Qed.

Lemma heading_endsBlack key :
  endsBlack ("#### " ++ String backtick key ++ String backtick "").
Proof.
  exists ("#### " ++ String backtick key), backtick. split; [|reflexivity].
  now rewrite !append_assoc, !append_cons.
Qed.

Lemma title_endsBlack : endsBlack "### Changed".
Proof. exists "### Change", "d"%char. split; reflexivity. Qed.

Section RenderComplete.
Context `{Collator}.

Lemma includes_section diff section x :
  isEmptyDiff diff = false ->
  In section (pathSection "### Added" (added diff)
              ++ pathSection "### Removed" (removed diff)
              ++ changedSection (changed diff))%list ->
  includes section x = true ->
  includes (renderChangelog diff) x = true.
Proof.
  intros Hne Hin Hx. unfold renderChangelog. rewrite Hne.
  apply includes_app_l. eapply includes_trans; [|exact Hx].
  now apply includes_join.
Qed.

Lemma pathSection_includes title paths :
  paths <> [] ->
  exists section,
    pathSection title paths = [section]
    /\ includes section title = true
    /\ forall p, In p paths -> includes section (bullet p) = true.
Proof.
  intros Hne. unfold pathSection. destruct paths as [|p0 paths]; [congruence|].
  cbn [List.length Nat.ltb Nat.leb]. eexists. split; [reflexivity|]. split.
  - apply (includes_intro "" title).
  - intros p Hp. apply includes_app_r, includes_app_r, includes_app_r.
    apply includes_join. now apply in_map.
Qed.

Lemma nonempty_diff diff :
  added diff <> [] \/ removed diff <> [] \/ changed diff <> ∅ ->
  isEmptyDiff diff = false.
Proof.
  unfold isEmptyDiff. intros [Ha|[Hr|Hc]].
  - destruct (added diff); [congruence|reflexivity].
  - destruct (removed diff); [congruence|]. cbn [List.length Nat.eqb].
    now rewrite andb_false_r.
  - destruct (Nat.eqb_spec (size (changed diff)) 0) as [E|E]; [|apply andb_false_r].
    now apply map_size_empty_iff in E.
Qed.

Lemma changedSection_includes (changed : gmap string Items.t) :
  changed <> ∅ ->
  exists section,
    changedSection changed = [section]
    /\ includes section "### Changed" = true
    /\ forall key d, changed !! key = Some d ->
         includes section ("#### " ++ String backtick key ++ String backtick "") = true
         /\ forall s, In s (Items.added d) \/ In s (Items.removed d) ->
                      includes section (bullet s) = true.
Proof.
  intros Hne. unfold changedSection.
  destruct (Nat.ltb_spec 0 (size changed)) as [_|Hsize].
  2:{ exfalso. apply Hne, map_size_empty_iff. lia. }
  eexists. split; [reflexivity|].
  set (entries := sortWith _ _).
  assert (Hentry : forall key d, changed !! key = Some d -> In (key, d) entries).
  { intros key d Hd. apply sortBy_In, list_elem_of_In, elem_of_map_to_list, Hd. }
  assert (Hline : forall line x,
            endsBlack x ->
            In line ([("### Changed" ++ Json.nl)%string]
                     ++ List.flat_map entryLines entries)%list ->
            includes line x = true ->
            includes (trimEnd (join Json.nl
                        ([("### Changed" ++ Json.nl)%string]
                         ++ List.flat_map entryLines entries)%list)) x = true).
  { intros line x Hx Hin Hinc. apply includes_trimEnd; [exact Hx|].
    eapply includes_trans; [|exact Hinc]. now apply includes_join. }
  split.
  - apply (Hline ("### Changed" ++ Json.nl));
      [apply title_endsBlack | apply in_app_iff; left; now left |].
    apply (includes_intro "" "### Changed").
  - intros key d Hd. specialize (Hentry key d Hd).
    assert (Hlines : forall line, In line (entryLines (key, d)) ->
              In line ([("### Changed" ++ Json.nl)%string]
                       ++ List.flat_map entryLines entries)%list).
    { intros line Hl. apply in_app_iff. right. apply in_flat_map. eauto. }
    split.
    + apply (Hline (heading key)); [apply heading_endsBlack | |].
      * apply Hlines. now left.
      * unfold heading.
        replace ("#### " ++ String backtick key ++ String backtick "" ++ Json.nl)
          with (("#### " ++ String backtick key ++ String backtick "") ++ Json.nl)
          by now rewrite !append_assoc, !append_cons.
        apply includes_app_l, includes_refl.
    + intros s Hs. apply (Hline (bullet s)); [apply bullet_endsBlack | | apply includes_refl].
      apply Hlines. unfold entryLines. cbn [fst snd]. apply in_app_iff. right.
      apply in_app_iff. unfold itemLines.
      destruct Hs as [Hs|Hs]; [left|right].
      * destruct (Items.added d) as [|s0 l]; [easy|].
        cbn [List.length Nat.ltb Nat.leb]. apply in_app_iff. right.
        apply in_app_iff. left. now apply in_map.
      * destruct (Items.removed d) as [|s0 l]; [easy|].
        cbn [List.length Nat.ltb Nat.leb]. apply in_app_iff. right.
        apply in_app_iff. left. now apply in_map.
Qed.


End RenderComplete.


Section PipelineExamples.
Import Reference ReferenceFacts.

Lemma sameInterface_sample :
  Forall2 sameInterface
          [token (balanceOfAbi "owner" ++ receiveAbi)]
          [token (receiveAbi ++ balanceOfAbi "account")].
Proof.
  constructor; [|constructor]. split; [reflexivity|].
  vm_compute. apply perm_swap.
Qed.

Lemma buildManifest_ignores_item_order_witness :
  buildManifest [token (balanceOfAbi "owner" ++ receiveAbi)]
  = buildManifest [token (receiveAbi ++ balanceOfAbi "account")].
Proof.
  exact (buildManifest_ignores_item_order _ _ sameInterface_sample).
Defined.

Lemma renderChangelog_same_interface_witness :
  renderChangelog
    (diffManifests (buildManifest [token (balanceOfAbi "owner" ++ receiveAbi)])
                   (buildManifest [token (receiveAbi ++ balanceOfAbi "account")]))
  = "".
Proof.
  exact (proj2 (renderChangelog_same_interface _ _ sameInterface_sample)).
Defined.


End PipelineExamples.

End RenderProperties.

(** ** Properties of [lib/config.ts] *)

Module ConfigProperties.
Import Config.

Lemma checkSources_None srcs :
  checkSources srcs = None <-> Forall oneOrigin srcs.
Proof.
  induction srcs as [|s srcs IH]; cbn [checkSources].
  - split; [constructor | reflexivity].
  - unfold oneOrigin at 1. rewrite List.Forall_cons_iff, <- IH.
    destruct (given (repo s)), (given (repoPath s)); cbn [negb andb].
    + split; [discriminate | intros [Hc _]; congruence].
    + split; [intros Hn; split; [discriminate | exact Hn] | intros [_ Hn]; exact Hn].
    + split; [intros Hn; split; [discriminate | exact Hn] | intros [_ Hn]; exact Hn].
    + split; [discriminate | intros [Hc _]; congruence].
Qed.

(** X25. [loadConfig] accepts a parsed file exactly when its sources are
    a non-empty array, its output directory is given, its main source, where
    one is given, is the id of a source, and every source has exactly one of
    [repo] and [repoPath]; an empty string counts as not given. What it
    returns is the parsed file with the two defaults filled in. *)
Theorem loadConfig_accepts (parsed config : AbiConfig) :
  loadConfig parsed = Ok config
  <-> (exists srcs,
         sources parsed = Some srcs
         /\ srcs <> []
         /\ given (outputDir parsed) = true
         /\ (given (mainSource parsed) = true ->
             exists s, In s srcs /\ mainSource parsed = Some (id s))
         /\ Forall oneOrigin srcs)
      /\ config = {| outputDir := outputDir parsed;
                     mainSource := mainSource parsed;
                     reposDir := Some (default ".repos" (reposDir parsed));
                     onMissingRepo := Some (default OnError (onMissingRepo parsed));
                     sources := sources parsed |}.
Proof.
  unfold loadConfig.
  destruct (sources parsed) as [[|s0 srcs]|] eqn:Es.
  - split; [discriminate|]. intros [(l & [= <-] & Hne & _) _]. congruence.
  - set (all := s0 :: srcs) in *.
    destruct (given (outputDir parsed)) eqn:Eout; cbn [negb].
    2:{ split; [discriminate|]. intros [(l & _ & _ & [=] & _) _]. }
    destruct (given (mainSource parsed)) eqn:Emain; cbn [andb].
    + destruct (mainSource parsed) as [main|] eqn:Em; [|discriminate].
      destruct (existsb (fun s => String.eqb (id s) main) all) eqn:Eex; cbn [negb].
      * apply existsb_exists in Eex as (s & Hs & Eid). apply String.eqb_eq in Eid.
        destruct (checkSources all) as [message|] eqn:Echeck.
        -- split; [discriminate|]. intros [(l & [= <-] & _ & _ & _ & Hall) _].
           apply checkSources_None in Hall. congruence.
        -- apply checkSources_None in Echeck. split.
           ++ intros [= <-]. split; [|now destruct (reposDir parsed), (onMissingRepo parsed)].
              exists all. repeat split; try easy. intros _. exists s. now rewrite Eid.
           ++ intros [_ ->]. now destruct (reposDir parsed), (onMissingRepo parsed).
      * split; [discriminate|].
        intros [(l & [= <-] & _ & _ & Hmain & _) _].
        destruct (Hmain eq_refl) as (s & Hs & [= ->]).
        assert (existsb (fun s' => String.eqb (id s') (id s)) all = true).
        { apply existsb_exists. exists s. now rewrite String.eqb_refl. }
        congruence.
    + destruct (checkSources all) as [message|] eqn:Echeck.
      * split; [discriminate|]. intros [(l & [= <-] & _ & _ & _ & Hall) _].
        apply checkSources_None in Hall. congruence.
      * apply checkSources_None in Echeck. split.
        -- intros [= <-]. split; [|now destruct (reposDir parsed), (onMissingRepo parsed)].
           exists all. repeat split; try easy.
        -- intros [_ ->]. now destruct (reposDir parsed), (onMissingRepo parsed).
  - split; [discriminate|]. intros [(l & [=] & _) _].
Qed.

Lemma loadConfig_accepts_witness :
  loadConfig Samples.config
  = Ok {| outputDir := Some "src/generated";
          mainSource := Some "contracts";
          reposDir := Some ".repos";
          onMissingRepo := Some OnError;
          sources := Some [Samples.contracts] |}.
Proof.
  apply (loadConfig_accepts Samples.config). split; [|reflexivity].
  exists [Samples.contracts]. repeat split; try easy.
  - intros _. exists Samples.contracts. split; [now left | reflexivity].
  - constructor; [discriminate | constructor].
Defined.

End ConfigProperties.
